(** * A shallow embedding of the linmo heap allocator (lib/malloc.c)

    The allocator manages one contiguous region through a singly linked,
    address-ordered list of block headers that live inside the region.  The
    embedding keeps that representation: memory is a byte-addressed store,
    a header is two 32-bit little-endian words ([next] at offset 0, [size]
    with the used flag in bit 0 at offset 4), and the four globals of the
    translation unit are fields of a state record.  The target is RV32, so
    [size_t], [uint32_t] and pointers are 32-bit and all arithmetic on them
    wraps modulo 2^32. *)

From Stdlib Require Import ZArith List Bool Lia.
Import ListNotations.
Local Open Scope Z_scope.

(** ** Machine words and memory *)

Definition wrap (x : Z) : Z := x mod 2 ^ 32.

Definition memory := Z -> Z.

Definition load8 (m : memory) (a : Z) : Z := m a mod 256.

Definition store8 (m : memory) (a v : Z) : memory :=
  fun x => if x =? a then v mod 256 else m x.

Definition load32 (m : memory) (a : Z) : Z :=
  load8 m a + 2 ^ 8 * load8 m (a + 1) + 2 ^ 16 * load8 m (a + 2)
  + 2 ^ 24 * load8 m (a + 3).

Definition store32 (m : memory) (a v : Z) : memory :=
  store8 (store8 (store8 (store8 m a v) (a + 1) (v / 2 ^ 8))
                 (a + 2) (v / 2 ^ 16)) (a + 3) (v / 2 ^ 24).

(** Modelled from the spec: the [memset] and [memcpy] primitives the
    allocator consumes from the environment; [memcpy] is only specified for
    regions that do not overlap. *)
Definition memset (m : memory) (dst c n : Z) : memory :=
  fun x => if (dst <=? x) && (x <? dst + n) then c mod 256 else m x.

Definition memcpy (m : memory) (dst src n : Z) : memory :=
  fun x => if (dst <=? x) && (x <? dst + n) then load8 m (src + (x - dst))
           else m x.

(** ** Heap state

    [crit] records the calls to the two critical-section capabilities, most
    recent first. *)

Inductive crit_event := Enter | Leave.

Record heap := mkHeap {
  mem : memory;
  first_free : Z;
  heap_start : Z;
  heap_end : Z;
  free_blocks_count : Z;
  crit : list crit_event
}.

Definition set_mem (m : memory) (st : heap) : heap :=
  mkHeap m (first_free st) (heap_start st) (heap_end st)
         (free_blocks_count st) (crit st).

Definition set_count (c : Z) (st : heap) : heap :=
  mkHeap (mem st) (first_free st) (heap_start st) (heap_end st) c (crit st).

Definition log_event (e : crit_event) (st : heap) : heap :=
  mkHeap (mem st) (first_free st) (heap_start st) (heap_end st)
         (free_blocks_count st) (e :: crit st).

(** Modelled from the spec: [CRITICAL_ENTER] and [CRITICAL_LEAVE] disable and
    restore preemption; they do not touch the heap.  [panic] does not
    return, which is the [Panic] outcome below. *)
Definition CRITICAL_ENTER : heap -> heap := log_event Enter.
Definition CRITICAL_LEAVE : heap -> heap := log_event Leave.

(** A call either returns a value in a new state, ends in [panic], or the
    model's loop budget ran out. *)
Inductive outcome (A : Type) :=
| Ret (v : A) (st : heap)
| Panic (st : heap)
| Timeout.
Arguments Ret {A} v st.
Arguments Panic {A} st.
Arguments Timeout {A}.

Definition bind {A B} (o : outcome A) (k : A -> heap -> outcome B)
  : outcome B :=
  match o with
  | Ret v st => k v st
  | Panic st => Panic st
  | Timeout => Timeout
  end.

Notation "'do' x , s <- o ; k" := (bind o (fun x s => k))
  (at level 10, x name, s name, o at level 100, k at level 200).

Definition is_ret {A} (o : outcome A) : bool :=
  match o with Ret _ _ => true | _ => false end.
Definition is_panic {A} (o : outcome A) : bool :=
  match o with Panic _ => true | _ => false end.
Definition final_state {A} (o : outcome A) (dflt : heap) : heap :=
  match o with Ret _ st => st | Panic st => st | Timeout => dflt end.

(** ** Block headers *)

Definition NULL : Z := 0.
Definition sizeof_size_t : Z := 4.
Definition sizeof_memblock : Z := 8.
Definition COALESCE_THRESHOLD : Z := 8.

Definition next_of (m : memory) (b : Z) : Z := load32 m b.
Definition size_of (m : memory) (b : Z) : Z := load32 m (b + 4).

Definition IS_USED (m : memory) (b : Z) : Z := Z.land (size_of m b) 1.
Definition GET_SIZE (m : memory) (b : Z) : Z :=
  Z.land (size_of m b) (Z.lnot 1).

Definition write_next (b v : Z) (st : heap) : heap :=
  set_mem (store32 (mem st) b v) st.
Definition write_size (b v : Z) (st : heap) : heap :=
  set_mem (store32 (mem st) (b + 4) v) st.

Definition MARK_USED (b : Z) (st : heap) : heap :=
  write_size b (Z.lor (size_of (mem st) b) 1) st.
Definition MARK_FREE (b : Z) (st : heap) : heap :=
  write_size b (Z.land (size_of (mem st) b) (Z.lnot 1)) st.

(** Modelled from the spec: [ALIGN4] is the round-up-to-a-multiple-of-[W]
    normalization, in 32-bit unsigned arithmetic. *)
Definition ALIGN4 (x : Z) : Z := wrap (x + 3) / 4 * 4.

Section Allocator.

(** The two size limits come from a header that is not part of the
    translation unit; the development is parametric in them. *)
Variable MALLOC_MIN_SIZE : Z.
Variable MALLOC_MAX_SIZE : Z.

Definition IS_VALID_BLOCK (st : heap) (b : Z) : bool :=
  (heap_start st <=? b) && (b <? heap_end st) && (b mod sizeof_size_t =? 0).

Definition validate_block (st : heap) (block : Z) : bool :=
  if negb (IS_VALID_BLOCK st block) then false
  else
    let size := GET_SIZE (mem st) block in
    if (size =? 0) || (size >? MALLOC_MAX_SIZE) then false
    else if wrap (block + sizeof_memblock + size) >? heap_end st then false
    else if negb (next_of (mem st) block =? NULL)
            && negb (wrap (block + sizeof_memblock
                           + GET_SIZE (mem st) block)
                     =? next_of (mem st) block)
    then false
    else true.

(** The merge step shared by [free], [selective_coalesce] and [realloc]:
    [p] absorbs its successor.  The size is written first, then the link. *)
Definition absorb_next (p : Z) (st : heap) : heap :=
  let st1 :=
    write_size p (wrap (GET_SIZE (mem st) p + sizeof_memblock
                        + GET_SIZE (mem st) (next_of (mem st) p))) st in
  write_next p (next_of (mem st1) (next_of (mem st1) p)) st1.

(** The predecessor search of [free]: returns the final value of [prev]. *)
Fixpoint find_prev (fuel : nat) (m : memory) (prev current p : Z)
  : option Z :=
  match fuel with
  | O => None
  | S fuel' =>
      if negb (current =? NULL) && negb (current =? p)
      then find_prev fuel' m current (next_of m current) p
      else Some prev
  end.

Definition free (fuel : nat) (ptr : Z) (st : heap) : outcome unit :=
  if ptr =? NULL then Ret tt st
  else
    let st := CRITICAL_ENTER st in
    let p := wrap (ptr - sizeof_memblock) in
    if negb (validate_block st p) || (IS_USED (mem st) p =? 0)
    then Panic (CRITICAL_LEAVE st)
    else
      let st := MARK_FREE p st in
      let st := set_count (wrap (free_blocks_count st + 1)) st in
      let st :=
        if negb (next_of (mem st) p =? NULL)
           && (IS_USED (mem st) (next_of (mem st) p) =? 0)
        then set_count (wrap (free_blocks_count st - 1)) (absorb_next p st)
        else st in
      match find_prev fuel (mem st) NULL (first_free st) p with
      | None => Timeout
      | Some prev =>
          if negb (prev =? NULL) && (IS_USED (mem st) prev =? 0)
          then
            if negb (validate_block st prev) then Panic (CRITICAL_LEAVE st)
            else
              let st :=
                write_size prev
                  (wrap (GET_SIZE (mem st) prev + sizeof_memblock
                         + GET_SIZE (mem st) p)) st in
              let st := write_next prev (next_of (mem st) p) st in
              let st := set_count (wrap (free_blocks_count st - 1)) st in
              Ret tt (CRITICAL_LEAVE st)
          else Ret tt (CRITICAL_LEAVE st)
      end.

Fixpoint coalesce_loop (fuel : nat) (p : Z) (st : heap) : outcome unit :=
  match fuel with
  | O => Timeout
  | S fuel' =>
      if negb (p =? NULL) && negb (next_of (mem st) p =? NULL)
      then
        if negb (validate_block st p) then Panic st
        else if (IS_USED (mem st) p =? 0)
                && (IS_USED (mem st) (next_of (mem st) p) =? 0)
        then coalesce_loop fuel' p
               (set_count (wrap (free_blocks_count st - 1))
                          (absorb_next p st))
        else coalesce_loop fuel' (next_of (mem st) p) st
      else Ret tt st
  end.

Definition selective_coalesce (fuel : nat) (st : heap) : outcome unit :=
  coalesce_loop fuel (first_free st) st.

Definition split_block (block size : Z) (st : heap) : outcome unit :=
  if size >? GET_SIZE (mem st) block then Panic st
  else
    let remaining := GET_SIZE (mem st) block - size in
    if remaining <? sizeof_memblock + MALLOC_MIN_SIZE then Ret tt st
    else
      let new_block := wrap (block + sizeof_memblock + size) in
      let st := write_next new_block (next_of (mem st) block) st in
      let st := write_size new_block (wrap (remaining - sizeof_memblock)) st in
      let st := MARK_FREE new_block st in
      let st := write_next block new_block st in
      let st := write_size block (Z.lor size (IS_USED (mem st) block)) st in
      Ret tt (set_count (wrap (free_blocks_count st + 1)) st).

Fixpoint malloc_loop (fuel : nat) (p size : Z) (st : heap) : outcome Z :=
  match fuel with
  | O => Timeout
  | S fuel' =>
      if p =? NULL then Ret NULL (CRITICAL_LEAVE st)
      else if negb (validate_block st p) then Panic (CRITICAL_LEAVE st)
      else if (IS_USED (mem st) p =? 0) && (GET_SIZE (mem st) p >=? size)
      then
        do _, st <- split_block p size st;
        let st := MARK_USED p st in
        if free_blocks_count st <=? 0 then Panic st
        else
          let st := set_count (wrap (free_blocks_count st - 1)) st in
          Ret (wrap (p + sizeof_memblock)) (CRITICAL_LEAVE st)
      else malloc_loop fuel' (next_of (mem st) p) size st
  end.

Definition malloc (fuel : nat) (size : Z) (st : heap) : outcome Z :=
  if (size =? 0) || (size >? MALLOC_MAX_SIZE) then Ret NULL st
  else
    let size := ALIGN4 size in
    let size := if size <? MALLOC_MIN_SIZE then MALLOC_MIN_SIZE else size in
    let st := CRITICAL_ENTER st in
    do _, st <- (if free_blocks_count st >? COALESCE_THRESHOLD
                 then selective_coalesce fuel st else Ret tt st);
    malloc_loop fuel (first_free st) size st.

Definition mo_heap_init (zone len : Z) (st : heap) : heap :=
  if (zone =? NULL) || (len <? 2 * sizeof_memblock + MALLOC_MIN_SIZE) then st
  else
    let len := ALIGN4 len in
    let start := zone in
    let end_ := wrap (zone + len - sizeof_memblock) in
    let st := write_next start end_ st in
    let st := write_size start (wrap (len - 2 * sizeof_memblock)) st in
    let st := MARK_FREE start st in
    let st := write_next end_ NULL st in
    let st := write_size end_ 0 st in
    let st := MARK_USED end_ st in
    mkHeap (mem st) start zone (wrap (end_ + sizeof_memblock)) 1 (crit st).

Definition calloc (fuel : nat) (nmemb size : Z) (st : heap) : outcome Z :=
  if negb (nmemb =? 0) && (size >? MALLOC_MAX_SIZE / nmemb) then Ret NULL st
  else
    let total_size := ALIGN4 (wrap (nmemb * size)) in
    do buf, st <- malloc fuel total_size st;
    if negb (buf =? NULL)
    then Ret buf (set_mem (memset (mem st) buf 0 total_size) st)
    else Ret buf st.

Definition realloc (fuel : nat) (ptr size : Z) (st : heap) : outcome Z :=
  if size >? MALLOC_MAX_SIZE then Ret NULL st
  else if ptr =? NULL then malloc fuel size st
  else if size =? 0 then (do _, st <- free fuel ptr st; Ret NULL st)
  else
    let size := ALIGN4 size in
    let old_block := wrap (ptr - sizeof_memblock) in
    if negb (validate_block st old_block)
       || (IS_USED (mem st) old_block =? 0)
    then Panic st
    else
      let old_size := GET_SIZE (mem st) old_block in
      if (size <=? old_size)
         && (old_size - size <? sizeof_memblock + MALLOC_MIN_SIZE)
      then Ret ptr st
      else if size <=? old_size
      then
        do _, st <- split_block old_block size st;
        do _, st <- (if free_blocks_count st >? COALESCE_THRESHOLD
                     then selective_coalesce fuel st else Ret tt st);
        Ret (wrap (old_block + sizeof_memblock)) (CRITICAL_LEAVE st)
      else if negb (next_of (mem st) old_block =? NULL)
              && (IS_USED (mem st) (next_of (mem st) old_block) =? 0)
              && (wrap (GET_SIZE (mem st) old_block + sizeof_memblock
                        + GET_SIZE (mem st) (next_of (mem st) old_block))
                  >=? size)
      then
        let st := set_count (wrap (free_blocks_count st - 1))
                            (absorb_next old_block st) in
        do _, st <- split_block old_block size st;
        do _, st <- (if free_blocks_count st >? COALESCE_THRESHOLD
                     then selective_coalesce fuel st else Ret tt st);
        Ret (wrap (old_block + sizeof_memblock)) (CRITICAL_LEAVE st)
      else
        do new_buf, st <- malloc fuel size st;
        if negb (new_buf =? NULL)
        then
          let st :=
            set_mem (memcpy (mem st) new_buf ptr (Z.min old_size size)) st in
          do _, st <- free fuel ptr st;
          Ret new_buf st
        else Ret new_buf st.

End Allocator.


(** ** The block list as a mathematical list

    A block is abstracted by its payload size and its used flag; the
    address of a header is the list's base address plus the extent of the
    blocks before it.  [seg m a l] says that memory [m] holds, from address
    [a] on, the headers of the blocks [l], laid out back to back and linked
    in address order. *)

Definition blk := (Z * bool)%type.

Fixpoint span (l : list blk) : Z :=
  match l with
  | [] => 0
  | b :: l' => sizeof_memblock + fst b + span l'
  end.

Fixpoint seg (m : memory) (a : Z) (l : list blk) : Prop :=
  match l with
  | [] => True
  | b :: l' =>
      next_of m a = a + sizeof_memblock + fst b
      /\ size_of m a = fst b + Z.b2z (snd b)
      /\ seg m (a + sizeof_memblock + fst b) l'
  end.

Definition size_ok (b : blk) : Prop := 0 <= fst b /\ fst b mod 4 = 0.
Definition sizes_ok (l : list blk) : Prop := Forall size_ok l.

Fixpoint count_free (l : list blk) : Z :=
  match l with
  | [] => 0
  | b :: l' => (if snd b then 0 else 1) + count_free l'
  end.

(** Invariant 5 of the data model: no two neighbours are both free. *)
Fixpoint no_adj_free (l : list blk) : bool :=
  match l with
  | b :: l' =>
      match l' with
      | b' :: _ => (snd b || snd b') && no_adj_free l'
      | [] => true
      end
  | [] => true
  end.

(** The block whose header sits at address [h], if any. *)
Fixpoint block_at (a : Z) (l : list blk) (h : Z) : option blk :=
  match l with
  | [] => None
  | b :: l' =>
      if h =? a then Some b else block_at (a + sizeof_memblock + fst b) l' h
  end.

(** Structural well-formedness of the region: the list starts at a non-null
    word-aligned base, every payload size is a multiple of the word size,
    the headers are linked without gaps, and the list ends inside the region
    in a used header whose [next] is null (the sentinel written by
    [mo_heap_init] is such a header, with payload size 0). *)
Record wf_mem (m : memory) (a0 : Z) (bs : list blk) (hend : Z) : Prop := {
  wf_pos : 0 < a0;
  wf_align : a0 mod 4 = 0;
  wf_sizes : sizes_ok bs;
  wf_seg : seg m a0 bs;
  wf_term_next : next_of m (a0 + span bs) = NULL;
  wf_term_used : IS_USED m (a0 + span bs) = 1;
  wf_end : a0 + span bs + sizeof_memblock <= hend;
  wf_top : hend < 2 ^ 32
}.

Record heap_inv (st : heap) (bs : list blk) : Prop := {
  hi_first : first_free st = heap_start st;
  hi_wf : wf_mem (mem st) (heap_start st) bs (heap_end st);
  hi_count : free_blocks_count st = count_free bs
}.

(** The list-level effect of the coalescing sweep: [b] is the block under
    the cursor, [l] the blocks after it. *)
Fixpoint sweep (b : blk) (l : list blk) : list blk :=
  match l with
  | [] => [b]
  | n :: l' =>
      if negb (snd b) && negb (snd n)
      then sweep (fst b + sizeof_memblock + fst n, false) l'
      else b :: sweep n l'
  end.

Definition sweep_all (l : list blk) : list blk :=
  match l with
  | [] => []
  | b :: l' => sweep b l'
  end.

(** An observer used to state what a test harness would measure: the number
    of headers reachable from [p] whose used flag is clear. *)
Fixpoint measured_free (fuel : nat) (m : memory) (p : Z) : Z :=
  match fuel with
  | O => 0
  | S fuel' =>
      if p =? NULL then 0
      else (if IS_USED m p =? 0 then 1 else 0)
           + measured_free fuel' m (next_of m p)
  end.

Definition ret_value {A} (o : outcome A) : option A :=
  match o with Ret v _ => Some v | _ => None end.

(** ** Concrete heaps used as test inputs

    The configuration of the specification's scenarios: minimum payload 8,
    maximum payload 2^30, a 256-byte region at address 4096. *)

Definition blank : heap := mkHeap (fun _ => 0) 0 0 0 0 [].

(** An uninitialised state whose memory holds 255 in every byte, to make
    visible which bytes a call writes. *)
Definition dirty : heap := mkHeap (fun _ => 255) 0 0 0 0 [].
Definition MIN8 : Z := 8.
Definition MAX30 : Z := 2 ^ 30.

Definition heap256 : heap := mo_heap_init MIN8 4096 256 blank.

(** [heap256] after [malloc(64)], which returns 4104. *)
Definition heap256_a64 : heap :=
  final_state (malloc MIN8 MAX30 8 64 heap256) blank.

(** [used_kept a0 bs m bs' m' ex]: every used block of [bs] other than the
    one at [ex] is still a used block of [bs'], at the same address and with
    the same size, and none of its bytes (header and payload) differ between
    [m] and [m']. *)
Definition used_kept (a0 : Z) (bs : list blk) (m : memory)
           (bs' : list blk) (m' : memory) (ex : Z) : Prop :=
  forall h sz,
    block_at a0 bs h = Some (sz, true) -> h <> ex ->
    block_at a0 bs' h = Some (sz, true)
    /\ forall x, h <= x < h + sizeof_memblock + sz -> m' x = m x.

Definition same_region (st st' : heap) : Prop :=
  first_free st' = first_free st
  /\ heap_start st' = heap_start st
  /\ heap_end st' = heap_end st.

(** What [split_block] does to a block of size [sz] and flag [u] at the list
    level. *)
Definition split_list (MIN sz : Z) (u : bool) (size : Z) : list blk :=
  if sz - size <? sizeof_memblock + MIN then [(sz, u)]
  else [(size, u); (sz - size - sizeof_memblock, false)].

(** The value [free]'s predecessor search ends with on a list of blocks
    [l] laid out from [a]: the address of the last header of [l]. *)
Fixpoint last_addr (prev a : Z) (l : list blk) : Z :=
  match l with
  | [] => prev
  | b :: l' => last_addr a (a + sizeof_memblock + fst b) l'
  end.

(** The list-level effect of [free] on the used block of size [s] between
    [P] and [Q]: mark it free, absorb a free successor, then let a free
    predecessor absorb the result. *)
Definition fwd_merge (s : Z) (Q : list blk) : list blk :=
  match Q with
  | n :: Q' =>
      if snd n then (s, false) :: Q
      else (s + sizeof_memblock + fst n, false) :: Q'
  | [] => [(s, false)]
  end.

Fixpoint bwd_merge (P : list blk) (l : list blk) : list blk :=
  match P with
  | [] => l
  | bp :: P' =>
      match P' with
      | [] =>
          match l with
          | b :: Q =>
              if snd bp then bp :: l
              else (fst bp + sizeof_memblock + fst b, false) :: Q
          | [] => [bp]
          end
      | _ :: _ => bp :: bwd_merge P' l
      end
  end.

Definition free_list (P : list blk) (s : Z) (Q : list blk) : list blk :=
  bwd_merge P (fwd_merge s Q).

(** One completed step of the allocator seen through the abstraction: the
    region is the same, the invariant holds for the new list, the used
    blocks other than the one at [ex] are untouched, and so is every byte
    outside the extent of the block list. *)
Definition region_kept (a0 : Z) (bs : list blk) (m : memory)
           (bs' : list blk) (m' : memory) : Prop :=
  span bs' = span bs
  /\ forall x, x < a0 \/ a0 + span bs <= x -> m' x = m x.

Definition evolves (st : heap) (bs : list blk) (st' : heap) (bs' : list blk)
           (ex : Z) : Prop :=
  same_region st st'
  /\ heap_inv st' bs'
  /\ used_kept (heap_start st) bs (mem st) bs' (mem st') ex
  /\ region_kept (heap_start st) bs (mem st) bs' (mem st').

(** Used flag of the first, respectively last, block of a list; an empty
    list counts as used (the list is bordered by used headers). *)
Definition hd_used (l : list blk) : bool :=
  match l with
  | [] => true
  | b :: _ => snd b
  end.

Fixpoint last_used (l : list blk) : bool :=
  match l with
  | [] => true
  | b :: l' =>
      match l' with
      | [] => snd b
      | _ :: _ => last_used l'
      end
  end.

(** The size a request is normalised to by [malloc]. *)
Definition norm_size (MIN size : Z) : Z :=
  if ALIGN4 size <? MIN then MIN else ALIGN4 size.

(** ** The two merge phases of [free]

    [free] is the composition of these fragments (lemma [free_eq]); they are
    named so that each phase can be specified on its own. *)

Definition free_forward (p : Z) (st : heap) : heap :=
  if negb (next_of (mem st) p =? NULL)
     && (IS_USED (mem st) (next_of (mem st) p) =? 0)
  then set_count (wrap (free_blocks_count st - 1)) (absorb_next p st)
  else st.

Definition free_backward (MAX p prev : Z) (st : heap) : outcome unit :=
  if negb (prev =? NULL) && (IS_USED (mem st) prev =? 0)
  then
    if negb (validate_block MAX st prev) then Panic (CRITICAL_LEAVE st)
    else
      let st :=
        write_size prev
          (wrap (GET_SIZE (mem st) prev + sizeof_memblock
                 + GET_SIZE (mem st) p)) st in
      let st := write_next prev (next_of (mem st) p) st in
      let st := set_count (wrap (free_blocks_count st - 1)) st in
      Ret tt (CRITICAL_LEAVE st)
  else Ret tt (CRITICAL_LEAVE st).

(** The terminal header written by [mo_heap_init] has payload size 0. *)
Definition sentinel (st : heap) (bs : list blk) : Prop :=
  GET_SIZE (mem st) (heap_start st + span bs) = 0.

(** A block is acceptable to [validate_block] when its size is non-zero and
    within the maximum. *)
Definition valid_size (MAX : Z) (b : blk) : Prop := 0 < fst b <= MAX.

(** A free block that can hold [n] payload bytes. *)
Definition fits (n : Z) (b : blk) : Prop := snd b = false /\ n <= fst b.

(** The scenario heap after three [malloc(16)] calls, which return 4104,
    4128 and 4152; then with the middle block freed; and [heap256_a64] after
    shrinking its block to 16 bytes. *)
Definition heap3 : heap :=
  final_state
    (malloc MIN8 MAX30 8 16
       (final_state
          (malloc MIN8 MAX30 8 16
             (final_state (malloc MIN8 MAX30 8 16 heap256) blank))
          blank))
    blank.

Definition heap3_f2 : heap := final_state (free MAX30 8 4128 heap3) blank.

Definition heap_shrunk : heap :=
  final_state (realloc MIN8 MAX30 8 4104 16 heap256_a64) blank.
(** * Memory lemmas *)

Lemma wrap_small x : 0 <= x < 2 ^ 32 -> wrap x = x.
Proof. intros; unfold wrap; apply Z.mod_small; assumption. Qed.

Lemma wrap_range x : 0 <= wrap x < 2 ^ 32.
Proof. unfold wrap; apply Z.mod_pos_bound; lia. Qed.

Lemma load8_range m a : 0 <= load8 m a < 256.
Proof. unfold load8; apply Z.mod_pos_bound; lia. Qed.

Lemma load32_range m a : 0 <= load32 m a < 2 ^ 32.
Proof.
  unfold load32.
  pose proof (load8_range m a); pose proof (load8_range m (a + 1)).
  pose proof (load8_range m (a + 2)); pose proof (load8_range m (a + 3)).
  lia.
Qed.

Lemma store32_other m a v x : x < a \/ a + 4 <= x -> store32 m a v x = m x.
Proof.
  intros H; unfold store32, store8.
  repeat match goal with
         | |- context [?p =? ?q] => destruct (Z.eqb_spec p q); try lia
         end; try reflexivity.
Qed.

Lemma load32_ext m m' a :
  (forall x, a <= x < a + 4 -> m' x = m x) -> load32 m' a = load32 m a.
Proof.
  intros H; unfold load32, load8.
  rewrite (H a), (H (a + 1)), (H (a + 2)), (H (a + 3)) by lia; reflexivity.
Qed.

Lemma load32_store32_other m a v b :
  b + 4 <= a \/ a + 4 <= b -> load32 (store32 m a v) b = load32 m b.
Proof.
  intros H; apply load32_ext; intros x Hx; apply store32_other; lia.
Qed.

Lemma bytes_of_word v :
  v mod 256 + 2 ^ 8 * ((v / 2 ^ 8) mod 256) + 2 ^ 16 * ((v / 2 ^ 16) mod 256)
  + 2 ^ 24 * ((v / 2 ^ 24) mod 256) = v mod 2 ^ 32.
Proof.
  change (2 ^ 16) with (2 ^ 8 * 2 ^ 8).
  change (2 ^ 24) with (2 ^ 8 * 2 ^ 8 * 2 ^ 8).
  change (2 ^ 32) with (2 ^ 8 * (2 ^ 8 * (2 ^ 8 * 2 ^ 8))).
  change 256 with (2 ^ 8).
  rewrite <- !Z.div_div by lia.
  set (k := 2 ^ 8).
  assert (Hk : 0 < k) by (subst k; lia).
  rewrite !Z.rem_mul_r by lia.
  nia.
Qed.

Lemma load32_store32_same m a v : load32 (store32 m a v) a = wrap v.
Proof.
  unfold load32, load8, store32, store8, wrap.
  repeat match goal with
         | |- context [?p =? ?q] =>
             destruct (Z.eqb_spec p q); try lia
         end.
  rewrite !Z.mod_mod by lia.
  apply bytes_of_word.
Qed.

(** * Flag and size arithmetic *)

Lemma land_1_mod2 x : Z.land x 1 = x mod 2.
Proof. change 1 with (Z.ones 1); rewrite Z.land_ones by lia; reflexivity. Qed.

Lemma land_lnot1 x : Z.land x (Z.lnot 1) = 2 * (x / 2).
Proof.
  rewrite <- Z.ldiff_land. change 1 with (Z.ones 1).
  rewrite Z.ldiff_ones_r by lia.
  rewrite Z.shiftr_div_pow2, Z.shiftl_mul_pow2 by lia.
  change (2 ^ 1) with 2; lia.
Qed.

Lemma lor_1 x : Z.lor x 1 = 2 * (x / 2) + 1.
Proof.
  pose proof (Z.add_lor_land x 1) as H.
  pose proof (Z.lxor_lor x 1) as _.
  rewrite land_1_mod2 in H.
  pose proof (Z.div_mod x 2 ltac:(lia)).
  pose proof (Z.mod_pos_bound x 2 ltac:(lia)).
  assert (Hc : x mod 2 = 0 \/ x mod 2 = 1) by lia.
  destruct Hc as [Hc | Hc].
  - lia.
  - (* x odd: setting bit 0 changes nothing *)
    assert (Hx : Z.lor x 1 = x).
    { apply Z.bits_inj'; intros n Hn.
      rewrite Z.lor_spec.
      destruct (Z.eq_dec n 0) as [-> | Hn0].
      - pose proof (Z.bit0_mod x) as Hb; rewrite Hc in Hb.
        destruct (Z.testbit x 0); [reflexivity | discriminate Hb].
      - replace (Z.testbit 1 n) with false; [apply orb_false_r |].
        symmetry; apply Z.bits_above_log2; simpl; lia. }
    lia.
Qed.

Lemma lor_bit x u : 0 <= x -> x mod 2 = 0 -> Z.lor x (Z.b2z u) = x + Z.b2z u.
Proof.
  intros Hx He; destruct u; simpl.
  - rewrite lor_1. pose proof (Z.div_mod x 2 ltac:(lia)); lia.
  - rewrite Z.lor_0_r; lia.
Qed.

Lemma flag_of_word sz u : sz mod 2 = 0 -> Z.land (sz + Z.b2z u) 1 = Z.b2z u.
Proof.
  intros He; rewrite land_1_mod2.
  rewrite Z.add_mod, He by lia; destruct u; reflexivity.
Qed.

Lemma size_of_word sz u :
  sz mod 2 = 0 -> Z.land (sz + Z.b2z u) (Z.lnot 1) = sz.
Proof.
  intros He; rewrite land_lnot1.
  pose proof (Z.div_mod sz 2 ltac:(lia)).
  destruct u; simpl Z.b2z.
  - replace (sz + 1) with (1 + (sz / 2) * 2) by lia.
    rewrite Z.div_add by lia. change (1 / 2) with 0. lia.
  - rewrite Z.add_0_r; lia.
Qed.

Lemma mod4_even x : x mod 4 = 0 -> x mod 2 = 0.
Proof.
  intros H. pose proof (Z.div_mod x 4 ltac:(lia)).
  replace x with ((2 * (x / 4)) * 2) by lia. apply Z.mod_mul; lia.
Qed.

Lemma ALIGN4_mod4 x : ALIGN4 x mod 4 = 0.
Proof. unfold ALIGN4; apply Z.mod_mul; lia. Qed.

Lemma ALIGN4_bounds x :
  0 <= x -> x + 3 < 2 ^ 32 -> x <= ALIGN4 x < x + 4.
Proof.
  intros H0 H1; unfold ALIGN4; rewrite wrap_small by lia.
  pose proof (Z.div_mod (x + 3) 4 ltac:(lia)).
  pose proof (Z.mod_pos_bound (x + 3) 4 ltac:(lia)).
  lia.
Qed.

(** * Proof automation for header reads and writes *)

Ltac fields :=
  cbn [mem first_free heap_start heap_end free_blocks_count crit
       set_mem set_count log_event write_next write_size
       MARK_USED MARK_FREE CRITICAL_ENTER CRITICAL_LEAVE] in *.

Ltac loads :=
  repeat match goal with
         | |- context [load32 (store32 ?m ?a ?v) ?a] =>
             rewrite (load32_store32_same m a v)
         | |- context [load32 (store32 ?m ?a ?v) ?b] =>
             rewrite (load32_store32_other m a v b) by lia
         end.

Lemma GET_SIZE_range m b : 0 <= GET_SIZE m b < 2 ^ 32.
Proof.
  unfold GET_SIZE, size_of; rewrite land_lnot1.
  pose proof (load32_range m (b + 4)) as H.
  pose proof (Z.div_mod (load32 m (b + 4)) 2 ltac:(lia)).
  pose proof (Z.mod_pos_bound (load32 m (b + 4)) 2 ltac:(lia)).
  lia.
Qed.

Lemma GET_SIZE_even m b : GET_SIZE m b mod 2 = 0.
Proof.
  unfold GET_SIZE; rewrite land_lnot1, Z.mul_comm; apply Z.mod_mul; lia.
Qed.

Lemma IS_USED_cases m b : IS_USED m b = 0 \/ IS_USED m b = 1.
Proof.
  unfold IS_USED; rewrite land_1_mod2.
  pose proof (Z.mod_pos_bound (size_of m b) 2 ltac:(lia)); lia.
Qed.

Lemma word_split m b : size_of m b = GET_SIZE m b + IS_USED m b.
Proof.
  unfold GET_SIZE, IS_USED; rewrite land_lnot1, land_1_mod2.
  apply Z.div_mod; lia.
Qed.

Lemma land_lnot1_even x : x mod 2 = 0 -> Z.land x (Z.lnot 1) = x.
Proof.
  intros H; pose proof (size_of_word x false H) as E.
  simpl Z.b2z in E; rewrite Z.add_0_r in E; exact E.
Qed.

Lemma land_1_even x : x mod 2 = 0 -> Z.land x 1 = 0.
Proof. intros H; rewrite land_1_mod2; exact H. Qed.

Lemma even_add x y : x mod 2 = 0 -> y mod 2 = 0 -> (x + y) mod 2 = 0.
Proof. intros Hx Hy; rewrite Z.add_mod, Hx, Hy by lia; reflexivity. Qed.

Lemma even_sub x y : x mod 2 = 0 -> y mod 2 = 0 -> (x - y) mod 2 = 0.
Proof. intros Hx Hy; rewrite Zminus_mod, Hx, Hy; reflexivity. Qed.

Lemma lor_flag_word sz f :
  0 <= sz -> sz mod 2 = 0 -> f = 0 \/ f = 1 ->
  Z.lor sz f = sz + f
  /\ Z.land (sz + f) (Z.lnot 1) = sz /\ Z.land (sz + f) 1 = f.
Proof.
  intros H0 He [-> | ->].
  - pose proof (lor_bit sz false H0 He) as E1.
    pose proof (size_of_word sz false He) as E2.
    pose proof (flag_of_word sz false He) as E3.
    simpl Z.b2z in *; auto.
  - pose proof (lor_bit sz true H0 He) as E1.
    pose proof (size_of_word sz true He) as E2.
    pose proof (flag_of_word sz true He) as E3.
    simpl Z.b2z in *; auto.
Qed.

(** Field projections of updated states, as rewrite rules. *)
Lemma mem_set_count c st : mem (set_count c st) = mem st.
Proof. reflexivity. Qed.
Lemma first_free_set_count c st : first_free (set_count c st) = first_free st.
Proof. reflexivity. Qed.
Lemma heap_start_set_count c st : heap_start (set_count c st) = heap_start st.
Proof. reflexivity. Qed.
Lemma heap_end_set_count c st : heap_end (set_count c st) = heap_end st.
Proof. reflexivity. Qed.
Lemma count_set_count c st : free_blocks_count (set_count c st) = c.
Proof. reflexivity. Qed.
Lemma crit_set_count c st : crit (set_count c st) = crit st.
Proof. reflexivity. Qed.

Lemma mem_set_mem m st : mem (set_mem m st) = m.
Proof. reflexivity. Qed.
Lemma first_free_set_mem m st : first_free (set_mem m st) = first_free st.
Proof. reflexivity. Qed.
Lemma heap_start_set_mem m st : heap_start (set_mem m st) = heap_start st.
Proof. reflexivity. Qed.
Lemma heap_end_set_mem m st : heap_end (set_mem m st) = heap_end st.
Proof. reflexivity. Qed.
Lemma count_set_mem m st :
  free_blocks_count (set_mem m st) = free_blocks_count st.
Proof. reflexivity. Qed.
Lemma crit_set_mem m st : crit (set_mem m st) = crit st.
Proof. reflexivity. Qed.

Lemma mem_log_event e st : mem (log_event e st) = mem st.
Proof. reflexivity. Qed.
Lemma first_free_log_event e st : first_free (log_event e st) = first_free st.
Proof. reflexivity. Qed.
Lemma heap_start_log_event e st : heap_start (log_event e st) = heap_start st.
Proof. reflexivity. Qed.
Lemma heap_end_log_event e st : heap_end (log_event e st) = heap_end st.
Proof. reflexivity. Qed.
Lemma count_log_event e st :
  free_blocks_count (log_event e st) = free_blocks_count st.
Proof. reflexivity. Qed.
Lemma crit_log_event e st : crit (log_event e st) = e :: crit st.
Proof. reflexivity. Qed.

Ltac proj :=
  unfold CRITICAL_ENTER, CRITICAL_LEAVE;
  repeat first
    [ rewrite mem_set_count | rewrite first_free_set_count
    | rewrite heap_start_set_count | rewrite heap_end_set_count
    | rewrite count_set_count | rewrite crit_set_count
    | rewrite mem_set_mem | rewrite first_free_set_mem
    | rewrite heap_start_set_mem | rewrite heap_end_set_mem
    | rewrite count_set_mem | rewrite crit_set_mem
    | rewrite mem_log_event | rewrite first_free_log_event
    | rewrite heap_start_log_event | rewrite heap_end_log_event
    | rewrite count_log_event | rewrite crit_log_event ].

(** * Claims settled directly on the code *)

(** C10: [calloc] with a zero element count returns null and leaves the
    state untouched, whatever the element size. *)
Theorem calloc_zero_count_null :
  forall MIN MAX fuel size st, calloc MIN MAX fuel 0 size st = Ret NULL st.
Proof.
  intros; unfold calloc, malloc; reflexivity.
Qed.

(** ** [calloc]'s overflow guard *)

Lemma div_guard_iff MAX n s :
  0 < n -> (s > MAX / n <-> n * s > MAX).
Proof.
  intros Hn.
  pose proof (Z.div_mod MAX n ltac:(lia)).
  pose proof (Z.mod_pos_bound MAX n Hn).
  split; intros; nia.
Qed.

Lemma load8_memset m dst c n x :
  dst <= x < dst + n -> load8 (memset m dst c n) x = c mod 256.
Proof.
  intros H; unfold load8, memset.
  destruct (Z.leb_spec dst x); [| lia].
  destruct (Z.ltb_spec x (dst + n)); [| lia].
  simpl; apply Z.mod_mod; lia.
Qed.




(** ** [split_block] *)

(** C7: with [size <= payload_size(b)] and [size] a payload size (a multiple
    of the word size, so bit 0 is clear), [split_block] leaves the state
    alone when the remainder is below one header plus the minimum payload,
    and otherwise installs a free header right after the first [size]
    payload bytes, links it between [b] and [b]'s old successor, shrinks
    [b] to [size] keeping its used flag, and increments the counter. *)
Theorem split_block_spec :
  forall MIN b size st,
    0 <= MIN -> 0 <= b -> 0 <= size -> size mod 4 = 0 ->
    size <= GET_SIZE (mem st) b ->
    b + sizeof_memblock + GET_SIZE (mem st) b <= 2 ^ 32 ->
    let remaining := GET_SIZE (mem st) b - size in
    let n := b + sizeof_memblock + size in
    (remaining < sizeof_memblock + MIN ->
     split_block MIN b size st = Ret tt st)
    /\ (sizeof_memblock + MIN <= remaining ->
        exists st',
          split_block MIN b size st = Ret tt st'
          /\ GET_SIZE (mem st') n = remaining - sizeof_memblock
          /\ IS_USED (mem st') n = 0
          /\ next_of (mem st') n = next_of (mem st) b
          /\ next_of (mem st') b = n
          /\ GET_SIZE (mem st') b = size
          /\ IS_USED (mem st') b = IS_USED (mem st) b
          /\ free_blocks_count st' = wrap (free_blocks_count st + 1)).
Proof.
  intros MIN b size st HM Hb Hs He4 Hle Htop remaining n.
  pose proof (mod4_even size He4) as He.
  unfold sizeof_memblock in *.
  pose proof (GET_SIZE_range (mem st) b) as Hr.
  pose proof (GET_SIZE_even (mem st) b) as Hev.
  unfold split_block, sizeof_memblock.
  destruct (Z.gtb_spec size (GET_SIZE (mem st) b)); [lia |].
  fold remaining.
  destruct (Z.ltb_spec remaining (8 + MIN)); split; intros;
    try lia; try reflexivity.
  eexists; split; [reflexivity |].
  fields. rewrite (wrap_small (b + 8 + size)) by lia.
  fold n.
  assert (Hr8 : (remaining - 8) mod 2 = 0).
  { subst remaining. apply even_sub; [apply even_sub; assumption | reflexivity]. }
  assert (Hfl : IS_USED (mem st) b = 0 \/ IS_USED (mem st) b = 1)
    by apply IS_USED_cases.
  destruct (lor_flag_word size (IS_USED (mem st) b) Hs He Hfl)
    as (E1 & E2 & E3).
  pose proof (load32_range (mem st) b) as Hn.
  unfold GET_SIZE, IS_USED, next_of, size_of in *. fields.
  loads.
  rewrite !(wrap_small (remaining - 8)) by lia.
  rewrite (land_lnot1_even (remaining - 8)) by assumption.
  rewrite !(wrap_small (remaining - 8)) by lia.
  rewrite (land_lnot1_even (remaining - 8)) by assumption.
  rewrite (land_1_even (remaining - 8)) by assumption.
  rewrite E1.
  rewrite !(wrap_small (size + _)) by lia.
  rewrite E2, E3.
  rewrite (wrap_small (load32 (mem st) b)) by lia.
  rewrite (wrap_small n) by (subst n; lia).
  repeat split; reflexivity.
Qed.

Lemma heap256_first_size : GET_SIZE (mem heap256) 4096 = 240.
Proof. vm_compute; reflexivity. Qed.

Lemma split_block_spec_witness :
  split_block MIN8 4096 232 heap256 = Ret tt heap256
  /\ exists st',
      split_block MIN8 4096 16 heap256 = Ret tt st'
      /\ GET_SIZE (mem st') 4120 = 216
      /\ IS_USED (mem st') 4120 = 0
      /\ next_of (mem st') 4096 = 4120
      /\ GET_SIZE (mem st') 4096 = 16.
Proof.
  pose proof heap256_first_size as E.
  split.
  - apply (split_block_spec MIN8 4096 232 heap256);
      try rewrite E; unfold MIN8, sizeof_memblock; try lia; reflexivity.
  - destruct (split_block_spec MIN8 4096 16 heap256) as [_ H];
      try rewrite E; unfold MIN8, sizeof_memblock; try lia; try reflexivity.
    destruct H as (st' & Hs & H1 & H2 & H3 & H4 & H5 & H6 & H7);
      [rewrite E; unfold MIN8, sizeof_memblock; lia |].
    rewrite E in H1. unfold sizeof_memblock in *.
    exists st'. repeat split; assumption.
Defined.

(** ** [mo_heap_init] *)

(** The two outcomes of [mo_heap_init]: a null region or a length below two
    headers plus the minimum payload leaves the state unchanged; otherwise
    the length goes through [ALIGN4], and the region then holds one free
    header at its base whose payload is that length minus two headers,
    linked to a used, zero-payload, null-terminated header in the last eight
    bytes, with [free_blocks_count] equal to 1.  The second part assumes
    the region fits in the 32-bit address space. *)
Theorem mo_heap_init_spec :
  forall MIN zone len st,
    ((zone = NULL \/ len < 2 * sizeof_memblock + MIN) ->
     mo_heap_init MIN zone len st = st)
    /\ (0 <= MIN -> 0 < zone -> 2 * sizeof_memblock + MIN <= len ->
        zone + len + 3 < 2 ^ 32 ->
        let L := ALIGN4 len in
        let st' := mo_heap_init MIN zone len st in
        let e := zone + L - sizeof_memblock in
        len <= L < len + 4 /\ L mod 4 = 0
        /\ IS_USED (mem st') zone = 0
        /\ GET_SIZE (mem st') zone = L - 2 * sizeof_memblock
        /\ next_of (mem st') zone = e
        /\ next_of (mem st') e = NULL
        /\ GET_SIZE (mem st') e = 0
        /\ IS_USED (mem st') e = 1
        /\ free_blocks_count st' = 1
        /\ first_free st' = zone
        /\ heap_start st' = zone
        /\ heap_end st' = zone + L).
Proof.
  intros MIN zone len st; split.
  - intros H; unfold mo_heap_init, NULL, sizeof_memblock in *.
    destruct H as [-> | H]; [reflexivity |].
    destruct (Z.ltb_spec len (2 * 8 + MIN)); [| lia].
    rewrite orb_true_r; reflexivity.
  - intros HM Hz Hlen Htop L st' e.
    unfold sizeof_memblock in *.
    pose proof (ALIGN4_bounds len ltac:(lia) ltac:(lia)) as HL.
    pose proof (ALIGN4_mod4 len) as HL4. fold L in HL, HL4.
    pose proof (mod4_even L HL4) as HLe.
    assert (HLe' : (L - 2 * 8) mod 2 = 0) by (apply even_sub; [assumption | reflexivity]).
    subst st'. unfold mo_heap_init, NULL, sizeof_memblock.
    destruct (Z.eqb_spec zone 0); [lia |].
    destruct (Z.ltb_spec len (2 * 8 + MIN)); [lia |].
    cbn [orb]. fold L.
    rewrite (wrap_small (zone + L - 8)) by lia. fold e.
    fields. unfold GET_SIZE, IS_USED, next_of, size_of.
    subst e. loads.
    repeat first
      [ rewrite (wrap_small (L - 2 * 8)) by lia
      | rewrite (land_lnot1_even (L - 2 * 8)) by assumption
      | rewrite (land_1_even (L - 2 * 8)) by assumption
      | rewrite (wrap_small (zone + L - 8)) by lia
      | rewrite (wrap_small (zone + L - 8 + 8)) by lia ].
    change (wrap 0) with 0. change (Z.lor 0 1) with 1.
    change (wrap 1) with 1. change (Z.land 1 (Z.lnot 1)) with 0.
    change (Z.land 1 1) with 1.
    repeat split; lia.
Qed.

Lemma mo_heap_init_spec_witness :
  mo_heap_init MIN8 4096 20 blank = blank
  /\ GET_SIZE (mem (mo_heap_init MIN8 4096 33 blank)) 4096 = 20
  /\ next_of (mem (mo_heap_init MIN8 4096 33 blank)) 4096 = 4124
  /\ heap_end (mo_heap_init MIN8 4096 33 blank) = 4132.
Proof.
  split.
  - apply (mo_heap_init_spec MIN8 4096 20 blank).
    right; unfold sizeof_memblock, MIN8; lia.
  - destruct (mo_heap_init_spec MIN8 4096 33 blank) as [_ H].
    specialize (H ltac:(unfold MIN8; lia) ltac:(lia)
                  ltac:(unfold sizeof_memblock, MIN8; lia) ltac:(lia)).
    cbv zeta in H.
    destruct H as (_ & _ & _ & H1 & H2 & _ & _ & _ & _ & _ & _ & H3).
    change (ALIGN4 33) with 36 in *. unfold sizeof_memblock in *.
    repeat split; assumption.
Defined.

(** C2: the code does not keep inside the region it is given.  The length
    goes through [ALIGN4], the round-up normalisation [malloc] applies to
    sizes, where the claim rounds down.  For the 33-byte region from 4096
    to 4129, in a memory whose bytes all hold 255, [heap_end] becomes 4132
    and the terminal header is put at 4124: the first block gets 20 payload
    bytes instead of 16, and the terminal header's size word, stored at
    4128..4131, overwrites the bytes 4129, 4130 and 4131 past the end of the
    region. *)
Theorem mo_heap_init_overruns_region :
  let st' := mo_heap_init MIN8 4096 33 dirty in
  heap_end st' = 4132 /\ 4096 + 33 < heap_end st'
  /\ GET_SIZE (mem st') 4096 = 20
  /\ GET_SIZE (mem st') 4096 <> 33 / 4 * 4 - 2 * sizeof_memblock
  /\ next_of (mem st') 4096 = 4124
  /\ next_of (mem st') 4096 <> 4096 + 33 / 4 * 4 - sizeof_memblock
  /\ (mem dirty 4129 = 255 /\ mem st' 4129 = 0)
  /\ (mem dirty 4130 = 255 /\ mem st' 4130 = 0)
  /\ (mem dirty 4131 = 255 /\ mem st' 4131 = 0).
Proof.
  vm_compute. repeat split; try reflexivity; discriminate.
Qed.

(** * The code evaluated on the scenario heap *)

Ltac solve_wf :=
  constructor;
  [ vm_compute; reflexivity | vm_compute; reflexivity
  | repeat constructor; unfold size_ok; simpl; lia
  | cbn [seg fst snd]; repeat split; vm_compute; reflexivity
  | vm_compute; reflexivity | vm_compute; reflexivity
  | vm_compute; discriminate | vm_compute; reflexivity ].

Ltac solve_inv :=
  constructor; [ vm_compute; reflexivity | solve_wf | vm_compute; reflexivity ].

Lemma heap256_inv : heap_inv heap256 [(240, false)].
Proof. solve_inv. Qed.

Lemma heap256_a64_inv : heap_inv heap256_a64 [(64, true); (168, false)].
Proof. solve_inv. Qed.

(** C4: on the freshly initialised 256-byte heap, whose only free block has
    240 payload bytes, a request for 1000 bytes is within the size limits
    and finds no block; the walk then reaches the zero-size sentinel, which
    [validate_block] rejects, and the call ends in [panic] instead of
    returning null. *)
Theorem malloc_exhaustion_panics :
  heap_inv heap256 [(240, false)]
  /\ 0 < 1000 <= MAX30
  /\ is_panic (malloc MIN8 MAX30 8 1000 heap256) = true
  /\ ret_value (malloc MIN8 MAX30 8 1000 heap256) = None
  /\ validate_block MAX30 heap256 (heap_end heap256 - sizeof_memblock)
     = false.
Proof.
  split; [exact heap256_inv |].
  split; [unfold MAX30; lia |].
  repeat split; vm_compute; reflexivity.
Qed.

(** C9: [realloc]'s shrink and grow-into-next paths rewrite headers without
    having entered a critical section, and then leave one: the log gains a
    [Leave] and no [Enter]. *)
Theorem realloc_fast_paths_unbalanced :
  let shrink := realloc MIN8 MAX30 8 4104 16 heap256_a64 in
  let grow := realloc MIN8 MAX30 8 4104 100 heap256_a64 in
  crit heap256_a64 = [Leave; Enter]
  /\ ret_value shrink = Some 4104
  /\ crit (final_state shrink blank) = [Leave; Leave; Enter]
  /\ next_of (mem (final_state shrink blank)) 4096
     <> next_of (mem heap256_a64) 4096
  /\ ret_value grow = Some 4104
  /\ crit (final_state grow blank) = [Leave; Leave; Enter]
  /\ next_of (mem (final_state grow blank)) 4096
     <> next_of (mem heap256_a64) 4096.
Proof.
  vm_compute. repeat split; discriminate.
Qed.

(** C6: growing the 64-byte block at 4104 into its free successor merges
    the two and splits the result, but the merged size is stored without the
    used flag: the block handed back to the caller is now flagged free.  The
    counter says 1 free block, the list holds 2. *)
Theorem realloc_grow_miscounts :
  let grow := realloc MIN8 MAX30 8 4104 100 heap256_a64 in
  let st' := final_state grow blank in
  heap_inv heap256_a64 [(64, true); (168, false)]
  /\ free_blocks_count heap256_a64
     = measured_free 8 (mem heap256_a64) (first_free heap256_a64)
  /\ ret_value grow = Some 4104
  /\ IS_USED (mem st') 4096 = 0
  /\ free_blocks_count st' = 1
  /\ measured_free 8 (mem st') (first_free st') = 2.
Proof.
  split; [exact heap256_a64_inv |].
  vm_compute. repeat split; reflexivity.
Qed.

(** C1 as stated fails: shrinking the 64-byte block at 4104 to 16 bytes
    splits off a 40-byte free block right in front of the free 168-byte
    block; with two free blocks the sweep does not run. *)
Lemma realloc_shrink_leaves_adjacent_free :
  let shrink := realloc MIN8 MAX30 8 4104 16 heap256_a64 in
  let st' := final_state shrink blank in
  heap_inv heap256_a64 [(64, true); (168, false)]
  /\ no_adj_free [(64, true); (168, false)] = true
  /\ ret_value shrink = Some 4104
  /\ heap_inv st' [(16, true); (40, false); (168, false)]
  /\ no_adj_free [(16, true); (40, false); (168, false)] = false
  /\ free_blocks_count st' <= COALESCE_THRESHOLD.
Proof.
  split; [exact heap256_a64_inv |].
  split; [reflexivity |].
  split; [vm_compute; reflexivity |].
  split; [solve_inv |].
  split; [reflexivity | vm_compute; discriminate].
Qed.

(** * The block list: extents, segments, lookup *)

Lemma span_app l1 l2 : span (l1 ++ l2) = span l1 + span l2.
Proof. induction l1 as [| b l1 IH]; cbn [span seg block_at count_free app]; [| rewrite IH]; lia. Qed.

Lemma sizes_ok_app l1 l2 : sizes_ok (l1 ++ l2) <-> sizes_ok l1 /\ sizes_ok l2.
Proof. apply Forall_app. Qed.

Lemma sizes_ok_cons b l : sizes_ok (b :: l) <-> size_ok b /\ sizes_ok l.
Proof. apply Forall_cons_iff. Qed.

Lemma span_nonneg l : sizes_ok l -> 0 <= span l.
Proof.
  induction 1 as [| b l [Hb _] _ IH]; cbn [span seg block_at count_free app]; unfold sizeof_memblock; lia.
Qed.

Lemma span_mod4 l : sizes_ok l -> span l mod 4 = 0.
Proof.
  induction 1 as [| b l [_ Hb] _ IH]; cbn [span seg block_at count_free app]; [reflexivity |].
  unfold sizeof_memblock.
  rewrite Z.add_mod, (Z.add_mod 8), Hb, IH by lia; reflexivity.
Qed.

Lemma add_mod4 x y : x mod 4 = 0 -> y mod 4 = 0 -> (x + y) mod 4 = 0.
Proof. intros Hx Hy; rewrite Z.add_mod, Hx, Hy by lia; reflexivity. Qed.

Lemma sub_mod4 x y : x mod 4 = 0 -> y mod 4 = 0 -> (x - y) mod 4 = 0.
Proof. intros Hx Hy; rewrite Zminus_mod, Hx, Hy; reflexivity. Qed.

Lemma count_free_app l1 l2 :
  count_free (l1 ++ l2) = count_free l1 + count_free l2.
Proof. induction l1 as [| b l1 IH]; cbn [span seg block_at count_free app]; [| rewrite IH]; lia. Qed.

Lemma count_free_bound l : sizes_ok l -> 0 <= count_free l /\ 8 * count_free l <= span l.
Proof.
  induction 1 as [| b l [Hb _] _ IH]; cbn [span seg block_at count_free app]; unfold sizeof_memblock; [lia |].
  destruct (snd b); lia.
Qed.

Lemma seg_app m a l1 l2 :
  seg m a (l1 ++ l2) <-> seg m a l1 /\ seg m (a + span l1) l2.
Proof.
  revert a; induction l1 as [| b l1 IH]; intros a; cbn [span seg block_at count_free app].
  - rewrite Z.add_0_r; tauto.
  - rewrite IH.
    replace (a + sizeof_memblock + fst b + span l1)
      with (a + (sizeof_memblock + fst b + span l1)) by lia.
    tauto.
Qed.

Lemma seg_frame m m' a l :
  sizes_ok l ->
  (forall x, a <= x < a + span l -> m' x = m x) ->
  seg m a l -> seg m' a l.
Proof.
  intros Hs; revert a; induction Hs as [| b l [Hb _] Hl IH];
    intros a Hm; cbn [span seg block_at count_free app]; [trivial |].
  pose proof (span_nonneg l Hl) as Hsp.
  cbn [span] in Hm; unfold sizeof_memblock in *.
  intros (Hn & Hz & Hrest).
  unfold next_of, size_of in *.
  rewrite (load32_ext m m' a), (load32_ext m m' (a + 4))
    by (intros; apply Hm; lia).
  repeat split; try assumption.
  apply IH; [intros; apply Hm; lia | assumption].
Qed.

(** ** Lookup by header address *)

Lemma block_at_range a l h b :
  sizes_ok l -> block_at a l h = Some b ->
  a <= h /\ h + sizeof_memblock + fst b <= a + span l.
Proof.
  intros Hs; revert a; induction Hs as [| c l [Hc _] Hl IH];
    intros a; cbn [span seg block_at count_free app]; [discriminate |].
  pose proof (span_nonneg l Hl).
  unfold sizeof_memblock in *.
  destruct (Z.eqb_spec h a) as [-> | Hne].
  - intros E; inversion E; subst; lia.
  - intros E; apply IH in E; lia.
Qed.

Lemma block_at_outside a l h :
  sizes_ok l -> h < a \/ a + span l <= h -> block_at a l h = None.
Proof.
  intros Hs Ho. destruct (block_at a l h) as [b |] eqn:E; [| reflexivity].
  pose proof (block_at_range a l h b Hs E).
  assert (size_ok b) as [Hb _].
  { clear - Hs E. revert a E; induction Hs as [| c l Hc Hl IH]; intros a;
      cbn [span seg block_at count_free app]; [discriminate |].
    destruct (h =? a); [intros E; inversion E; subst; assumption | apply IH]. }
  unfold sizeof_memblock in *; lia.
Qed.

Lemma block_at_app a l1 l2 h :
  block_at a (l1 ++ l2) h =
  match block_at a l1 h with
  | Some b => Some b
  | None => block_at (a + span l1) l2 h
  end.
Proof.
  revert a; induction l1 as [| b l1 IH]; intros a; cbn [span seg block_at count_free app].
  - rewrite Z.add_0_r; reflexivity.
  - destruct (h =? a); [reflexivity |].
    rewrite IH.
    replace (a + sizeof_memblock + fst b + span l1)
      with (a + (sizeof_memblock + fst b + span l1)) by lia.
    reflexivity.
Qed.

Lemma block_at_mid a P b Q :
  sizes_ok P -> block_at a (P ++ b :: Q) (a + span P) = Some b.
Proof.
  intros HP. rewrite block_at_app.
  rewrite (block_at_outside a P (a + span P) HP) by lia.
  cbn [span seg block_at count_free app]. rewrite Z.eqb_refl; reflexivity.
Qed.

Lemma block_at_split a l h b :
  block_at a l h = Some b ->
  exists P Q, l = P ++ b :: Q /\ h = a + span P.
Proof.
  revert a; induction l as [| c l IH]; intros a; cbn [span seg block_at count_free app]; [discriminate |].
  destruct (Z.eqb_spec h a) as [-> | Hne].
  - intros E; inversion E; subst. exists [], l; cbn [span seg block_at count_free app]; split; [reflexivity | lia].
  - intros E. destruct (IH _ E) as (P & Q & -> & ->).
    exists (c :: P), Q; cbn [span seg block_at count_free app]; split; [reflexivity | lia].
Qed.

(** * Well-formed regions *)

Lemma wf_block m a0 P b Q hend :
  wf_mem m a0 (P ++ b :: Q) hend ->
  let h := a0 + span P in
  0 < a0 /\ a0 <= h /\ h mod 4 = 0 /\ 0 <= fst b /\ fst b mod 4 = 0
  /\ 0 <= span Q /\ h + 8 + fst b + span Q + 8 <= hend /\ hend < 2 ^ 32
  /\ load32 m h = h + 8 + fst b
  /\ load32 m (h + 4) = fst b + Z.b2z (snd b)
  /\ GET_SIZE m h = fst b /\ IS_USED m h = Z.b2z (snd b).
Proof.
  intros [Hpos Hal Hsz Hseg _ _ Hend Htop] h.
  apply sizes_ok_app in Hsz; destruct Hsz as [HP HbQ].
  apply sizes_ok_cons in HbQ; destruct HbQ as [[Hb0 Hb4] HQ].
  apply seg_app in Hseg; destruct Hseg as [_ Hseg].
  cbn [seg] in Hseg; destruct Hseg as (Hn & Hs & _).
  rewrite span_app in Hend; cbn [span] in Hend.
  pose proof (span_nonneg P HP). pose proof (span_nonneg Q HQ).
  pose proof (span_mod4 P HP).
  unfold sizeof_memblock, next_of, size_of in *. fold h in Hn, Hs.
  pose proof (mod4_even _ Hb4) as Hev.
  repeat split; try assumption; try lia.
  - subst h; apply add_mod4; assumption.
  - unfold GET_SIZE, size_of; rewrite Hs; apply size_of_word; assumption.
  - unfold IS_USED, size_of; rewrite Hs; apply flag_of_word; assumption.
Qed.

Lemma wf_term m a0 bs hend :
  wf_mem m a0 bs hend ->
  let e := a0 + span bs in
  0 < a0 /\ a0 <= e /\ e mod 4 = 0 /\ e + 8 <= hend /\ hend < 2 ^ 32
  /\ load32 m e = 0 /\ IS_USED m e = 1.
Proof.
  intros [Hpos Hal Hsz _ Hn Hu Hend Htop] e.
  pose proof (span_nonneg bs Hsz). pose proof (span_mod4 bs Hsz).
  unfold sizeof_memblock, next_of, NULL in *.
  repeat split; try assumption; try lia.
  subst e; apply add_mod4; assumption.
Qed.

(** Replacing a run of blocks by another run of the same extent, when memory
    only changed inside that extent. *)
Lemma wf_replace m m' a0 P mid mid' Q hend :
  wf_mem m a0 (P ++ mid ++ Q) hend ->
  sizes_ok mid' -> span mid' = span mid ->
  seg m' (a0 + span P) mid' ->
  (forall x, x < a0 + span P \/ a0 + span P + span mid <= x -> m' x = m x) ->
  wf_mem m' a0 (P ++ mid' ++ Q) hend.
Proof.
  intros [Hpos Hal Hsz Hseg Hn Hu Hend Htop] Hs' Hsp Hseg' Hfr.
  apply sizes_ok_app in Hsz; destruct Hsz as [HP HmQ].
  apply sizes_ok_app in HmQ; destruct HmQ as [Hm HQ].
  apply seg_app in Hseg; destruct Hseg as [HsP HsmQ].
  apply seg_app in HsmQ; destruct HsmQ as [_ HsQ].
  pose proof (span_nonneg P HP). pose proof (span_nonneg Q HQ).
  pose proof (span_nonneg mid Hm).
  rewrite !span_app in *.
  assert (Hterm : forall x, a0 + (span P + (span mid + span Q)) <= x ->
                            m' x = m x) by (intros; apply Hfr; lia).
  constructor; try assumption.
  - apply sizes_ok_app; split; [assumption |].
    apply sizes_ok_app; split; assumption.
  - apply seg_app; split.
    + apply (seg_frame m); [assumption | intros; apply Hfr; lia | assumption].
    + apply seg_app; split; [assumption |].
      rewrite Hsp.
      apply (seg_frame m); [assumption | intros; apply Hfr; lia | assumption].
  - rewrite !span_app, Hsp. unfold next_of in *.
    rewrite (load32_ext m m') by (intros; apply Hterm; lia). exact Hn.
  - rewrite !span_app, Hsp. unfold IS_USED, size_of in *.
    rewrite (load32_ext m m') by (intros; apply Hterm; lia). exact Hu.
  - rewrite !span_app, Hsp; assumption.
Qed.

Lemma used_kept_refl a0 bs m ex : used_kept a0 bs m bs m ex.
Proof. intros h sz Hb _; split; [assumption | reflexivity]. Qed.

Lemma used_kept_trans a0 bs m bs1 m1 bs2 m2 ex :
  used_kept a0 bs m bs1 m1 ex -> used_kept a0 bs1 m1 bs2 m2 ex ->
  used_kept a0 bs m bs2 m2 ex.
Proof.
  intros H1 H2 h sz Hb Hex.
  destruct (H1 h sz Hb Hex) as [Hb1 Hm1].
  destruct (H2 h sz Hb1 Hex) as [Hb2 Hm2].
  split; [assumption |].
  intros x Hx; rewrite Hm2, Hm1 by assumption; reflexivity.
Qed.

Lemma used_kept_replace m m' a0 P mid mid' Q ex :
  sizes_ok (P ++ mid ++ Q) -> sizes_ok mid' -> span mid' = span mid ->
  (forall x, x < a0 + span P \/ a0 + span P + span mid <= x -> m' x = m x) ->
  (forall h sz, block_at (a0 + span P) mid h = Some (sz, true) -> h = ex) ->
  used_kept a0 (P ++ mid ++ Q) m (P ++ mid' ++ Q) m' ex.
Proof.
  intros Hsz Hs' Hsp Hfr Hmid h sz Hb Hex.
  apply sizes_ok_app in Hsz; destruct Hsz as [HP HmQ].
  apply sizes_ok_app in HmQ; destruct HmQ as [Hm HQ].
  rewrite block_at_app in Hb |- *.
  destruct (block_at a0 P h) as [b |] eqn:EP.
  - inversion Hb; subst b. split; [reflexivity |].
    pose proof (block_at_range _ _ _ _ HP EP) as Hr.
    cbn [fst] in Hr; unfold sizeof_memblock in *.
    intros; apply Hfr; lia.
  - rewrite block_at_app in Hb |- *.
    destruct (block_at (a0 + span P) mid h) as [b |] eqn:EM.
    + inversion Hb; subst b. apply Hmid in EM; contradiction.
    + pose proof (block_at_range _ _ _ _ HQ Hb) as Hr.
      pose proof (span_nonneg mid Hm).
      cbn [fst] in Hr; unfold sizeof_memblock in *.
      rewrite (block_at_outside (a0 + span P) mid' h Hs') by lia.
      rewrite Hsp. split; [assumption |].
      intros; apply Hfr; lia.
Qed.

(** * Header updates on a well-formed region *)

Ltac frame_tac :=
  intros; repeat rewrite store32_other by lia; reflexivity.

(** Rewriting the size word of one header. *)
Lemma wf_set_word m a0 P b Q hend u' :
  wf_mem m a0 (P ++ b :: Q) hend ->
  let h := a0 + span P in
  let m' := store32 m (h + 4) (fst b + Z.b2z u') in
  wf_mem m' a0 (P ++ (fst b, u') :: Q) hend
  /\ (forall x, x < h \/ h + 8 <= x -> m' x = m x).
Proof.
  intros Hwf h m'.
  pose proof (wf_block _ _ _ _ _ _ Hwf) as
    (Hpos & Hh & Hh4 & Hb0 & Hb4 & HQ & Hend & Htop & Hn & Hs & Hg & Hu).
  fold h in Hh, Hh4, Hend, Hn, Hs, Hg, Hu.
  assert (Hfr : forall x, x < h \/ h + 8 <= x -> m' x = m x)
    by (subst m'; frame_tac).
  split; [| exact Hfr].
  change (P ++ (fst b, u') :: Q) with (P ++ [(fst b, u')] ++ Q).
  apply (wf_replace m m' a0 P [b] [(fst b, u')] Q hend).
  - exact Hwf.
  - repeat constructor; assumption.
  - reflexivity.
  - cbn [seg fst snd]. fold h. unfold next_of, size_of, sizeof_memblock.
    subst m'. loads. rewrite Hn.
    assert (Hbb : 0 <= Z.b2z u' <= 1) by (destruct u'; simpl; lia).
    rewrite wrap_small by lia. auto.
  - cbn [span]. unfold sizeof_memblock. fold h. intros; apply Hfr; lia.
Qed.

Lemma MARK_FREE_wf st P b Q :
  wf_mem (mem st) (heap_start st) (P ++ b :: Q) (heap_end st) ->
  let h := heap_start st + span P in
  let st' := MARK_FREE h st in
  wf_mem (mem st') (heap_start st) (P ++ (fst b, false) :: Q) (heap_end st)
  /\ (forall x, x < h \/ h + 8 <= x -> mem st' x = mem st x).
Proof.
  intros Hwf h st'.
  pose proof (wf_block _ _ _ _ _ _ Hwf) as
    (_ & _ & _ & Hb0 & Hb4 & _ & _ & _ & _ & Hs & _ & _).
  fold h in Hs.
  pose proof (wf_set_word _ _ _ _ _ _ false Hwf) as H. fold h in H.
  cbn [Z.b2z] in H. rewrite Z.add_0_r in H.
  subst st'. fields. unfold size_of. rewrite Hs.
  rewrite size_of_word by (apply mod4_even; assumption).
  exact H.
Qed.

Lemma MARK_USED_wf st P b Q :
  wf_mem (mem st) (heap_start st) (P ++ b :: Q) (heap_end st) ->
  let h := heap_start st + span P in
  let st' := MARK_USED h st in
  wf_mem (mem st') (heap_start st) (P ++ (fst b, true) :: Q) (heap_end st)
  /\ (forall x, x < h \/ h + 8 <= x -> mem st' x = mem st x).
Proof.
  intros Hwf h st'.
  pose proof (wf_block _ _ _ _ _ _ Hwf) as
    (_ & _ & _ & Hb0 & Hb4 & _ & _ & _ & _ & Hs & _ & _).
  fold h in Hs.
  pose proof (wf_set_word _ _ _ _ _ _ true Hwf) as H. fold h in H.
  cbn [Z.b2z] in H.
  subst st'. fields. unfold size_of. rewrite Hs.
  assert (E : Z.lor (fst b + Z.b2z (snd b)) 1 = fst b + 1).
  { rewrite lor_1. pose proof (mod4_even _ Hb4) as Hev.
    pose proof (Z.div_mod (fst b) 2 ltac:(lia)).
    destruct (snd b); cbn [Z.b2z].
    - replace (fst b + 1) with (1 + (fst b / 2) * 2) at 1 by lia.
      rewrite Z.div_add by lia. change (1 / 2) with 0. lia.
    - rewrite Z.add_0_r. lia. }
  rewrite E. exact H.
Qed.

(** Absorbing the successor: the merged block is written without a used
    flag. *)
Lemma absorb_next_wf st P b n Q :
  wf_mem (mem st) (heap_start st) (P ++ b :: n :: Q) (heap_end st) ->
  let h := heap_start st + span P in
  let st' := absorb_next h st in
  wf_mem (mem st') (heap_start st)
         (P ++ (fst b + 8 + fst n, false) :: Q) (heap_end st)
  /\ (forall x, x < h \/ h + 8 <= x -> mem st' x = mem st x)
  /\ same_region st st' /\ free_blocks_count st' = free_blocks_count st
  /\ crit st' = crit st.
Proof.
  intros Hwf h st'.
  pose proof (wf_block _ _ _ _ _ _ Hwf) as
    (Hpos & Hh & Hh4 & Hb0 & Hb4 & HQ & Hend & Htop & Hn & Hs & Hg & Hu).
  fold h in Hh, Hh4, Hend, Hn, Hs, Hg, Hu.
  assert (Hwf2 := Hwf).
  change (P ++ b :: n :: Q) with (P ++ [b] ++ n :: Q) in Hwf2.
  rewrite app_assoc in Hwf2.
  pose proof (wf_block _ _ _ _ _ _ Hwf2) as
    (_ & _ & _ & Hn0 & Hn4 & HQ2 & Hend2 & _ & Hnn & Hns & Hng & Hnu).
  rewrite span_app in Hend2, Hnn, Hns, Hng, Hnu.
  cbn [span] in Hend2, Hnn, Hns, Hng, Hnu, HQ, Hend.
  unfold sizeof_memblock in *.
  replace (heap_start st + (span P + (8 + fst b + 0))) with (h + 8 + fst b)
    in * by (subst h; lia).
  assert (Hst' : mem st' =
                 store32 (store32 (mem st) (h + 4) (fst b + 8 + fst n))
                         h (h + 8 + fst b + 8 + fst n)).
  { subst st'. unfold absorb_next. fields. unfold next_of, sizeof_memblock.
    rewrite Hg, Hn, Hng.
    rewrite (wrap_small (fst b + 8 + fst n)) by lia.
    loads. rewrite Hn, Hnn. reflexivity. }
  assert (Hfr : forall x, x < h \/ h + 8 <= x -> mem st' x = mem st x)
    by (rewrite Hst'; frame_tac).
  split; [| split; [exact Hfr | repeat split]].
  change (P ++ b :: n :: Q) with (P ++ [b; n] ++ Q) in Hwf.
  change (P ++ (fst b + 8 + fst n, false) :: Q)
    with (P ++ [(fst b + 8 + fst n, false)] ++ Q).
  apply (wf_replace (mem st) (mem st') _ P [b; n] _ Q _ Hwf).
  - repeat constructor; cbn [fst]; [lia |].
    apply add_mod4; [apply add_mod4; [assumption | reflexivity] | assumption].
  - cbn [span fst]. unfold sizeof_memblock. lia.
  - cbn [seg fst snd Z.b2z]. fold h.
    unfold next_of, size_of, sizeof_memblock. rewrite Hst'. loads.
    rewrite !wrap_small by lia. repeat split; lia.
  - cbn [span]. unfold sizeof_memblock. fold h. intros; apply Hfr; lia.
Qed.

Lemma split_block_wf MIN st P sz u Q size :
  wf_mem (mem st) (heap_start st) (P ++ (sz, u) :: Q) (heap_end st) ->
  0 <= MIN -> 0 <= size <= sz -> size mod 4 = 0 ->
  let h := heap_start st + span P in
  exists st',
    split_block MIN h size st = Ret tt st'
    /\ same_region st st' /\ crit st' = crit st
    /\ wf_mem (mem st') (heap_start st)
              (P ++ split_list MIN sz u size ++ Q) (heap_end st)
    /\ (forall x, x < h \/ h + 8 + sz <= x -> mem st' x = mem st x)
    /\ free_blocks_count st' =
       (if sz - size <? 8 + MIN then free_blocks_count st
        else wrap (free_blocks_count st + 1))
    /\ (forall x, h + 8 <= x < h + 8 + size -> mem st' x = mem st x).
Proof.
  intros Hwf HM Hsize Hs4 h.
  pose proof (wf_block _ _ _ _ _ _ Hwf) as
    (Hpos & Hh & Hh4 & Hb0 & Hb4 & HQ & Hend & Htop & Hn & Hs & Hg & Hu).
  fold h in Hh, Hh4, Hend, Hn, Hs, Hg, Hu. cbn [fst snd] in *.
  unfold split_block, split_list, sizeof_memblock. rewrite Hg.
  destruct (Z.gtb_spec size sz); [lia |].
  destruct (Z.ltb_spec (sz - size) (8 + MIN)).
  - exists st.
    split; [reflexivity |]. split; [repeat split |].
    split; [reflexivity |]. split; [exact Hwf |].
    split; [intros; reflexivity |].
    split; [reflexivity | intros; reflexivity].
  - eexists; split; [reflexivity |].
    fields. unfold next_of, size_of.
    rewrite (wrap_small (h + 8 + size)) by lia.
    rewrite (wrap_small (sz - size - 8)) by lia.
    loads.
    rewrite (wrap_small (sz - size - 8)) by lia.
    pose proof (mod4_even _ Hs4) as Hse. pose proof (mod4_even _ Hb4) as Hbe.
    assert (Hr4 : (sz - size - 8) mod 4 = 0)
      by (apply sub_mod4; [apply sub_mod4; assumption | reflexivity]).
    rewrite (land_lnot1_even (sz - size - 8)) by (apply mod4_even; assumption).
    unfold IS_USED, size_of. loads. rewrite Hs, Hn.
    rewrite flag_of_word by assumption.
    rewrite lor_bit by (assumption || lia).
    set (m' := store32 _ (h + 4) _).
    assert (Hfr : forall x, x < h \/ h + 8 + sz <= x -> m' x = mem st x)
      by (subst m'; frame_tac).
    assert (Hpay : forall x, h + 8 <= x < h + 8 + size -> m' x = mem st x)
      by (subst m'; frame_tac).
    split; [repeat split |]. split; [reflexivity |].
    split; [| split; [exact Hfr | split; [reflexivity | exact Hpay]]].
    change (P ++ (sz, u) :: Q) with (P ++ [(sz, u)] ++ Q) in Hwf.
    apply (wf_replace (mem st) m' _ P [(sz, u)] _ Q _ Hwf).
    + repeat constructor; cbn [fst]; try assumption; lia.
    + cbn [span fst]. unfold sizeof_memblock. lia.
    + cbn [seg fst snd Z.b2z]. fold h.
      unfold next_of, size_of, sizeof_memblock. subst m'. loads.
      assert (0 <= Z.b2z u <= 1) by (destruct u; simpl; lia).
      pose proof (load32_range (mem st) h).
      rewrite !wrap_small by lia.
      repeat split; lia.
    + cbn [span fst]. unfold sizeof_memblock. fold h.
      intros; apply Hfr; lia.
Qed.

Lemma validate_block_wf MAX st P b Q :
  wf_mem (mem st) (heap_start st) (P ++ b :: Q) (heap_end st) ->
  validate_block MAX st (heap_start st + span P)
  = negb ((fst b =? 0) || (fst b >? MAX)).
Proof.
  intros Hwf.
  pose proof (wf_block _ _ _ _ _ _ Hwf) as
    (Hpos & Hh & Hh4 & Hb0 & Hb4 & HQ & Hend & Htop & Hn & Hs & Hg & Hu).
  cbv zeta in *. set (h := heap_start st + span P) in *.
  unfold validate_block, IS_VALID_BLOCK, sizeof_size_t, sizeof_memblock,
    next_of, NULL.
  rewrite Hg, Hn, Hh4.
  destruct (Z.leb_spec (heap_start st) h); [| lia].
  destruct (Z.ltb_spec h (heap_end st)); [| lia].
  cbn [andb negb Z.eqb].
  destruct ((fst b =? 0) || (fst b >? MAX)); [reflexivity |].
  rewrite wrap_small by lia.
  destruct (Z.gtb_spec (h + 8 + fst b) (heap_end st)); [lia |].
  destruct (Z.eqb_spec (h + 8 + fst b) 0); [lia |].
  rewrite Z.eqb_refl. reflexivity.
Qed.

Lemma last_addr_snoc prev a P b :
  last_addr prev a (P ++ [b]) = a + span P.
Proof.
  revert prev a; induction P as [| c P IH]; intros prev a; cbn [app last_addr span].
  - lia.
  - rewrite IH. lia.
Qed.

Lemma find_prev_seg m P :
  sizes_ok P ->
  forall fuel prev a,
    seg m a P -> 0 < a -> (length P < fuel)%nat ->
    find_prev fuel m prev a (a + span P) = Some (last_addr prev a P).
Proof.
  induction 1 as [| b P [Hb _] HP IH]; intros fuel prev a Hseg Ha Hf;
    (destruct fuel as [| fuel]; [cbn [length] in Hf; lia |]);
    cbn [find_prev last_addr span].
  - rewrite Z.add_0_r, Z.eqb_refl, andb_false_r. reflexivity.
  - pose proof (span_nonneg P HP).
    cbn [seg] in Hseg. destruct Hseg as (Hn & _ & Hrest).
    unfold NULL, sizeof_memblock in *.
    destruct (Z.eqb_spec a 0); [lia |].
    destruct (Z.eqb_spec a (a + (8 + fst b + span P))); [lia |].
    cbn [negb andb]. rewrite Hn.
    replace (a + (8 + fst b + span P)) with (a + 8 + fst b + span P) by lia.
    apply IH; [assumption | lia | cbn [length] in Hf; lia].
Qed.

(** * The sweep and the first-fit search on a well-formed heap *)

Lemma same_region_refl st : same_region st st.
Proof. repeat split. Qed.

Lemma same_region_trans st1 st2 st3 :
  same_region st1 st2 -> same_region st2 st3 -> same_region st1 st3.
Proof.
  intros (A1 & A2 & A3) (B1 & B2 & B3).
  repeat split; congruence.
Qed.

Lemma region_kept_refl a0 bs m : region_kept a0 bs m bs m.
Proof. split; [reflexivity | intros; reflexivity]. Qed.

Lemma region_kept_trans a0 bs m bs1 m1 bs2 m2 :
  region_kept a0 bs m bs1 m1 -> region_kept a0 bs1 m1 bs2 m2 ->
  region_kept a0 bs m bs2 m2.
Proof.
  intros [S1 F1] [S2 F2]. split; [congruence |].
  intros x Hx. rewrite F2, F1; [reflexivity | exact Hx | rewrite S1; exact Hx].
Qed.

Lemma region_kept_replace m m' a0 P mid mid' Q :
  sizes_ok Q -> span mid' = span mid ->
  (forall x, x < a0 + span P \/ a0 + span P + span mid <= x -> m' x = m x) ->
  sizes_ok P ->
  region_kept a0 (P ++ mid ++ Q) m (P ++ mid' ++ Q) m'.
Proof.
  intros HQ Hsp Hfr HP.
  pose proof (span_nonneg P HP). pose proof (span_nonneg Q HQ).
  split; [rewrite !span_app, Hsp; reflexivity |].
  rewrite !span_app. intros; apply Hfr; lia.
Qed.

Lemma evolves_refl st bs ex : heap_inv st bs -> evolves st bs st bs ex.
Proof.
  intros H; split; [apply same_region_refl |].
  split; [exact H |]. split; [apply used_kept_refl | apply region_kept_refl].
Qed.

Lemma evolves_trans st bs st1 bs1 st2 bs2 ex :
  evolves st bs st1 bs1 ex -> evolves st1 bs1 st2 bs2 ex ->
  evolves st bs st2 bs2 ex.
Proof.
  intros (R1 & I1 & K1 & G1) (R2 & I2 & K2 & G2).
  split; [eapply same_region_trans; eassumption |].
  split; [exact I2 |].
  destruct R1 as (_ & E & _). rewrite E in K2, G2.
  split; [eapply used_kept_trans; eassumption
         | eapply region_kept_trans; eassumption].
Qed.

Lemma count_range m a0 bs hend :
  wf_mem m a0 bs hend -> 0 <= count_free bs /\ count_free bs + 1 < 2 ^ 32.
Proof.
  intros [Hpos _ Hsz _ _ _ Hend Htop].
  pose proof (count_free_bound bs Hsz). unfold sizeof_memblock in *. lia.
Qed.

Lemma absorb_used_kept st P b n Q ex :
  wf_mem (mem st) (heap_start st) (P ++ b :: n :: Q) (heap_end st) ->
  snd b = false -> snd n = false ->
  used_kept (heap_start st) (P ++ b :: n :: Q) (mem st)
            (P ++ (fst b + 8 + fst n, false) :: Q)
            (mem (absorb_next (heap_start st + span P) st)) ex.
Proof.
  intros Hwf Hb Hn.
  destruct (absorb_next_wf st P b n Q Hwf) as (Hwf' & Hfr & _).
  change (P ++ b :: n :: Q) with (P ++ [b; n] ++ Q).
  change (P ++ (fst b + 8 + fst n, false) :: Q)
    with (P ++ [(fst b + 8 + fst n, false)] ++ Q).
  apply used_kept_replace.
  - apply (wf_sizes _ _ _ _ Hwf).
  - pose proof (wf_sizes _ _ _ _ Hwf') as Hs.
    apply sizes_ok_app in Hs. destruct Hs as [_ Hs].
    apply sizes_ok_cons in Hs. destruct Hs as [Hs _].
    repeat constructor; apply Hs.
  - cbn [span fst]. unfold sizeof_memblock. lia.
  - pose proof (wf_sizes _ _ _ _ Hwf) as Hs.
    apply sizes_ok_app in Hs. destruct Hs as [_ Hs].
    apply sizes_ok_cons in Hs. destruct Hs as [[Hb0 _] Hs].
    apply sizes_ok_cons in Hs. destruct Hs as [[Hn0 _] _].
    cbn [span]. unfold sizeof_memblock. intros; apply Hfr; lia.
  - intros h sz. cbn [block_at].
    destruct (h =? _).
    + intros E; inversion E; subst b; discriminate Hb.
    + destruct (h =? _); [| discriminate].
      intros E; inversion E; subst n; discriminate Hn.
Qed.

Lemma merge_step st P b n Q ex c' :
  heap_inv st (P ++ b :: n :: Q) ->
  snd b = false -> snd n = false ->
  c' = count_free (P ++ (fst b + 8 + fst n, false) :: Q) ->
  evolves st (P ++ b :: n :: Q)
          (set_count c' (absorb_next (heap_start st + span P) st))
          (P ++ (fst b + 8 + fst n, false) :: Q) ex
  /\ crit (set_count c' (absorb_next (heap_start st + span P) st)) = crit st.
Proof.
  intros [Hf Hwf Hc] Hb Hn Hc'.
  destruct (absorb_next_wf st P b n Q Hwf) as (Hwf' & Hfr & Hreg & _ & Hcr).
  destruct Hreg as (R1 & R2 & R3).
  split; [| proj; exact Hcr].
  split; [split; [| split]; proj; assumption |].
  split.
  - constructor; proj.
    + congruence.
    + rewrite R2, R3. exact Hwf'.
    + exact Hc'.
  - proj. split; [exact (absorb_used_kept st P b n Q ex Hwf Hb Hn) |].
    pose proof (wf_sizes _ _ _ _ Hwf) as Hsz.
    apply sizes_ok_app in Hsz. destruct Hsz as [HsP HsQ].
    apply sizes_ok_cons in HsQ. destruct HsQ as [[Hb0 _] HsQ].
    apply sizes_ok_cons in HsQ. destruct HsQ as [[Hn0 _] HsQ].
    change (P ++ b :: n :: Q) with (P ++ [b; n] ++ Q).
    change (P ++ (fst b + 8 + fst n, false) :: Q)
      with (P ++ [(fst b + 8 + fst n, false)] ++ Q).
    apply region_kept_replace; [exact HsQ | | | exact HsP].
    + cbn [span fst]. unfold sizeof_memblock. lia.
    + cbn [span]. unfold sizeof_memblock. intros; apply Hfr; lia.
Qed.

Lemma wf_succ m a0 P b Q hend :
  wf_mem m a0 (P ++ b :: Q) hend ->
  let n := a0 + span P + 8 + fst b in
  0 < n /\ n = a0 + span (P ++ [b])
  /\ IS_USED m n = match Q with [] => 1 | c :: _ => Z.b2z (snd c) end
  /\ next_of m n = match Q with [] => 0 | c :: _ => n + 8 + fst c end
  /\ GET_SIZE m n = match Q with [] => GET_SIZE m n | c :: _ => fst c end.
Proof.
  intros Hwf n.
  pose proof (wf_block _ _ _ _ _ _ Hwf) as
    (Hpos & Hh & Hh4 & Hb0 & Hb4 & HQ & Hend & Htop & Hn & Hs & Hg & Hu).
  assert (En : n = a0 + span (P ++ [b])).
  { rewrite span_app. cbn [span]. unfold sizeof_memblock. subst n. lia. }
  split; [subst n; lia |]. split; [exact En |].
  destruct Q as [| c Q].
  - pose proof (wf_term _ _ _ _ Hwf) as (_ & _ & _ & _ & _ & Tn & Tu).
    rewrite <- En in Tn, Tu. unfold next_of. auto.
  - assert (Hwf2 := Hwf).
    change (P ++ b :: c :: Q) with (P ++ [b] ++ c :: Q) in Hwf2.
    rewrite app_assoc in Hwf2.
    pose proof (wf_block _ _ _ _ _ _ Hwf2) as
      (_ & _ & _ & _ & _ & _ & _ & _ & Hn2 & _ & Hg2 & Hu2).
    rewrite <- En in Hn2, Hg2, Hu2. unfold next_of. auto.
Qed.

Lemma nz_eqb x : 0 < x -> (x =? NULL) = false.
Proof. intros; unfold NULL; apply Z.eqb_neq; lia. Qed.

Lemma b2z_eqb0 u : (Z.b2z u =? 0) = negb u.
Proof. destruct u; reflexivity. Qed.

Lemma evolves_start st bs st' bs' ex :
  evolves st bs st' bs' ex -> heap_start st' = heap_start st.
Proof. intros ((_ & E & _) & _); exact E. Qed.

Lemma coalesce_loop_eq MAX fuel p st :
  coalesce_loop MAX (S fuel) p st =
  if negb (p =? NULL) && negb (next_of (mem st) p =? NULL)
  then
    if negb (validate_block MAX st p) then Panic st
    else if (IS_USED (mem st) p =? 0)
            && (IS_USED (mem st) (next_of (mem st) p) =? 0)
    then coalesce_loop MAX fuel p
           (set_count (wrap (free_blocks_count st - 1)) (absorb_next p st))
    else coalesce_loop MAX fuel (next_of (mem st) p) st
  else Ret tt st.
Proof. reflexivity. Qed.

Lemma coalesce_loop_spec MAX :
  forall Q b P st fuel,
    heap_inv st (P ++ b :: Q) -> (length Q + 2 <= fuel)%nat ->
    match coalesce_loop MAX fuel (heap_start st + span P) st with
    | Ret _ st' =>
        evolves st (P ++ b :: Q) st' (P ++ sweep b Q) 0
        /\ crit st' = crit st
    | Panic _ =>
        Exists (fun c => fst c = 0) (b :: Q) \/ MAX + 8 < span (b :: Q)
    | Timeout => False
    end.
Proof.
  induction Q as [| n Q IH]; intros b P st fuel Hinv Hfuel;
    (destruct fuel as [| fuel]; [cbn [length] in Hfuel; lia |]);
    rewrite coalesce_loop_eq;
    pose proof (hi_wf _ _ Hinv) as Hwf;
    pose proof (wf_block _ _ _ _ _ _ Hwf) as
      (Hpos & Hh & Hh4 & Hb0 & Hb4 & HQ & Hend & Htop & Hn & Hs & Hg & Hu);
    pose proof (wf_succ _ _ _ _ _ _ Hwf) as (Hn0 & En & Su & Sn & _);
    pose proof (validate_block_wf MAX st P b _ Hwf) as Hv;
    cbv zeta in *; set (h := heap_start st + span P) in *;
    unfold next_of in *; rewrite Hn, Hu, Su;
    rewrite (nz_eqb h) by lia; rewrite (nz_eqb (h + 8 + fst b)) by lia;
    cbn [negb andb];
    rewrite Hv;
    (destruct (negb ((fst b =? 0) || (fst b >? MAX))) eqn:Hvb; cbn [negb];
     [| apply negb_false_iff, orb_true_iff in Hvb;
        pose proof (span_nonneg _ (proj2 (proj1 (sizes_ok_cons _ _)
          (proj2 (proj1 (sizes_ok_app _ _) (wf_sizes _ _ _ _ Hwf))))));
        cbn [span] in *; unfold sizeof_memblock in *;
        destruct Hvb as [Hz | Hz];
        [ left; apply Exists_cons_hd; apply Z.eqb_eq in Hz; exact Hz
        | right; destruct (Z.gtb_spec (fst b) MAX); [lia | discriminate] ] ]).
  - (* last block: the successor is the terminal header *)
    change (1 =? 0) with false. rewrite andb_false_r.
    destruct fuel as [| fuel]; [cbn [length] in Hfuel; lia |].
    rewrite coalesce_loop_eq. unfold next_of. rewrite Sn.
    change (0 =? NULL) with true. rewrite andb_false_r.
    split; [apply evolves_refl; exact Hinv | reflexivity].
  - assert (Hnn0 : 0 <= fst n).
    { pose proof (wf_sizes _ _ _ _ Hwf) as Hz.
      apply sizes_ok_app in Hz. destruct Hz as [_ Hz].
      apply sizes_ok_cons in Hz. destruct Hz as [_ Hz].
      apply sizes_ok_cons in Hz. destruct Hz as [[Hz _] _]. exact Hz. }
    rewrite !b2z_eqb0. cbn [sweep].
    destruct (negb (snd b) && negb (snd n)) eqn:E.
    + apply andb_true_iff in E. destruct E as [Eb En'].
      apply negb_true_iff in Eb, En'.
      pose proof (count_range _ _ _ _ Hwf) as Hcr.
      pose proof (hi_count _ _ Hinv) as Hc.
      assert (Hc' : wrap (free_blocks_count st - 1)
                    = count_free (P ++ (fst b + 8 + fst n, false) :: Q)).
      { rewrite Hc, !count_free_app in *. cbn [count_free snd] in *.
        rewrite Eb, En' in *.
        pose proof (count_free_bound P
                      (proj1 (proj1 (sizes_ok_app _ _) (wf_sizes _ _ _ _ Hwf)))).
        assert (0 <= count_free Q).
        { pose proof (proj2 (proj1 (sizes_ok_app _ _) (wf_sizes _ _ _ _ Hwf))) as H1.
          apply sizes_ok_cons in H1; destruct H1 as [_ H1].
          apply sizes_ok_cons in H1; destruct H1 as [_ H1].
          apply (count_free_bound Q H1). }
        rewrite wrap_small by lia. lia. }
      destruct (merge_step st P b n Q 0 _ Hinv Eb En' Hc') as [Hev Hcrit].
      set (st1 := set_count _ _) in *.
      pose proof (evolves_start _ _ _ _ _ Hev) as Hst.
      destruct Hev as (Hreg & Hinv1 & Hk).
      specialize (IH (fst b + 8 + fst n, false) P st1 fuel Hinv1
                     ltac:(cbn [length] in Hfuel; lia)).
      rewrite Hst in IH. fold h in IH.
      unfold sizeof_memblock.
      destruct (coalesce_loop MAX fuel h st1) as [[] st' | st' |];
        [| | exact IH].
      2:{ cbn [span fst] in IH |- *. unfold sizeof_memblock in *.
          destruct IH as [IH | IH]; [left | right; lia].
          apply Exists_cons in IH. cbn [fst] in IH.
          destruct IH as [IH | IH]; [lia |].
          apply Exists_cons_tl, Exists_cons_tl. exact IH. }
      destruct IH as [Hev2 Hcr2].
      split; [| congruence].
      eapply evolves_trans; [| exact Hev2].
      split; [exact Hreg |]. split; [exact Hinv1 | exact Hk].
    + assert (Hinv2 := Hinv).
      change (P ++ b :: n :: Q) with (P ++ [b] ++ n :: Q) in Hinv2.
      rewrite app_assoc in Hinv2.
      specialize (IH n (P ++ [b]) st fuel Hinv2
                     ltac:(cbn [length] in Hfuel; lia)).
      rewrite <- En in IH.
      destruct (coalesce_loop MAX fuel (h + 8 + fst b) st) as [[] st' | st' |];
        [| | exact IH].
      2:{ cbn [span] in IH |- *. unfold sizeof_memblock in *.
          destruct IH as [IH | IH]; [left | right; lia].
          apply Exists_cons_tl. exact IH. }
      rewrite <- !app_assoc in IH. exact IH.
Qed.

(** * Adjacency of free blocks at the list level *)

Lemma naf_cons b l :
  no_adj_free (b :: l) = (snd b || hd_used l) && no_adj_free l.
Proof. destruct l; cbn [no_adj_free hd_used]; [rewrite orb_true_r |]; reflexivity. Qed.

Lemma last_used_cons b c l : last_used (b :: c :: l) = last_used (c :: l).
Proof. reflexivity. Qed.

Lemma naf_app l1 l2 :
  no_adj_free (l1 ++ l2)
  = no_adj_free l1 && no_adj_free l2 && (last_used l1 || hd_used l2).
Proof.
  induction l1 as [| b l1 IH].
  - cbn [app no_adj_free last_used andb orb]. rewrite andb_true_r. reflexivity.
  - cbn [app]. rewrite !naf_cons, IH.
    destruct l1 as [| c l1].
    + cbn [app hd_used last_used no_adj_free].
      destruct (snd b), (hd_used l2), (no_adj_free l2); reflexivity.
    + cbn [app hd_used]. rewrite last_used_cons.
      destruct (snd b), (snd c), (no_adj_free (c :: l1)), (no_adj_free l2),
        (last_used (c :: l1)), (hd_used l2); reflexivity.
Qed.

Lemma hd_used_sweep b Q : hd_used (sweep b Q) = snd b.
Proof.
  revert b; induction Q as [| n Q IH]; intros b; cbn [sweep]; [reflexivity |].
  destruct (negb (snd b) && negb (snd n)) eqn:E; [| reflexivity].
  rewrite IH. cbn [snd]. apply andb_true_iff in E. destruct E as [E _].
  apply negb_true_iff in E. symmetry; exact E.
Qed.

Lemma naf_sweep b Q : no_adj_free (sweep b Q) = true.
Proof.
  revert b; induction Q as [| n Q IH]; intros b; cbn [sweep]; [reflexivity |].
  destruct (negb (snd b) && negb (snd n)) eqn:E; [apply IH |].
  rewrite naf_cons, hd_used_sweep, IH, andb_true_r.
  destruct (snd b), (snd n); try reflexivity; discriminate E.
Qed.

Lemma sweep_id b Q : no_adj_free (b :: Q) = true -> sweep b Q = b :: Q.
Proof.
  revert b; induction Q as [| n Q IH]; intros b H; cbn [sweep]; [reflexivity |].
  rewrite naf_cons in H. cbn [hd_used] in H.
  apply andb_true_iff in H. destruct H as [H1 H2].
  destruct (negb (snd b) && negb (snd n)) eqn:E.
  - destruct (snd b), (snd n); discriminate.
  - rewrite (IH n H2). reflexivity.
Qed.

Lemma sweep_all_id l : no_adj_free l = true -> sweep_all l = l.
Proof. destruct l; [reflexivity | apply sweep_id]. Qed.

Lemma naf_sweep_all l : no_adj_free (sweep_all l) = true.
Proof. destruct l; [reflexivity | apply naf_sweep]. Qed.

Lemma span_sweep b Q : span (sweep b Q) = span (b :: Q).
Proof.
  revert b; induction Q as [| n Q IH]; intros b; cbn [sweep]; [reflexivity |].
  destruct (negb (snd b) && negb (snd n)).
  - rewrite IH. cbn [span fst]. unfold sizeof_memblock. lia.
  - cbn [span]. rewrite IH. cbn [span]. reflexivity.
Qed.

Lemma length_sweep b Q : (length (sweep b Q) <= length (b :: Q))%nat.
Proof.
  revert b; induction Q as [| n Q IH]; intros b; cbn [sweep]; [cbn; lia |].
  destruct (negb (snd b) && negb (snd n)).
  - specialize (IH (fst b + sizeof_memblock + fst n, false)).
    cbn [length] in *. lia.
  - specialize (IH n). cbn [length] in *. lia.
Qed.

Lemma length_sweep_all l : (length (sweep_all l) <= length l)%nat.
Proof. destruct l; [cbn; lia | apply length_sweep]. Qed.

(** Allocation out of a free block keeps the invariant. *)
Lemma naf_alloc MIN P sz size Q :
  no_adj_free (P ++ (sz, false) :: Q) = true ->
  no_adj_free (P ++ split_list MIN sz true size ++ Q) = true.
Proof.
  rewrite !naf_app, naf_cons. unfold split_list.
  destruct (sz - size <? sizeof_memblock + MIN);
    cbn [app]; rewrite ?naf_cons; cbn [snd hd_used];
    destruct (no_adj_free P), (last_used P), (hd_used Q), (no_adj_free Q);
    cbn; intros; try discriminate; reflexivity.
Qed.

(** ** [free] at the list level *)

Lemma bwd_merge_nil l : bwd_merge [] l = l.
Proof. reflexivity. Qed.

Lemma bwd_merge_snoc P bp b Q :
  bwd_merge (P ++ [bp]) (b :: Q)
  = if snd bp then P ++ bp :: b :: Q
    else P ++ (fst bp + sizeof_memblock + fst b, false) :: Q.
Proof.
  induction P as [| c P IH].
  - cbn [app bwd_merge]. destruct (snd bp); reflexivity.
  - cbn [app]. destruct P as [| d P].
    + cbn [app bwd_merge]. destruct (snd bp); reflexivity.
    + cbn [app] in *.
      change (bwd_merge (c :: d :: P ++ [bp]) (b :: Q))
        with (c :: bwd_merge (d :: P ++ [bp]) (b :: Q)).
      rewrite IH. destruct (snd bp); reflexivity.
Qed.

Lemma list_snoc_cases (A : Type) (l : list A) :
  l = [] \/ exists l' x, l = l' ++ [x].
Proof.
  destruct l as [| a l]; [left; reflexivity | right].
  destruct (@exists_last A (a :: l)) as (l' & x & E); [discriminate |].
  exists l', x. exact E.
Qed.

Lemma last_used_snoc P b : last_used (P ++ [b]) = snd b.
Proof.
  induction P as [| c P IH]; [reflexivity |].
  destruct P as [| d P]; [reflexivity |].
  cbn [app] in *. rewrite last_used_cons. exact IH.
Qed.

Ltac bool_atoms :=
  repeat match goal with
         | |- context [no_adj_free ?l] =>
             is_var l; destruct (no_adj_free l)
         | |- context [last_used ?l] => is_var l; destruct (last_used l)
         | |- context [hd_used ?l] => is_var l; destruct (hd_used l)
         | |- context [snd ?b] => is_var b; destruct (snd b)
         end.

(** Freeing a block of a list without adjacent free blocks gives a list
    without adjacent free blocks. *)
Lemma naf_free P s Q :
  no_adj_free (P ++ (s, true) :: Q) = true ->
  no_adj_free (free_list P s Q) = true.
Proof.
  unfold free_list, fwd_merge.
  destruct (list_snoc_cases _ P) as [-> | (P' & bp & ->)];
    destruct Q as [| n Q].
  - reflexivity.
  - cbn [app bwd_merge]. rewrite !naf_cons. cbn [snd hd_used].
    destruct (snd n) eqn:En; rewrite ?naf_cons; cbn [snd hd_used];
      rewrite ?En; bool_atoms; cbn; intros; try discriminate; reflexivity.
  - rewrite bwd_merge_snoc.
    rewrite <- app_assoc. cbn [app]. rewrite !naf_app, !naf_cons.
    cbn [snd hd_used no_adj_free].
    destruct (snd bp) eqn:Eb; rewrite ?naf_app, ?naf_cons;
      cbn [snd hd_used no_adj_free]; rewrite ?Eb;
      bool_atoms; cbn; intros; try discriminate; reflexivity.
  - rewrite <- app_assoc. cbn [app]. rewrite !naf_app, !naf_cons.
    cbn [snd hd_used].
    destruct (snd n) eqn:En; rewrite bwd_merge_snoc;
      destruct (snd bp) eqn:Eb; rewrite ?naf_app, ?naf_cons;
      cbn [snd hd_used]; rewrite ?Eb, ?En;
      bool_atoms; cbn; intros; try discriminate; reflexivity.
Qed.

(** ** Sizes under the sweep *)

Lemma size_le_span l :
  sizes_ok l -> Forall (fun b => 8 + fst b <= span l) l.
Proof.
  induction 1 as [| b l [Hb _] Hl IH]; [constructor |].
  pose proof (span_nonneg l Hl).
  cbn [span]. unfold sizeof_memblock. constructor; [lia |].
  eapply Forall_impl; [| exact IH]. cbv beta. intros c Hc. lia.
Qed.

Lemma sweep_pos b Q :
  0 < fst b -> Forall (fun c => 0 < fst c) Q ->
  Forall (fun c => 0 < fst c) (sweep b Q).
Proof.
  revert b; induction Q as [| n Q IH]; intros b Hb HQ; cbn [sweep].
  - constructor; [exact Hb | constructor].
  - apply Forall_cons_iff in HQ. destruct HQ as [Hn HQ].
    destruct (negb (snd b) && negb (snd n)).
    + apply IH; [cbn [fst]; unfold sizeof_memblock; lia | exact HQ].
    + constructor; [exact Hb | apply IH; assumption].
Qed.

Lemma sweep_all_pos l :
  Forall (fun c => 0 < fst c) l -> Forall (fun c => 0 < fst c) (sweep_all l).
Proof.
  destruct l as [| b Q]; [trivial |]. intros H.
  apply Forall_cons_iff in H. destruct H as [Hb HQ].
  apply sweep_pos; assumption.
Qed.

Lemma sweep_fits n b Q :
  sizes_ok (b :: Q) -> Exists (fits n) (b :: Q) -> Exists (fits n) (sweep b Q).
Proof.
  revert b; induction Q as [| c Q IH]; intros b Hs Hex; cbn [sweep];
    [exact Hex |].
  apply sizes_ok_cons in Hs. destruct Hs as [[Hb0 Hb4] Hs].
  assert (Hs' := Hs).
  apply sizes_ok_cons in Hs'. destruct Hs' as [[Hc0 Hc4] HsQ].
  destruct (negb (snd b) && negb (snd c)) eqn:E.
  - apply andb_true_iff in E. destruct E as [Eb Ec].
    apply negb_true_iff in Eb, Ec.
    apply IH.
    + apply sizes_ok_cons. split; [| exact HsQ].
      split; cbn [fst]; unfold sizeof_memblock; [lia |].
      apply add_mod4; [apply add_mod4; [exact Hb4 | reflexivity] | exact Hc4].
    + apply Exists_cons in Hex. destruct Hex as [[_ Hf] | Hex].
      * apply Exists_cons_hd. split; cbn [fst snd];
          [reflexivity | unfold sizeof_memblock; lia].
      * apply Exists_cons in Hex. destruct Hex as [[_ Hf] | Hex].
        -- apply Exists_cons_hd. split; cbn [fst snd];
             [reflexivity | unfold sizeof_memblock; lia].
        -- apply Exists_cons_tl. exact Hex.
  - apply Exists_cons in Hex. destruct Hex as [Hf | Hex].
    + apply Exists_cons_hd. exact Hf.
    + apply Exists_cons_tl. apply IH; assumption.
Qed.

Lemma sweep_all_fits n l :
  sizes_ok l -> Exists (fits n) l -> Exists (fits n) (sweep_all l).
Proof.
  destruct l as [| b Q]; [intros _ H; exact H | apply sweep_fits].
Qed.

(** Freeing the block [malloc] has just carved restores the list. *)
Lemma free_list_alloc_id MIN Q1 sz n Q2 s' tl :
  no_adj_free (Q1 ++ (sz, false) :: Q2) = true ->
  split_list MIN sz true n = (s', true) :: tl ->
  free_list Q1 s' (tl ++ Q2) = Q1 ++ (sz, false) :: Q2.
Proof.
  intros Hnaf Hsl.
  rewrite naf_app, naf_cons in Hnaf. cbn [snd hd_used orb] in Hnaf.
  apply andb_true_iff in Hnaf. destruct Hnaf as [Hnaf HlQ1].
  apply andb_true_iff in Hnaf. destruct Hnaf as [_ Hnaf].
  apply andb_true_iff in Hnaf. destruct Hnaf as [HhQ2 _].
  rewrite orb_false_r in HlQ1.
  assert (Efwd : fwd_merge s' (tl ++ Q2) = (sz, false) :: Q2).
  { unfold split_list in Hsl.
    destruct (sz - n <? sizeof_memblock + MIN); inversion Hsl; subst.
    - cbn [app]. unfold fwd_merge. destruct Q2 as [| c Q2]; [reflexivity |].
      cbn [hd_used] in HhQ2. rewrite HhQ2. reflexivity.
    - cbn [app fwd_merge snd fst]. f_equal. f_equal. lia. }
  unfold free_list. rewrite Efwd.
  destruct (list_snoc_cases _ Q1) as [-> | (P' & bp & ->)]; [reflexivity |].
  rewrite bwd_merge_snoc. rewrite last_used_snoc in HlQ1. rewrite HlQ1.
  rewrite <- app_assoc. reflexivity.
Qed.

Lemma Forall_Exists_fits n l :
  Forall (fun b => snd b = true \/ fst b < n) l -> Exists (fits n) l -> False.
Proof.
  intros HF HE. apply Exists_exists in HE. destruct HE as (b & Hin & Hf & Hn).
  rewrite Forall_forall in HF. destruct (HF b Hin) as [Hu | Hlt].
  - rewrite Hf in Hu. discriminate.
  - lia.
Qed.

(** ** Used blocks survive the sweep; distinct blocks do not overlap *)

Lemma sweep_block_used :
  forall Q b a h s,
    block_at a (b :: Q) h = Some (s, true) ->
    block_at a (sweep b Q) h = Some (s, true).
Proof.
  induction Q as [| c Q IH]; intros b a h s Hb; cbn [sweep]; [exact Hb |].
  destruct (negb (snd b) && negb (snd c)) eqn:E.
  - apply andb_true_iff in E. destruct E as [Eb Ec].
    apply negb_true_iff in Eb, Ec.
    apply IH. cbn [block_at fst] in Hb |- *.
    destruct (h =? a).
    + inversion Hb; subst b. discriminate Eb.
    + destruct (h =? a + sizeof_memblock + fst b).
      * inversion Hb; subst c. discriminate Ec.
      * replace (a + sizeof_memblock
                 + (fst b + sizeof_memblock + fst c))
          with (a + sizeof_memblock + fst b + sizeof_memblock + fst c) by lia.
        exact Hb.
  - cbn [block_at] in Hb |- *.
    destruct (h =? a); [exact Hb |]. apply IH. exact Hb.
Qed.

Lemma sweep_all_block_used a l h s :
  block_at a l h = Some (s, true) ->
  block_at a (sweep_all l) h = Some (s, true).
Proof.
  destruct l as [| b Q]; [intros H; exact H | apply sweep_block_used].
Qed.

Lemma blocks_disjoint a l h1 b1 h2 b2 :
  sizes_ok l ->
  block_at a l h1 = Some b1 -> block_at a l h2 = Some b2 -> h1 <> h2 ->
  h1 + 8 + fst b1 <= h2 \/ h2 + 8 + fst b2 <= h1.
Proof.
  intros Hs; revert a. induction Hs as [| c l Hc Hl IH]; intros a;
    cbn [block_at]; [discriminate |].
  unfold sizeof_memblock in *.
  destruct (Z.eqb_spec h1 a) as [-> | N1]; destruct (Z.eqb_spec h2 a) as [-> | N2].
  - intros _ _ H; contradiction.
  - intros E1 E2 _. inversion E1; subst.
    pose proof (block_at_range _ _ _ _ Hl E2). lia.
  - intros E1 E2 _. inversion E2; subst.
    pose proof (block_at_range _ _ _ _ Hl E1). lia.
  - apply IH.
Qed.

Lemma length_split_list MIN sz u n :
  (length (split_list MIN sz u n) <= 2)%nat.
Proof.
  unfold split_list. destruct (sz - n <? sizeof_memblock + MIN); cbn; lia.
Qed.

(** * [malloc] on a well-formed heap *)

Lemma heap_inv_log e st bs : heap_inv st bs -> heap_inv (log_event e st) bs.
Proof. intros [H1 H2 H3]; constructor; proj; [exact H1 | exact H2 | exact H3]. Qed.

Lemma evolves_log e st bs ex :
  heap_inv st bs -> evolves st bs (log_event e st) bs ex.
Proof.
  intros H. split; [split; [| split]; proj; reflexivity |].
  split; [apply heap_inv_log; exact H |].
  proj. split; [apply used_kept_refl | apply region_kept_refl].
Qed.

Lemma split_list_head MIN sz u size :
  exists b' Q', split_list MIN sz u size = (b', u) :: Q'
                /\ Forall (fun c => snd c = false) Q'
                /\ (b' = sz \/ b' = size).
Proof.
  unfold split_list. destruct (sz - size <? sizeof_memblock + MIN).
  - exists sz, []. repeat split; auto.
  - exists size, [(sz - size - sizeof_memblock, false)].
    repeat split; auto.
Qed.

Lemma count_split_list MIN sz u size :
  count_free (split_list MIN sz u size)
  = (if u then 0 else 1)
    + (if sz - size <? sizeof_memblock + MIN then 0 else 1).
Proof.
  unfold split_list. destruct (sz - size <? sizeof_memblock + MIN);
    cbn [count_free snd]; lia.
Qed.

Lemma span_split_list MIN sz u size :
  span (split_list MIN sz u size) = 8 + sz.
Proof.
  unfold split_list. destruct (sz - size <? sizeof_memblock + MIN);
    cbn [span fst]; unfold sizeof_memblock; lia.
Qed.

(** Carving an allocation out of the free block of size [sz] between [P]
    and [Q]: [split_block], [MARK_USED], counter decrement. *)
Lemma alloc_step MIN st P sz Q size :
  heap_inv st (P ++ (sz, false) :: Q) ->
  0 <= MIN -> 0 <= size <= sz -> size mod 4 = 0 ->
  let h := heap_start st + span P in
  exists st1,
    split_block MIN h size st = Ret tt st1
    /\ (free_blocks_count (MARK_USED h st1) <=? 0) = false
    /\ evolves st (P ++ (sz, false) :: Q)
         (set_count (wrap (free_blocks_count (MARK_USED h st1) - 1))
                    (MARK_USED h st1))
         (P ++ split_list MIN sz true size ++ Q) 0
    /\ crit (MARK_USED h st1) = crit st
    /\ (forall x, h + 8 <= x < h + 8 + size ->
                  mem (MARK_USED h st1) x = mem st x).
Proof.
  intros Hinv HM Hsize Hs4 h.
  pose proof (hi_wf _ _ Hinv) as Hwf.
  pose proof (hi_count _ _ Hinv) as Hc.
  pose proof (hi_first _ _ Hinv) as Hff.
  pose proof (count_range _ _ _ _ Hwf) as Hcr.
  pose proof (wf_sizes _ _ _ _ Hwf) as Hsz.
  destruct (split_block_wf MIN st P sz false Q size Hwf HM Hsize Hs4)
    as (st1 & Hsp & (R1 & R2 & R3) & Hcrit1 & Hwf1 & Hfr1 & Hc1 & _).
  fold h in Hsp, Hfr1.
  exists st1. split; [exact Hsp |].
  (* the state after MARK_USED *)
  destruct (split_list_head MIN sz false size) as (b' & Q' & El & HQ' & Hb').
  rewrite El in Hwf1. cbn [app] in Hwf1.
  rewrite <- R2, <- R3 in Hwf1.
  destruct (MARK_USED_wf st1 P (b', false) (Q' ++ Q) Hwf1) as [Hwf2 Hfr2].
  rewrite R2 in Hwf2, Hfr2. fold h in Hwf2, Hfr2. cbn [fst] in Hwf2.
  rewrite R3 in Hwf2.
  assert (El2 : split_list MIN sz true size = (b', true) :: Q').
  { unfold split_list in *. destruct (sz - size <? sizeof_memblock + MIN);
      inversion El; reflexivity. }
  assert (Hcnt : free_blocks_count (MARK_USED h st1) = free_blocks_count st1).
  { unfold MARK_USED, write_size. proj. reflexivity. }
  assert (HcP : count_free (P ++ (sz, false) :: Q)
                = count_free P + 1 + count_free Q).
  { rewrite count_free_app. cbn [count_free snd]. lia. }
  assert (HcN : count_free (P ++ split_list MIN sz true size ++ Q)
                = count_free P + count_free Q
                  + (if sz - size <? 8 + MIN then 0 else 1)).
  { rewrite !count_free_app, count_split_list. unfold sizeof_memblock. lia. }
  apply sizes_ok_app in Hsz. destruct Hsz as [HsP HsQ].
  apply sizes_ok_cons in HsQ. destruct HsQ as [_ HsQ].
  pose proof (count_free_bound P HsP). pose proof (count_free_bound Q HsQ).
  rewrite Hcnt, Hc1.
  assert (Hpos : (if sz - size <? 8 + MIN then free_blocks_count st
                  else wrap (free_blocks_count st + 1)) >= 1
                 /\ wrap ((if sz - size <? 8 + MIN then free_blocks_count st
                            else wrap (free_blocks_count st + 1)) - 1)
                    = count_free (P ++ split_list MIN sz true size ++ Q)).
  { rewrite HcN, Hc, HcP.
    destruct (sz - size <? 8 + MIN).
    - rewrite wrap_small by lia. lia.
    - rewrite (wrap_small (_ + 1)) by lia. rewrite wrap_small by lia. lia. }
  destruct Hpos as [Hge Hwr].
  split; [apply Z.leb_gt; lia |].
  split; [| split].
  - split; [split; [| split]; unfold MARK_USED, write_size; proj; assumption |].
    split.
    + constructor; unfold MARK_USED, write_size; proj.
      * congruence.
      * rewrite R2, R3, El2. cbn [app].
        unfold MARK_USED, write_size in Hwf2. rewrite mem_set_mem in Hwf2.
        exact Hwf2.
      * exact Hwr.
    + proj.
      change (P ++ (sz, false) :: Q) with (P ++ [(sz, false)] ++ Q).
      split.
      2:{ apply region_kept_replace; [exact HsQ | | | exact HsP].
          - rewrite span_split_list. cbn [span fst]. unfold sizeof_memblock. lia.
          - cbn [span fst]. unfold sizeof_memblock. fold h. intros x Hx.
            rewrite Hfr2 by lia. apply Hfr1. lia. }
      apply used_kept_replace.
      * exact (wf_sizes _ _ _ _ Hwf).
      * pose proof (wf_sizes _ _ _ _ Hwf2) as Hs2.
        rewrite El2.
        apply sizes_ok_app in Hs2. destruct Hs2 as [_ Hs2].
        change ((b', true) :: Q' ++ Q) with (((b', true) :: Q') ++ Q) in Hs2.
        apply sizes_ok_app in Hs2. destruct Hs2 as [Hs2 _]. exact Hs2.
      * rewrite span_split_list. cbn [span fst]. unfold sizeof_memblock. lia.
      * cbn [span fst]. unfold sizeof_memblock. fold h. intros x Hx.
        rewrite Hfr2 by lia. apply Hfr1. lia.
      * intros a s. cbn [block_at]. destruct (a =? _); [| discriminate].
        intros E; inversion E.
  - unfold MARK_USED, write_size. proj. exact Hcrit1.
  - (* the payload prefix is not written *)
    intros x Hx. rewrite Hfr2 by lia.
    unfold split_block in Hsp.
    pose proof (wf_block _ _ _ _ _ _ Hwf) as
      (Hp0 & Hh & _ & _ & _ & HQ0 & Hend & Htop & _ & _ & Hg & _).
    fold h in Hh, Hend, Hg. cbn [fst] in *. rewrite Hg in Hsp.
    destruct (Z.gtb_spec size sz); [lia |].
    unfold sizeof_memblock in Hsp.
    destruct (sz - size <? 8 + MIN).
    + inversion Hsp; reflexivity.
    + inversion Hsp. unfold MARK_FREE, write_size, write_next. proj.
      rewrite (wrap_small (h + 8 + size)) by lia.
      repeat rewrite store32_other by lia. reflexivity.
Qed.

Lemma malloc_loop_eq MIN MAX fuel p size st :
  malloc_loop MIN MAX (S fuel) p size st =
  if p =? NULL then Ret NULL (CRITICAL_LEAVE st)
  else if negb (validate_block MAX st p) then Panic (CRITICAL_LEAVE st)
  else if (IS_USED (mem st) p =? 0) && (GET_SIZE (mem st) p >=? size)
  then
    bind (split_block MIN p size st)
      (fun _ st =>
         let st := MARK_USED p st in
         if free_blocks_count st <=? 0 then Panic st
         else
           let st := set_count (wrap (free_blocks_count st - 1)) st in
           Ret (wrap (p + sizeof_memblock)) (CRITICAL_LEAVE st))
  else malloc_loop MIN MAX fuel (next_of (mem st) p) size st.
Proof. reflexivity. Qed.

Lemma validate_true_bounds MAX sz :
  negb ((sz =? 0) || (sz >? MAX)) = true -> 0 <= sz -> 0 < sz <= MAX.
Proof.
  intros H H0. apply negb_true_iff, orb_false_iff in H. destruct H as [H1 H2].
  apply Z.eqb_neq in H1.
  destruct (Z.gtb_spec sz MAX); [discriminate | lia].
Qed.

(** The first-fit walk from the block after [P]: it either stops at a null
    link (only when the terminal header passes validation), or carves the
    first free block of [Q] that is large enough, or panics. *)
Lemma malloc_loop_spec MIN MAX size :
  0 <= MIN -> 0 <= size -> size mod 4 = 0 ->
  forall Q P st fuel,
    heap_inv st (P ++ Q) -> (length Q + 2 <= fuel)%nat ->
    match malloc_loop MIN MAX fuel (heap_start st + span P) size st with
    | Ret r st' =>
        crit st' = Leave :: crit st
        /\ ((r = NULL /\ evolves st (P ++ Q) st' (P ++ Q) 0
             /\ mem st' = mem st
             /\ validate_block MAX st (heap_start st + span (P ++ Q)) = true)
            \/ exists Q1 sz Q2,
                Q = Q1 ++ (sz, false) :: Q2
                /\ size <= sz /\ 0 < sz <= MAX
                /\ Forall (fun b => snd b = true \/ fst b < size) Q1
                /\ r = heap_start st + span (P ++ Q1) + 8
                /\ evolves st (P ++ Q) st'
                     ((P ++ Q1) ++ split_list MIN sz true size ++ Q2) 0
                /\ (forall x, r <= x < r + size -> mem st' x = mem st x))
    | Panic _ =>
        Exists (fun b => fst b = 0 \/ fst b > MAX) Q
        \/ Forall (fun b => snd b = true \/ fst b < size) Q
    | Timeout => False
    end.
Proof.
  intros HM Hs0 Hs4.
  induction Q as [| b Q IH]; intros P st fuel Hinv Hfuel;
    (destruct fuel as [| fuel]; [cbn [length] in Hfuel; lia |]);
    rewrite malloc_loop_eq; pose proof (hi_wf _ _ Hinv) as Hwf.
  - rewrite app_nil_r in *.
    pose proof (wf_term _ _ _ _ Hwf) as (Hpos & He & He4 & Hend & Htop & Tn & Tu).
    cbv zeta in *. set (e := heap_start st + span P) in *.
    rewrite (nz_eqb e) by lia.
    destruct (validate_block MAX st e) eqn:Hv; cbn [negb];
      [| right; constructor].
    rewrite Tu. change (1 =? 0) with false. cbn [andb].
    unfold next_of. rewrite Tn.
    destruct fuel as [| fuel]; [cbn [length] in Hfuel; lia |].
    rewrite malloc_loop_eq. change (0 =? NULL) with true. cbv iota.
    unfold CRITICAL_LEAVE.
    split; [proj; reflexivity |]. left.
    split; [reflexivity |]. split; [apply evolves_log; exact Hinv |].
    split; [proj; reflexivity | reflexivity].
  - pose proof (wf_block _ _ _ _ _ _ Hwf) as
      (Hpos & Hh & Hh4 & Hb0 & Hb4 & HQ & Hend & Htop & Hn & Hs & Hg & Hu).
    pose proof (validate_block_wf MAX st P b _ Hwf) as Hv.
    cbv zeta in *. set (h := heap_start st + span P) in *.
    rewrite (nz_eqb h) by lia. rewrite Hv.
    destruct (negb ((fst b =? 0) || (fst b >? MAX))) eqn:Hvb; cbn [negb].
    2:{ left. apply Exists_cons_hd.
        apply negb_false_iff, orb_true_iff in Hvb. destruct Hvb as [Hz | Hz].
        - left. apply Z.eqb_eq in Hz. exact Hz.
        - right. destruct (Z.gtb_spec (fst b) MAX); [lia | discriminate]. }
    pose proof (validate_true_bounds _ _ Hvb Hb0) as Hbnd.
    rewrite Hu, Hg, b2z_eqb0.
    destruct (negb (snd b) && (fst b >=? size)) eqn:Hfit.
    + apply andb_true_iff in Hfit. destruct Hfit as [Hfree Hge].
      apply negb_true_iff in Hfree.
      destruct b as [sz u]. cbn [fst snd] in *. subst u.
      assert (Hle : size <= sz) by (destruct (Z.geb_spec sz size); [lia | discriminate]).
      destruct (alloc_step MIN st P sz Q size Hinv HM ltac:(lia) Hs4)
        as (st1 & Hsp & Hcnt & Hev & Hcrit & Hpay).
      fold h in Hsp, Hcnt, Hev, Hcrit, Hpay.
      rewrite Hsp. cbn [bind]. cbv zeta. rewrite Hcnt.
      unfold sizeof_memblock. rewrite (wrap_small (h + 8)) by lia.
      unfold CRITICAL_LEAVE.
      split; [proj; rewrite Hcrit; reflexivity |]. right.
      exists [], sz, Q. rewrite app_nil_r. cbn [app].
      split; [reflexivity |]. split; [exact Hle |]. split; [exact Hbnd |].
      split; [constructor |]. split; [reflexivity |].
      split.
      * eapply evolves_trans; [exact Hev |].
        apply evolves_log. destruct Hev as (_ & Hi & _). exact Hi.
      * intros x Hx. proj. apply Hpay. lia.
    + assert (Hinv2 := Hinv).
      change (P ++ b :: Q) with (P ++ [b] ++ Q) in Hinv2.
      rewrite app_assoc in Hinv2.
      specialize (IH (P ++ [b]) st fuel Hinv2
                     ltac:(cbn [length] in Hfuel; lia)).
      assert (Eh : heap_start st + span (P ++ [b]) = h + 8 + fst b).
      { rewrite span_app. cbn [span]. unfold sizeof_memblock. subst h. lia. }
      rewrite Eh in IH. unfold next_of. rewrite Hn.
      assert (Hnofit : snd b = true \/ fst b < size).
      { apply andb_false_iff in Hfit. destruct Hfit as [Hf | Hf].
        - left. apply negb_false_iff in Hf. exact Hf.
        - right. destruct (Z.geb_spec (fst b) size); [discriminate | lia]. }
      destruct (malloc_loop MIN MAX fuel (h + 8 + fst b) size st)
        as [r st' | st' |]; [| | exact IH].
      2:{ destruct IH as [IH | IH].
          - left. apply Exists_cons_tl. exact IH.
          - right. constructor; [exact Hnofit | exact IH]. }
      destruct IH as [Hcr IH]. split; [exact Hcr |].
      destruct IH as [(Hr & Hi & Hm & Hvt) | (Q1 & sz & Q2 & EQ & Hle & Hbd & Hff & Hr & Hev & Hpay)].
      * left. rewrite <- !app_assoc in Hi. rewrite <- !app_assoc in Hvt.
        cbn [app] in Hi, Hvt.
        split; [exact Hr |]. split; [exact Hi |].
        split; [exact Hm | exact Hvt].
      * right. exists (b :: Q1), sz, Q2. subst Q.
        split; [reflexivity |]. split; [exact Hle |]. split; [exact Hbd |].
        split.
        { constructor; [exact Hnofit | exact Hff]. }
        rewrite <- !app_assoc in Hr. rewrite <- !app_assoc in Hev.
        cbn [app] in Hr, Hev.
        split; [exact Hr |].
        split; [| exact Hpay].
        rewrite <- !app_assoc. cbn [app]. exact Hev.
Qed.

Lemma norm_size_props MIN size :
  0 <= MIN -> MIN mod 4 = 0 -> 0 < size -> size + 3 < 2 ^ 32 ->
  size <= norm_size MIN size /\ MIN <= norm_size MIN size
  /\ norm_size MIN size mod 4 = 0 /\ 0 < norm_size MIN size
  /\ norm_size MIN size < Z.max MIN size + 4.
Proof.
  intros HM HM4 Hs Hs3. unfold norm_size.
  pose proof (ALIGN4_bounds size ltac:(lia) Hs3).
  pose proof (ALIGN4_mod4 size).
  destruct (Z.ltb_spec (ALIGN4 size) MIN); repeat split; try assumption; lia.
Qed.

Lemma malloc_eq MIN MAX fuel size st :
  malloc MIN MAX fuel size st =
  if (size =? 0) || (size >? MAX) then Ret NULL st
  else
    bind (if free_blocks_count (CRITICAL_ENTER st) >? COALESCE_THRESHOLD
          then selective_coalesce MAX fuel (CRITICAL_ENTER st)
          else Ret tt (CRITICAL_ENTER st))
         (fun _ st1 =>
            malloc_loop MIN MAX fuel (first_free st1) (norm_size MIN size) st1).
Proof. reflexivity. Qed.

(** The sweep from the head of the list. *)
Lemma coalesce_spec MAX fuel st bs :
  heap_inv st bs -> (length bs + 2 <= fuel)%nat ->
  match selective_coalesce MAX fuel st with
  | Ret _ st' => evolves st bs st' (sweep_all bs) 0 /\ crit st' = crit st
  | Panic _ => Exists (fun c => fst c = 0) bs \/ MAX + 8 < span bs
  | Timeout => False
  end.
Proof.
  intros Hinv Hf. unfold selective_coalesce. rewrite (hi_first _ _ Hinv).
  destruct bs as [| b Q].
  - destruct fuel as [| fuel]; [cbn [length] in Hf; lia |].
    rewrite coalesce_loop_eq.
    pose proof (wf_term _ _ _ _ (hi_wf _ _ Hinv)) as
      (Hpos & _ & _ & _ & _ & Tn & _).
    cbv zeta in Tn. cbn [span] in Tn. rewrite Z.add_0_r in Tn.
    unfold next_of. rewrite Tn. change (0 =? NULL) with true.
    rewrite andb_false_r. cbn [sweep_all].
    split; [apply evolves_refl; exact Hinv | reflexivity].
  - pose proof (coalesce_loop_spec MAX Q b [] st fuel Hinv
                  ltac:(cbn [length] in Hf |- *; lia)) as H.
    cbn [span app] in H. rewrite Z.add_0_r in H. exact H.
Qed.

(** [malloc] on a well-formed heap, for a request within the limits. *)
Lemma malloc_wf MIN MAX fuel size st bs :
  heap_inv st bs ->
  0 <= MIN -> MIN mod 4 = 0 -> 0 < size <= MAX -> MAX + 3 < 2 ^ 32 ->
  (length bs + 2 <= fuel)%nat ->
  let n := norm_size MIN size in
  let bs1 := if free_blocks_count st >? COALESCE_THRESHOLD
             then sweep_all bs else bs in
  match malloc MIN MAX fuel size st with
  | Ret r st' =>
      crit st' = Leave :: Enter :: crit st
      /\ ((r = NULL /\ evolves st bs st' bs1 0
           /\ validate_block MAX st' (heap_start st + span bs) = true)
          \/ exists Q1 sz Q2,
              bs1 = Q1 ++ (sz, false) :: Q2
              /\ n <= sz /\ 0 < sz <= MAX
              /\ Forall (fun b => snd b = true \/ fst b < n) Q1
              /\ r = heap_start st + span Q1 + 8
              /\ evolves st bs st' (Q1 ++ split_list MIN sz true n ++ Q2) 0)
  | Panic _ =>
      (Exists (fun c => fst c = 0) bs \/ MAX + 8 < span bs)
      \/ Exists (fun b => fst b = 0 \/ fst b > MAX) bs1
      \/ Forall (fun b => snd b = true \/ fst b < n) bs1
  | Timeout => False
  end.
Proof.
  intros Hinv HM HM4 Hsize HMAX Hf n bs1.
  destruct (norm_size_props MIN size HM HM4 ltac:(lia) ltac:(lia))
    as (Hn1 & Hn2 & Hn4 & Hn0 & _). fold n in Hn1, Hn2, Hn4, Hn0.
  rewrite malloc_eq.
  destruct (Z.eqb_spec size 0); [lia |].
  destruct (Z.gtb_spec size MAX); [lia |]. cbn [orb].
  set (st0 := CRITICAL_ENTER st).
  assert (Hev0 : evolves st bs st0 bs 0) by (apply evolves_log; exact Hinv).
  assert (Hinv0 : heap_inv st0 bs) by (apply heap_inv_log; exact Hinv).
  assert (C0 : crit st0 = Enter :: crit st) by reflexivity.
  assert (F0 : free_blocks_count st0 = free_blocks_count st) by reflexivity.
  rewrite F0. fold n.
  assert (Hloop : forall st1, evolves st bs st1 bs1 0 ->
            crit st1 = Enter :: crit st ->
            match malloc_loop MIN MAX fuel (first_free st1) n st1 with
            | Ret r st' =>
                crit st' = Leave :: Enter :: crit st
                /\ ((r = NULL /\ evolves st bs st' bs1 0
                     /\ validate_block MAX st' (heap_start st + span bs) = true)
                    \/ exists Q1 sz Q2,
                        bs1 = Q1 ++ (sz, false) :: Q2
                        /\ n <= sz /\ 0 < sz <= MAX
                        /\ Forall (fun b => snd b = true \/ fst b < n) Q1
                        /\ r = heap_start st + span Q1 + 8
                        /\ evolves st bs st'
                             (Q1 ++ split_list MIN sz true n ++ Q2) 0)
            | Panic _ =>
                Exists (fun b => fst b = 0 \/ fst b > MAX) bs1
                \/ Forall (fun b => snd b = true \/ fst b < n) bs1
            | Timeout => False
            end).
  { intros st1 Hev1 Hc1.
    pose proof (evolves_start _ _ _ _ _ Hev1) as E1.
    assert (Hinv1 : heap_inv st1 bs1) by (destruct Hev1 as (_ & Hi & _); exact Hi).
    assert (Hlen : (length bs1 + 2 <= fuel)%nat).
    { subst bs1. destruct (free_blocks_count st >? COALESCE_THRESHOLD);
        [pose proof (length_sweep_all bs) |]; lia. }
    pose proof (malloc_loop_spec MIN MAX n HM ltac:(lia) Hn4 bs1 [] st1 fuel
                  Hinv1 Hlen) as HL.
    cbn [span app] in HL. rewrite Z.add_0_r in HL.
    rewrite (hi_first _ _ Hinv1).
    destruct (malloc_loop MIN MAX fuel (heap_start st1) n st1)
      as [r st' | st' |]; [| exact HL | exact HL].
    destruct HL as [Hcr HL]. split; [rewrite Hcr, Hc1; reflexivity |].
    destruct HL as [(Hr & Hev & Hm & Hv) | (Q1 & sz & Q2 & E & Hle & Hb & Hff & Hr & Hev & _)].
    - left. split; [exact Hr |].
      split; [eapply evolves_trans; [exact Hev1 | exact Hev] |].
      destruct Hev1 as (_ & _ & _ & (Hsp & _)).
      rewrite E1, Hsp in Hv.
      unfold validate_block, IS_VALID_BLOCK in *. rewrite Hm.
      destruct Hev as ((_ & R2 & R3) & _). rewrite R2, R3. exact Hv.
    - right. exists Q1, sz, Q2. rewrite E1 in Hr.
      split; [exact E |]. split; [exact Hle |]. split; [exact Hb |].
      split; [exact Hff |]. split; [exact Hr |].
      eapply evolves_trans; [exact Hev1 | exact Hev]. }
  destruct (Z.gtb_spec (free_blocks_count st) COALESCE_THRESHOLD) as [Hgt | Hle].
  - pose proof (coalesce_spec MAX fuel st0 bs Hinv0 Hf) as Hsw.
    destruct (selective_coalesce MAX fuel st0) as [[] st1 | st1 |];
      cbn [bind]; [| left; exact Hsw | exact Hsw].
    destruct Hsw as [Hev1 Hc1].
    pose proof (Hloop st1 (evolves_trans _ _ _ _ _ _ _ Hev0 Hev1)
                  ltac:(rewrite Hc1; exact C0)) as HH.
    destruct (malloc_loop MIN MAX fuel (first_free st1) n st1)
      as [r st' | st' |]; [exact HH | right; exact HH | exact HH].
  - cbn [bind].
    pose proof (Hloop st0 Hev0 C0) as HH.
    destruct (malloc_loop MIN MAX fuel (first_free st0) n st0)
      as [r st' | st' |]; [exact HH | right; exact HH | exact HH].
Qed.

(** * [free] on a well-formed heap *)

Lemma free_eq MAX fuel ptr st :
  free MAX fuel ptr st =
  if ptr =? NULL then Ret tt st
  else
    let st0 := CRITICAL_ENTER st in
    let p := wrap (ptr - sizeof_memblock) in
    if negb (validate_block MAX st0 p) || (IS_USED (mem st0) p =? 0)
    then Panic (CRITICAL_LEAVE st0)
    else
      let st3 :=
        free_forward p
          (set_count (wrap (free_blocks_count (MARK_FREE p st0) + 1))
                     (MARK_FREE p st0)) in
      match find_prev fuel (mem st3) NULL (first_free st3) p with
      | None => Timeout
      | Some prev => free_backward MAX p prev st3
      end.
Proof. reflexivity. Qed.

(** Clearing the used flag of the block being freed. *)
Lemma mark_free_step st P s Q :
  heap_inv st (P ++ (s, true) :: Q) ->
  let h := heap_start st + span P in
  evolves st (P ++ (s, true) :: Q)
          (set_count (wrap (free_blocks_count (MARK_FREE h st) + 1))
                     (MARK_FREE h st))
          (P ++ (s, false) :: Q) h
  /\ crit (MARK_FREE h st) = crit st
  /\ (forall x, x < h \/ h + 8 <= x -> mem (MARK_FREE h st) x = mem st x).
Proof.
  intros [Hff Hwf Hc] h.
  destruct (MARK_FREE_wf st P (s, true) Q Hwf) as [Hwf1 Hfr].
  fold h in Hwf1, Hfr. cbn [fst] in Hwf1.
  pose proof (count_range _ _ _ _ Hwf) as Hcr.
  pose proof (wf_sizes _ _ _ _ Hwf) as Hsz.
  split; [| split; [unfold MARK_FREE, write_size; proj; reflexivity | exact Hfr]].
  split; [split; [| split]; unfold MARK_FREE, write_size; proj; reflexivity |].
  split.
  - constructor; proj.
    + unfold MARK_FREE, write_size; proj. exact Hff.
    + unfold MARK_FREE, write_size in *. rewrite mem_set_mem in *.
      rewrite heap_start_set_mem, heap_end_set_mem. exact Hwf1.
    + unfold MARK_FREE, write_size. proj.
      rewrite Hc, !count_free_app in *. cbn [count_free snd] in *.
      rewrite wrap_small by lia. lia.
  - proj.
    change (P ++ (s, true) :: Q) with (P ++ [(s, true)] ++ Q).
    change (P ++ (s, false) :: Q) with (P ++ [(s, false)] ++ Q).
    split.
    2:{ pose proof Hsz as Hsz2.
        apply sizes_ok_app in Hsz2. destruct Hsz2 as [HsP HsQ].
        apply sizes_ok_cons in HsQ. destruct HsQ as [[Hs0 _] HsQ].
        cbn [fst] in Hs0.
        apply region_kept_replace; [exact HsQ | reflexivity | | exact HsP].
        cbn [span fst]. unfold sizeof_memblock. fold h.
        intros; apply Hfr; lia. }
    apply used_kept_replace.
    + exact Hsz.
    + apply sizes_ok_app in Hsz. destruct Hsz as [_ Hsz].
      apply sizes_ok_cons in Hsz. destruct Hsz as [Hs _].
      repeat constructor; apply Hs.
    + reflexivity.
    + cbn [span fst]. unfold sizeof_memblock. fold h.
      apply sizes_ok_app in Hsz. destruct Hsz as [_ Hsz].
      apply sizes_ok_cons in Hsz. destruct Hsz as [[Hs _] _]. cbn [fst] in Hs.
      intros; apply Hfr; lia.
    + intros a sz. cbn [block_at]. fold h.
      destruct (Z.eqb_spec a h); [intros _; assumption | discriminate].
Qed.

Lemma fwd_merge_head s Q :
  exists s1 Q1, fwd_merge s Q = (s1, false) :: Q1.
Proof.
  unfold fwd_merge. destruct Q as [| n Q]; [eauto |].
  destruct (snd n); eauto.
Qed.

(** Forward merge. *)
Lemma free_forward_spec st P s Q ex :
  heap_inv st (P ++ (s, false) :: Q) ->
  let h := heap_start st + span P in
  evolves st (P ++ (s, false) :: Q) (free_forward h st)
          (P ++ fwd_merge s Q) ex
  /\ crit (free_forward h st) = crit st
  /\ (forall x, x < h \/ h + 8 <= x -> mem (free_forward h st) x = mem st x).
Proof.
  intros Hinv h. pose proof (hi_wf _ _ Hinv) as Hwf.
  pose proof (wf_block _ _ _ _ _ _ Hwf) as
    (Hpos & Hh & Hh4 & Hb0 & Hb4 & HQ & Hend & Htop & Hn & Hs & Hg & Hu).
  pose proof (wf_succ _ _ _ _ _ _ Hwf) as (Hn0 & En & Su & Sn & _).
  cbv zeta in *. fold h in Hh, Hh4, Hend, Hn, Hs, Hg, Hu, Hn0, En, Su, Sn.
  cbn [fst snd] in *.
  unfold free_forward, next_of. rewrite Hn, Su.
  rewrite (nz_eqb (h + 8 + s)) by lia. cbn [negb andb].
  destruct Q as [| n Q].
  - change (1 =? 0) with false. cbv iota. cbn [fwd_merge].
    split; [apply evolves_refl; exact Hinv |].
    split; [reflexivity | intros; reflexivity].
  - rewrite b2z_eqb0. cbn [fwd_merge].
    destruct (snd n) eqn:En'; cbn [negb]; cbv iota.
    + split; [apply evolves_refl; exact Hinv |].
      split; [reflexivity | intros; reflexivity].
    + pose proof (count_range _ _ _ _ Hwf) as Hcr.
      pose proof (hi_count _ _ Hinv) as Hc.
      pose proof (wf_sizes _ _ _ _ Hwf) as Hsz.
      apply sizes_ok_app in Hsz. destruct Hsz as [HsP HsQ].
      apply sizes_ok_cons in HsQ. destruct HsQ as [_ HsQ].
      apply sizes_ok_cons in HsQ. destruct HsQ as [_ HsQ].
      pose proof (count_free_bound P HsP). pose proof (count_free_bound Q HsQ).
      assert (Hc' : wrap (free_blocks_count st - 1)
                    = count_free (P ++ (s + 8 + fst n, false) :: Q)).
      { rewrite Hc, !count_free_app in *. cbn [count_free snd] in *.
        rewrite En' in *. rewrite wrap_small by lia. lia. }
      destruct (merge_step st P (s, false) n Q ex _ Hinv eq_refl En' Hc')
        as [Hev Hcrit].
      cbn [fst] in Hev, Hcrit. fold h in Hev, Hcrit.
      unfold sizeof_memblock.
      split; [exact Hev |]. split; [exact Hcrit |].
      destruct (absorb_next_wf st P (s, false) n Q Hwf) as (_ & Hfr & _).
      fold h in Hfr. proj. exact Hfr.
Qed.

Lemma last_addr_nil prev a : last_addr prev a [] = prev.
Proof. reflexivity. Qed.

(** Backward merge, given the predecessor found by the list walk. *)
Lemma free_backward_spec MAX st P b Q ex :
  heap_inv st (P ++ b :: Q) -> snd b = false ->
  let h := heap_start st + span P in
  match free_backward MAX h (last_addr NULL (heap_start st) P) st with
  | Ret _ st' =>
      evolves st (P ++ b :: Q) st' (bwd_merge P (b :: Q)) ex
      /\ crit st' = Leave :: crit st
      /\ (forall x, h <= x -> mem st' x = mem st x)
  | Panic _ =>
      exists P' bp, P = P' ++ [bp] /\ snd bp = false
                    /\ (fst bp = 0 \/ fst bp > MAX)
  | Timeout => False
  end.
Proof.
  intros Hinv Hb h. pose proof (hi_wf _ _ Hinv) as Hwf.
  unfold free_backward.
  destruct (list_snoc_cases _ P) as [-> | (P' & bp & ->)].
  - rewrite last_addr_nil. change (NULL =? NULL) with true. cbn [negb andb].
    rewrite bwd_merge_nil. unfold CRITICAL_LEAVE.
    split; [apply evolves_trans with (st1 := st) (bs1 := [] ++ b :: Q);
            [apply evolves_refl; exact Hinv | ] |].
    + apply evolves_log. exact Hinv.
    + split; [proj; reflexivity | intros; proj; reflexivity].
  - rewrite last_addr_snoc, bwd_merge_snoc.
    assert (Hwf2 := Hwf). rewrite <- app_assoc in Hwf2. cbn [app] in Hwf2.
    assert (Hinv2 := Hinv). rewrite <- app_assoc in Hinv2. cbn [app] in Hinv2.
    pose proof (wf_block _ _ _ _ _ _ Hwf2) as
      (Hpos & Hh & Hh4 & Hb0 & Hb4 & HQ & Hend & Htop & Hn & Hs & Hg & Hu).
    pose proof (wf_block _ _ _ _ _ _ Hwf) as
      (_ & _ & _ & Hc0 & _ & HQ' & _ & _ & Hn' & _ & Hg' & _).
    pose proof (validate_block_wf MAX st P' bp _ Hwf2) as Hv.
    cbv zeta in *. fold h in Hn', Hg'.
    assert (Eh : h = heap_start st + span P' + 8 + fst bp).
    { subst h. rewrite span_app. cbn [span]. unfold sizeof_memblock. lia. }
    set (q := heap_start st + span P') in *.
    rewrite (nz_eqb q) by lia. rewrite Hu, b2z_eqb0. cbn [negb andb].
    destruct (snd bp) eqn:Ebp; cbn [negb]; cbv iota.
    + unfold CRITICAL_LEAVE. rewrite <- app_assoc. cbn [app].
      split; [| split; [proj; reflexivity | intros; proj; reflexivity]].
      apply evolves_log. exact Hinv2.
    + rewrite Hv.
      destruct (negb ((fst bp =? 0) || (fst bp >? MAX))) eqn:Hvb; cbn [negb].
      2:{ exists P', bp. split; [reflexivity |]. split; [exact Ebp |].
          apply negb_false_iff, orb_true_iff in Hvb. destruct Hvb as [Hz | Hz].
          - left. apply Z.eqb_eq in Hz. exact Hz.
          - right. destruct (Z.gtb_spec (fst bp) MAX); [lia | discriminate]. }
      (* the two writes are exactly [absorb_next] at the predecessor *)
      assert (Eabs : write_next q
                       (next_of
                          (mem (write_size q
                                  (wrap (GET_SIZE (mem st) q + sizeof_memblock
                                         + GET_SIZE (mem st) h)) st)) h)
                       (write_size q
                          (wrap (GET_SIZE (mem st) q + sizeof_memblock
                                 + GET_SIZE (mem st) h)) st)
                     = absorb_next q st).
      { unfold absorb_next, next_of, write_next, write_size.
        rewrite !mem_set_mem. rewrite Hn, <- Eh.
        loads. rewrite Hn, <- Eh. reflexivity. }
      cbv zeta. rewrite Eabs.
      pose proof (count_range _ _ _ _ Hwf) as Hcr.
      pose proof (hi_count _ _ Hinv2) as Hc.
      pose proof (wf_sizes _ _ _ _ Hwf2) as Hsz.
      apply sizes_ok_app in Hsz. destruct Hsz as [HsP HsQ].
      apply sizes_ok_cons in HsQ. destruct HsQ as [_ HsQ].
      apply sizes_ok_cons in HsQ. destruct HsQ as [_ HsQ].
      pose proof (count_free_bound P' HsP). pose proof (count_free_bound Q HsQ).
      assert (Hcnt : free_blocks_count (absorb_next q st) = free_blocks_count st).
      { destruct (absorb_next_wf st P' bp b Q Hwf2) as (_ & _ & _ & Hx & _).
        exact Hx. }
      rewrite Hcnt.
      assert (Hc' : wrap (free_blocks_count st - 1)
                    = count_free (P' ++ (fst bp + 8 + fst b, false) :: Q)).
      { rewrite Hc, !count_free_app in *. cbn [count_free snd] in *.
        rewrite Ebp, Hb in *. rewrite wrap_small by lia. lia. }
      destruct (merge_step st P' bp b Q ex _ Hinv2 Ebp Hb Hc') as [Hev Hcrit].
      fold q in Hev, Hcrit. unfold CRITICAL_LEAVE, sizeof_memblock.
      split; [| split].
      * rewrite <- app_assoc. cbn [app].
        eapply evolves_trans; [exact Hev |].
        destruct Hev as (_ & Hi & _).
        apply evolves_log. exact Hi.
      * proj. rewrite crit_set_count in Hcrit. rewrite Hcrit. reflexivity.
      * intros x Hx. proj.
        destruct (absorb_next_wf st P' bp b Q Hwf2) as (_ & Hfr & _).
        fold q in Hfr. apply Hfr. lia.
Qed.

Lemma free_spec MAX fuel st P s Q :
  heap_inv st (P ++ (s, true) :: Q) -> (length P < fuel)%nat ->
  let h := heap_start st + span P in
  match free MAX fuel (h + 8) st with
  | Ret _ st' =>
      evolves st (P ++ (s, true) :: Q) st' (free_list P s Q) h
      /\ crit st' = Leave :: Enter :: crit st
      /\ IS_USED (mem st') h = 0
      /\ 0 < s <= MAX
  | Panic _ =>
      s = 0 \/ s > MAX
      \/ exists P' bp, P = P' ++ [bp] /\ snd bp = false
                       /\ (fst bp = 0 \/ fst bp > MAX)
  | Timeout => False
  end.
Proof.
  intros Hinv Hfuel h.
  pose proof (hi_wf _ _ Hinv) as Hwf.
  pose proof (wf_block _ _ _ _ _ _ Hwf) as
    (Hpos & Hh & Hh4 & Hb0 & Hb4 & HQ & Hend & Htop & Hn & Hs & Hg & Hu).
  cbv zeta in *. fold h in Hh, Hh4, Hend, Hn, Hs, Hg, Hu. cbn [fst snd] in *.
  rewrite free_eq. rewrite (nz_eqb (h + 8)) by lia. cbv zeta.
  unfold sizeof_memblock.
  replace (h + 8 - 8) with h by lia. rewrite (wrap_small h) by lia.
  set (st0 := CRITICAL_ENTER st).
  assert (Hinv0 : heap_inv st0 (P ++ (s, true) :: Q))
    by (apply heap_inv_log; exact Hinv).
  assert (E0 : heap_start st0 = heap_start st) by reflexivity.
  assert (M0 : mem st0 = mem st) by reflexivity.
  assert (C0 : crit st0 = Enter :: crit st) by reflexivity.
  pose proof (validate_block_wf MAX st0 P (s, true) Q (hi_wf _ _ Hinv0)) as Hv.
  rewrite E0 in Hv. fold h in Hv. cbn [fst] in Hv. rewrite Hv, M0, Hu.
  change (Z.b2z true =? 0) with false. rewrite orb_false_r.
  destruct (negb ((s =? 0) || (s >? MAX))) eqn:Hvb; cbn [negb].
  2:{ apply negb_false_iff, orb_true_iff in Hvb. destruct Hvb as [Hz | Hz].
      - left. apply Z.eqb_eq in Hz. exact Hz.
      - right; left. destruct (Z.gtb_spec s MAX); [lia | discriminate]. }
  pose proof (validate_true_bounds _ _ Hvb Hb0) as Hbnd.
  (* mark free *)
  destruct (mark_free_step st0 P s Q Hinv0) as (Hev1 & Hcr1 & Hfr1).
  rewrite E0 in Hev1, Hcr1, Hfr1. fold h in Hev1, Hcr1, Hfr1.
  set (st2 := set_count _ (MARK_FREE h st0)) in *.
  pose proof (evolves_start _ _ _ _ _ Hev1) as E2. rewrite E0 in E2.
  (* forward merge *)
  assert (Hinv2 : heap_inv st2 (P ++ (s, false) :: Q))
    by (destruct Hev1 as (_ & Hi & _); exact Hi).
  destruct (free_forward_spec st2 P s Q h Hinv2) as (Hev3 & Hcr3 & Hfr3).
  rewrite E2 in Hev3, Hcr3, Hfr3. fold h in Hev3, Hcr3, Hfr3.
  set (st3 := free_forward h st2) in *.
  pose proof (evolves_start _ _ _ _ _ Hev3) as E3. rewrite E2 in E3.
  assert (Hinv3 : heap_inv st3 (P ++ fwd_merge s Q))
    by (destruct Hev3 as (_ & Hi & _); exact Hi).
  (* predecessor search *)
  pose proof (hi_wf _ _ Hinv3) as Hwf3.
  assert (Hfp : find_prev fuel (mem st3) NULL (first_free st3) h
                = Some (last_addr NULL (heap_start st) P)).
  { rewrite (hi_first _ _ Hinv3), E3. subst h.
    apply find_prev_seg.
    - exact (proj1 (proj1 (sizes_ok_app _ _) (wf_sizes _ _ _ _ Hwf))).
    - pose proof (wf_seg _ _ _ _ Hwf3) as Hsg. rewrite E3 in Hsg.
      apply seg_app in Hsg. exact (proj1 Hsg).
    - exact Hpos.
    - exact Hfuel. }
  rewrite Hfp.
  (* backward merge *)
  destruct (fwd_merge_head s Q) as (s1 & Q1 & Efm).
  rewrite Efm in Hinv3, Hev3.
  pose proof (free_backward_spec MAX st3 P (s1, false) Q1 h Hinv3 eq_refl) as Hbw.
  cbv zeta in Hbw. rewrite E3 in Hbw. fold h in Hbw.
  destruct (free_backward MAX h (last_addr NULL (heap_start st) P) st3)
    as [[] st' | st' |]; [| right; right; exact Hbw | exact Hbw].
  destruct Hbw as (Hev4 & Hcr4 & Hfr4).
  split; [| split; [| split; [| exact Hbnd]]].
  - unfold free_list. rewrite Efm.
    assert (Hev01 : evolves st (P ++ (s, true) :: Q) st2 (P ++ (s, false) :: Q) h).
    { destruct Hev1 as (A & B & C). rewrite E0, M0 in C.
      split; [| split; [exact B | exact C]].
      destruct A as (A1 & A2 & A3).
      split; [| split]; [rewrite A1 | rewrite A2 | rewrite A3]; reflexivity. }
    eapply evolves_trans; [exact Hev01 |].
    eapply evolves_trans; [exact Hev3 | exact Hev4].
  - rewrite Hcr4, Hcr3. subst st2. rewrite crit_set_count, Hcr1, C0. reflexivity.
  - pose proof (wf_block _ _ _ _ _ _ (hi_wf _ _ Hinv3)) as
      (_ & _ & _ & _ & _ & _ & _ & _ & _ & _ & _ & Hu3).
    cbv zeta in Hu3. rewrite E3 in Hu3. fold h in Hu3. cbn [snd Z.b2z] in Hu3.
    unfold IS_USED, size_of in *.
    rewrite (load32_ext (mem st3) (mem st') (h + 4))
      by (intros; apply Hfr4; lia).
    exact Hu3.
Qed.

(** * Further facts about well-formed heaps *)

Lemma sentinel_evolves st bs st' bs' ex :
  evolves st bs st' bs' ex -> sentinel st bs -> sentinel st' bs'.
Proof.
  intros ((_ & R2 & _) & Hi & _ & (Hsp & Hfr)) Hs.
  pose proof (wf_sizes _ _ _ _ (hi_wf _ _ Hi)) as Hz.
  unfold sentinel, GET_SIZE, size_of in *. rewrite R2, Hsp.
  rewrite (load32_ext (mem st) (mem st')); [exact Hs |].
  intros; apply Hfr; lia.
Qed.

Lemma sentinel_invalid MAX st bs :
  sentinel st bs -> validate_block MAX st (heap_start st + span bs) = false.
Proof.
  intros Hs. unfold validate_block.
  destruct (negb (IS_VALID_BLOCK st (heap_start st + span bs)));
    [reflexivity |].
  cbv zeta. unfold sentinel in Hs. rewrite Hs. reflexivity.
Qed.

(** The list walk of a test harness measures [count_free]. *)
Lemma measured_free_seg m :
  forall l a fuel,
    sizes_ok l -> seg m a l -> 0 < a ->
    next_of m (a + span l) = NULL -> IS_USED m (a + span l) = 1 ->
    (length l + 1 <= fuel)%nat ->
    measured_free fuel m a = count_free l.
Proof.
  induction l as [| b l IH]; intros a fuel Hs Hseg Ha Tn Tu Hf;
    (destruct fuel as [| fuel]; [cbn [length] in Hf; lia |]);
    cbn [measured_free count_free].
  - cbn [span] in *. rewrite Z.add_0_r in *.
    rewrite (nz_eqb a) by lia. rewrite Tu, Tn.
    change (1 =? 0) with false. cbv iota.
    destruct fuel; reflexivity.
  - apply sizes_ok_cons in Hs. destruct Hs as [[Hb0 Hb4] Hs].
    cbn [seg span] in *. destruct Hseg as (Hn & Hz & Hseg).
    unfold sizeof_memblock in *.
    rewrite (nz_eqb a) by lia.
    unfold IS_USED. rewrite Hz, flag_of_word by (apply mod4_even; exact Hb4).
    rewrite b2z_eqb0, Hn.
    rewrite (IH (a + 8 + fst b) fuel Hs Hseg ltac:(lia)).
    + destruct (snd b); reflexivity.
    + rewrite <- Tn. f_equal. lia.
    + rewrite <- Tu. f_equal. lia.
    + cbn [length] in Hf. lia.
Qed.

Lemma measured_free_inv st bs fuel :
  heap_inv st bs -> (length bs + 1 <= fuel)%nat ->
  measured_free fuel (mem st) (first_free st) = free_blocks_count st.
Proof.
  intros [Hff [Hpos Hal Hsz Hseg Tn Tu Hend Htop] Hc] Hf.
  rewrite Hff, Hc. apply measured_free_seg; assumption.
Qed.

(** Writing inside the payload of a block leaves the heap well-formed and
    every other block untouched. *)
Lemma payload_write_inv st bs h sz u m' :
  heap_inv st bs -> block_at (heap_start st) bs h = Some (sz, u) ->
  (forall x, x < h + 8 \/ h + 8 + sz <= x -> m' x = mem st x) ->
  evolves st bs (set_mem m' st) bs h.
Proof.
  intros Hinv Hb Hfr.
  destruct (block_at_split _ _ _ _ Hb) as (P & Q & -> & ->).
  pose proof (hi_wf _ _ Hinv) as Hwf.
  pose proof (wf_block _ _ _ _ _ _ Hwf) as
    (Hpos & Hh & Hh4 & Hb0 & Hb4 & HQ & Hend & Htop & Hn & Hs & Hg & Hu).
  cbv zeta in *. set (h := heap_start st + span P) in *. cbn [fst snd] in *.
  pose proof (wf_sizes _ _ _ _ Hwf) as Hsz.
  assert (Hsz' := Hsz).
  apply sizes_ok_app in Hsz'. destruct Hsz' as [HsP HsQ].
  apply sizes_ok_cons in HsQ. destruct HsQ as [Hsb HsQ].
  split; [split; [| split]; proj; reflexivity |].
  change (P ++ (sz, u) :: Q) with (P ++ [(sz, u)] ++ Q) in *.
  split; [| split].
  - constructor; proj.
    + exact (hi_first _ _ Hinv).
    + apply (wf_replace (mem st) m' _ P [(sz, u)] [(sz, u)] Q _ Hwf).
      * repeat constructor; apply Hsb.
      * reflexivity.
      * cbn [seg fst snd]. fold h. unfold next_of, size_of, sizeof_memblock.
        rewrite (load32_ext (mem st) m' h), (load32_ext (mem st) m' (h + 4))
          by (intros; apply Hfr; lia).
        rewrite Hn, Hs. auto.
      * cbn [span fst]. unfold sizeof_memblock. fold h.
        intros; apply Hfr; lia.
    + exact (hi_count _ _ Hinv).
  - proj. apply used_kept_replace.
    + exact Hsz.
    + repeat constructor; apply Hsb.
    + reflexivity.
    + cbn [span fst]. unfold sizeof_memblock. fold h. intros; apply Hfr; lia.
    + intros a s. cbn [block_at]. fold h.
      destruct (Z.eqb_spec a h); [intros _; assumption | discriminate].
  - proj. apply region_kept_replace; [exact HsQ | reflexivity | | exact HsP].
    cbn [span fst]. unfold sizeof_memblock. fold h. intros; apply Hfr; lia.
Qed.

(** The layout written by [mo_heap_init]. *)
Lemma init_inv MIN zone len st :
  0 <= MIN -> 0 < zone -> zone mod 4 = 0 ->
  2 * sizeof_memblock + MIN <= len -> zone + len + 3 < 2 ^ 32 ->
  let st' := mo_heap_init MIN zone len st in
  heap_inv st' [(ALIGN4 len - 16, false)]
  /\ sentinel st' [(ALIGN4 len - 16, false)]
  /\ heap_start st' = zone /\ heap_end st' = zone + ALIGN4 len
  /\ crit st' = crit st.
Proof.
  intros HM Hz Hz4 Hlen Htop st'.
  unfold sizeof_memblock in *.
  pose proof (ALIGN4_bounds len ltac:(lia) ltac:(lia)) as HL.
  pose proof (ALIGN4_mod4 len) as HL4.
  set (L := ALIGN4 len) in *.
  pose proof (mod4_even L HL4) as HLe.
  assert (HLe' : (L - 2 * 8) mod 2 = 0)
    by (apply even_sub; [assumption | reflexivity]).
  assert (Hst : st' = mkHeap
            (store32 (store32 (store32 (store32 (store32 (store32 (mem st)
               zone (zone + L - 8)) (zone + 4) (L - 16)) (zone + 4) (L - 16))
               (zone + L - 8) 0) (zone + L - 8 + 4) 0) (zone + L - 8 + 4) 1)
            zone zone (zone + L) 1 (crit st)).
  { subst st'. unfold mo_heap_init, NULL, sizeof_memblock.
    destruct (Z.eqb_spec zone 0); [lia |].
    destruct (Z.ltb_spec len (2 * 8 + MIN)); [lia |].
    cbn [orb]. fold L.
    rewrite (wrap_small (zone + L - 8)) by lia.
    unfold MARK_USED, MARK_FREE, write_size, write_next.
    rewrite !mem_set_mem, !crit_set_mem. unfold size_of. loads.
    change (2 * 8) with 16.
    repeat first
      [ rewrite (wrap_small (L - 16)) by lia
      | rewrite (land_lnot1_even (L - 16)) by assumption
      | rewrite (wrap_small (zone + L - 8 + 8)) by lia ].
    change (wrap 0) with 0. change (Z.lor 0 1) with 1.
    replace (zone + L - 8 + 8) with (zone + L) by lia.
    reflexivity. }
  rewrite Hst. cbn [heap_start heap_end crit].
  split; [| split; [| auto]].
  - constructor; cbn [first_free heap_start heap_end free_blocks_count mem].
    + reflexivity.
    + constructor.
      * exact Hz.
      * exact Hz4.
      * repeat constructor; cbn [fst]; [lia |].
        apply sub_mod4; [exact HL4 | reflexivity].
      * cbn [seg fst snd Z.b2z]. unfold next_of, size_of, sizeof_memblock.
        loads. rewrite !wrap_small by lia. repeat split; lia.
      * cbn [span fst]. unfold next_of, sizeof_memblock, NULL.
        replace (zone + (8 + (L - 16) + 0)) with (zone + L - 8) by lia.
        loads. reflexivity.
      * cbn [span fst]. unfold IS_USED, size_of, sizeof_memblock.
        replace (zone + (8 + (L - 16) + 0)) with (zone + L - 8) by lia.
        loads. reflexivity.
      * cbn [span fst]. unfold sizeof_memblock. lia.
      * lia.
    + reflexivity.
  - unfold sentinel. cbn [mem heap_start span fst].
    unfold GET_SIZE, size_of, sizeof_memblock.
    replace (zone + (8 + (L - 16) + 0)) with (zone + L - 8) by lia.
    loads. reflexivity.
Qed.

(** * The critical-section log, on arbitrary states *)

Lemma absorb_next_crit p st : crit (absorb_next p st) = crit st.
Proof. unfold absorb_next, write_next, write_size. proj. reflexivity. Qed.

Lemma coalesce_loop_crit MAX :
  forall fuel p st,
    match coalesce_loop MAX fuel p st with
    | Ret _ st' => crit st' = crit st
    | Panic st' => crit st' = crit st
    | Timeout => True
    end.
Proof.
  induction fuel as [| fuel IH]; intros p st; [exact I |].
  rewrite coalesce_loop_eq.
  destruct (negb (p =? NULL) && negb (next_of (mem st) p =? NULL));
    [| reflexivity].
  destruct (negb (validate_block MAX st p)); [reflexivity |].
  destruct ((IS_USED (mem st) p =? 0)
            && (IS_USED (mem st) (next_of (mem st) p) =? 0)).
  - specialize (IH p (set_count (wrap (free_blocks_count st - 1))
                                (absorb_next p st))).
    rewrite crit_set_count, absorb_next_crit in IH. exact IH.
  - apply IH.
Qed.

Lemma split_block_crit MIN b size st :
  match split_block MIN b size st with
  | Ret _ st' => crit st' = crit st
  | Panic st' => crit st' = crit st
  | Timeout => True
  end.
Proof.
  unfold split_block.
  destruct (size >? GET_SIZE (mem st) b); [reflexivity |].
  destruct (GET_SIZE (mem st) b - size <? sizeof_memblock + MIN);
    [reflexivity |].
  unfold MARK_FREE, write_size, write_next. proj. reflexivity.
Qed.

Lemma malloc_loop_crit MIN MAX :
  forall fuel p size st,
    match malloc_loop MIN MAX fuel p size st with
    | Ret _ st' => crit st' = Leave :: crit st
    | _ => True
    end.
Proof.
  induction fuel as [| fuel IH]; intros p size st; [exact I |].
  rewrite malloc_loop_eq.
  destruct (p =? NULL); [reflexivity |].
  destruct (negb (validate_block MAX st p)); [exact I |].
  destruct ((IS_USED (mem st) p =? 0) && (GET_SIZE (mem st) p >=? size));
    [| apply IH].
  pose proof (split_block_crit MIN p size st) as Hs.
  destruct (split_block MIN p size st) as [[] st1 | st1 |]; cbn [bind];
    [| exact I | exact I].
  cbv zeta.
  destruct (free_blocks_count (MARK_USED p st1) <=? 0); [exact I |].
  unfold MARK_USED, write_size. proj. rewrite Hs. reflexivity.
Qed.

Lemma free_forward_crit p st : crit (free_forward p st) = crit st.
Proof.
  unfold free_forward.
  destruct (negb (next_of (mem st) p =? NULL)
            && (IS_USED (mem st) (next_of (mem st) p) =? 0));
    [| reflexivity].
  rewrite crit_set_count. apply absorb_next_crit.
Qed.

Lemma free_backward_crit MAX p prev st :
  match free_backward MAX p prev st with
  | Ret _ st' => crit st' = Leave :: crit st
  | Panic st' => crit st' = Leave :: crit st
  | Timeout => True
  end.
Proof.
  unfold free_backward.
  destruct (negb (prev =? NULL) && (IS_USED (mem st) prev =? 0));
    [| reflexivity].
  destruct (negb (validate_block MAX st prev)); [reflexivity |].
  cbv zeta. unfold write_next, write_size. proj. reflexivity.
Qed.
(** * [realloc] on a well-formed heap *)

(** [split_block] on any block of a well-formed heap. *)
Lemma split_step MIN st P sz u Q size :
  heap_inv st (P ++ (sz, u) :: Q) ->
  0 <= MIN -> 0 <= size <= sz -> size mod 4 = 0 ->
  let h := heap_start st + span P in
  exists st1,
    split_block MIN h size st = Ret tt st1
    /\ evolves st (P ++ (sz, u) :: Q) st1
               (P ++ split_list MIN sz u size ++ Q) h
    /\ crit st1 = crit st
    /\ (forall x, h + 8 <= x < h + 8 + size -> mem st1 x = mem st x).
Proof.
  intros Hinv HM Hsize Hs4 h.
  pose proof (hi_wf _ _ Hinv) as Hwf.
  pose proof (hi_count _ _ Hinv) as Hc.
  pose proof (hi_first _ _ Hinv) as Hff.
  pose proof (count_range _ _ _ _ Hwf) as Hcr.
  pose proof (wf_sizes _ _ _ _ Hwf) as Hsz.
  destruct (split_block_wf MIN st P sz u Q size Hwf HM Hsize Hs4)
    as (st1 & Hsp & (R1 & R2 & R3) & Hcrit1 & Hwf1 & Hfr1 & Hc1 & Hpay).
  fold h in Hsp, Hfr1, Hpay.
  exists st1. split; [exact Hsp |].
  pose proof (wf_sizes _ _ _ _ Hwf1) as Hsz1.
  apply sizes_ok_app in Hsz. destruct Hsz as [HsP HsQ].
  apply sizes_ok_cons in HsQ. destruct HsQ as [_ HsQ].
  apply sizes_ok_app in Hsz1. destruct Hsz1 as [_ Hsz1].
  apply sizes_ok_app in Hsz1. destruct Hsz1 as [Hsl _].
  split; [| split; [exact Hcrit1 | exact Hpay]].
  split; [split; [| split]; assumption |].
  split.
  - constructor.
    + congruence.
    + rewrite R2, R3. exact Hwf1.
    + rewrite Hc1, Hc, !count_free_app, count_split_list.
      rewrite count_free_app in Hcr.
      cbn [count_free snd] in Hcr |- *. unfold sizeof_memblock.
      destruct (sz - size <? 8 + MIN); [lia |].
      rewrite wrap_small by lia. lia.
  - change (P ++ (sz, u) :: Q) with (P ++ [(sz, u)] ++ Q).
    split.
    + apply used_kept_replace.
      * exact (wf_sizes _ _ _ _ Hwf).
      * exact Hsl.
      * rewrite span_split_list. cbn [span fst]. unfold sizeof_memblock. lia.
      * cbn [span fst]. unfold sizeof_memblock. fold h. intros x Hx.
        apply Hfr1. lia.
      * intros a s. cbn [block_at]. fold h.
        destruct (Z.eqb_spec a h); [intros _; assumption | discriminate].
    + apply region_kept_replace; [exact HsQ | | | exact HsP].
      * rewrite span_split_list. cbn [span fst]. unfold sizeof_memblock. lia.
      * cbn [span fst]. unfold sizeof_memblock. fold h. intros x Hx.
        apply Hfr1. lia.
Qed.

(** Past its entry checks, [realloc] of a valid used block is one of four
    paths. *)
Lemma realloc_eq MIN MAX fuel size st P s Q :
  heap_inv st (P ++ (s, true) :: Q) -> 0 < size <= MAX -> 0 < s <= MAX ->
  let h := heap_start st + span P in
  let n := ALIGN4 size in
  realloc MIN MAX fuel (h + 8) size st =
  if (n <=? s) && (s - n <? 8 + MIN) then Ret (h + 8) st
  else if n <=? s then
    bind (split_block MIN h n st) (fun _ st1 =>
    bind (if free_blocks_count st1 >? COALESCE_THRESHOLD
          then selective_coalesce MAX fuel st1 else Ret tt st1) (fun _ st2 =>
    Ret (h + 8) (CRITICAL_LEAVE st2)))
  else if negb (next_of (mem st) h =? NULL)
          && (IS_USED (mem st) (next_of (mem st) h) =? 0)
          && (wrap (s + 8 + GET_SIZE (mem st) (next_of (mem st) h)) >=? n)
  then
    bind (split_block MIN h n
            (set_count (wrap (free_blocks_count st - 1)) (absorb_next h st)))
         (fun _ st1 =>
    bind (if free_blocks_count st1 >? COALESCE_THRESHOLD
          then selective_coalesce MAX fuel st1 else Ret tt st1) (fun _ st2 =>
    Ret (h + 8) (CRITICAL_LEAVE st2)))
  else
    bind (malloc MIN MAX fuel n st) (fun new_buf st1 =>
    if negb (new_buf =? NULL)
    then bind (free MAX fuel (h + 8)
                 (set_mem (memcpy (mem st1) new_buf (h + 8) (Z.min s n)) st1))
              (fun _ st2 => Ret new_buf st2)
    else Ret new_buf st1).
Proof.
  intros Hinv Hsize Hs h n.
  pose proof (hi_wf _ _ Hinv) as Hwf.
  pose proof (wf_block _ _ _ _ _ _ Hwf) as
    (Hpos & Hh & Hh4 & Hb0 & Hb4 & HQ & Hend & Htop & Hn & Hsw & Hg & Hu).
  fold h in Hh, Hh4, Hend, Hn, Hsw, Hg, Hu. cbn [fst snd] in *.
  unfold realloc.
  destruct (Z.gtb_spec size MAX); [lia |].
  rewrite (nz_eqb (h + 8)) by lia.
  destruct (Z.eqb_spec size 0); [lia |].
  cbv zeta. unfold sizeof_memblock.
  replace (h + 8 - 8) with h by lia.
  rewrite (wrap_small h) by lia.
  rewrite (wrap_small (h + 8)) by lia.
  pose proof (validate_block_wf MAX st P (s, true) Q Hwf) as Hv.
  fold h in Hv. cbn [fst] in Hv. rewrite Hv, Hu, Hg.
  destruct (Z.eqb_spec s 0); [lia |].
  destruct (Z.gtb_spec s MAX); [lia |].
  cbn [orb negb Z.b2z]. change (1 =? 0) with false. cbn [orb].
  reflexivity.
Qed.

Lemma evolves_any_ex st bs st' bs' ex :
  heap_inv st bs -> evolves st bs st' bs' 0 -> evolves st bs st' bs' ex.
Proof.
  intros Hinv (R & I & K & G).
  split; [exact R |]. split; [exact I |]. split; [| exact G].
  intros a sz Hb _. apply K; [exact Hb |].
  pose proof (hi_wf _ _ Hinv) as Hwf.
  pose proof (block_at_range _ _ _ _ (wf_sizes _ _ _ _ Hwf) Hb).
  pose proof (wf_pos _ _ _ _ Hwf). lia.
Qed.

Lemma memcpy_outside m dst src n x :
  x < dst \/ dst + n <= x -> memcpy m dst src n x = m x.
Proof.
  intros H. unfold memcpy.
  destruct (Z.leb_spec dst x); destruct (Z.ltb_spec x (dst + n));
    cbn [andb]; try reflexivity; lia.
Qed.

Lemma load8_memcpy m dst src n i :
  0 <= i < n -> load8 (memcpy m dst src n) (dst + i) = load8 m (src + i).
Proof.
  intros H. unfold load8 at 1. unfold memcpy.
  destruct (Z.leb_spec dst (dst + i)); [| lia].
  destruct (Z.ltb_spec (dst + i) (dst + n)); [| lia].
  cbn [andb]. replace (dst + i - dst) with i by lia.
  unfold load8. apply Z.mod_mod. lia.
Qed.

(** * Properties of the allocator on well-formed heaps *)

Lemma heap3_inv :
  heap_inv heap3 [(16, true); (16, true); (16, true); (168, false)].
Proof. solve_inv. Qed.

Lemma heap3_f2_inv :
  heap_inv heap3_f2 [(16, true); (16, false); (16, true); (168, false)].
Proof. solve_inv. Qed.

Lemma heap_shrunk_inv :
  heap_inv heap_shrunk [(16, true); (40, false); (168, false)].
Proof. solve_inv. Qed.

(** X1: on a well-formed heap the coalescing sweep terminates; when it
    returns, the block list is the swept list: the same extent, no two
    neighbours both free, every used block untouched, the counter exact and
    the critical-section log unchanged.  It can only panic on a zero-size
    block or when the list is larger than the maximum payload allows. *)
Theorem selective_coalesce_merges_all :
  forall MAX fuel st bs,
    heap_inv st bs -> (length bs + 2 <= fuel)%nat ->
    match selective_coalesce MAX fuel st with
    | Ret _ st' =>
        heap_inv st' (sweep_all bs)
        /\ no_adj_free (sweep_all bs) = true
        /\ span (sweep_all bs) = span bs
        /\ used_kept (heap_start st) bs (mem st) (sweep_all bs) (mem st') NULL
        /\ free_blocks_count st'
           = measured_free fuel (mem st') (first_free st')
        /\ crit st' = crit st
    | Panic _ => Exists (fun c => fst c = 0) bs \/ MAX + 8 < span bs
    | Timeout => False
    end.
Proof.
  intros MAX fuel st bs Hinv Hf.
  pose proof (coalesce_spec MAX fuel st bs Hinv Hf) as H.
  destruct (selective_coalesce MAX fuel st) as [[] st' | st' |];
    [| exact H | exact H].
  destruct H as ((_ & Hi & Hk & (Hsp & _)) & Hcr).
  split; [exact Hi |]. split; [apply naf_sweep_all |].
  split; [exact Hsp |]. split; [exact Hk |]. split; [| exact Hcr].
  symmetry. apply (measured_free_inv _ _ _ Hi).
  pose proof (length_sweep_all bs). lia.
Qed.

Lemma selective_coalesce_merges_all_witness :
  exists st',
    selective_coalesce MAX30 8 heap_shrunk = Ret tt st'
    /\ heap_inv st' [(16, true); (216, false)]
    /\ free_blocks_count st' = 1.
Proof.
  pose proof (selective_coalesce_merges_all MAX30 8 heap_shrunk _
                heap_shrunk_inv ltac:(cbn [length]; lia)) as H.
  assert (Er : is_ret (selective_coalesce MAX30 8 heap_shrunk) = true)
    by (vm_compute; reflexivity).
  destruct (selective_coalesce MAX30 8 heap_shrunk) as [[] st' | |];
    try discriminate Er.
  exists st'. split; [reflexivity |].
  destruct H as (Hi & _).
  change (sweep_all [(16, true); (40, false); (168, false)])
    with [(16, true); (216, false)] in Hi.
  split; [exact Hi | exact (hi_count _ _ Hi)].
Defined.

(** X2: [free] of a live block on a well-formed heap terminates; when it
    returns, the block is free and merged with a free successor and a free
    predecessor, the heap is well-formed again with an exact counter, every
    other used block is untouched, a heap without adjacent free blocks stays
    so, and the critical section was entered and left once.  It panics only
    if the block, or a free predecessor, has a size [validate_block]
    rejects. *)
Theorem free_merges_neighbours :
  forall MAX fuel st P s Q,
    heap_inv st (P ++ (s, true) :: Q) -> (length P < fuel)%nat ->
    let h := heap_start st + span P in
    match free MAX fuel (h + 8) st with
    | Ret _ st' =>
        heap_inv st' (free_list P s Q)
        /\ (no_adj_free (P ++ (s, true) :: Q) = true ->
            no_adj_free (free_list P s Q) = true)
        /\ span (free_list P s Q) = span (P ++ (s, true) :: Q)
        /\ used_kept (heap_start st) (P ++ (s, true) :: Q) (mem st)
                     (free_list P s Q) (mem st') h
        /\ crit st' = Leave :: Enter :: crit st
    | Panic _ =>
        s = 0 \/ s > MAX
        \/ exists P' bp, P = P' ++ [bp] /\ snd bp = false
                         /\ (fst bp = 0 \/ fst bp > MAX)
    | Timeout => False
    end.
Proof.
  intros MAX fuel st P s Q Hinv Hf h.
  pose proof (free_spec MAX fuel st P s Q Hinv Hf) as H.
  cbv zeta in H. fold h in H.
  destruct (free MAX fuel (h + 8) st) as [[] st' | st' |];
    [| exact H | exact H].
  destruct H as ((_ & Hi & Hk & (Hsp & _)) & Hcr & _).
  split; [exact Hi |]. split; [apply naf_free |].
  split; [exact Hsp |]. split; [exact Hk | exact Hcr].
Qed.

Lemma free_merges_neighbours_witness :
  exists st',
    free MAX30 8 4104 heap3_f2 = Ret tt st'
    /\ heap_inv st' [(40, false); (16, true); (168, false)]
    /\ free_blocks_count st' = 2.
Proof.
  pose proof (free_merges_neighbours MAX30 8 heap3_f2 [] 16
                [(16, false); (16, true); (168, false)]
                heap3_f2_inv ltac:(cbn [length]; lia)) as H.
  cbv zeta in H.
  match type of H with
  | match free _ _ ?a _ with _ => _ end =>
      assert (Ea : a = 4104) by (vm_compute; reflexivity); rewrite Ea in H
  end.
  assert (Er : is_ret (free MAX30 8 4104 heap3_f2) = true)
    by (vm_compute; reflexivity).
  destruct (free MAX30 8 4104 heap3_f2) as [[] st' | |];
    try discriminate Er.
  exists st'. split; [reflexivity |].
  destruct H as (Hi & _).
  change (free_list [] 16 [(16, false); (16, true); (168, false)])
    with [(40, false); (16, true); (168, false)] in Hi.
  split; [exact Hi | exact (hi_count _ _ Hi)].
Defined.

(** X3: [free] detects misuse.  A null pointer is ignored; a pointer whose
    header fails [validate_block] or is not marked used ends in [panic]
    before any byte of the heap is written; and on a well-formed heap, once
    [free] of a live block has returned, a second [free] of the same
    pointer panics. *)
Theorem free_detects_misuse :
  forall MAX,
    (forall fuel st, free MAX fuel NULL st = Ret tt st)
    /\ (forall fuel ptr st,
           ptr <> NULL ->
           validate_block MAX st (wrap (ptr - sizeof_memblock)) = false
           \/ IS_USED (mem st) (wrap (ptr - sizeof_memblock)) = 0 ->
           free MAX fuel ptr st = Panic (CRITICAL_LEAVE (CRITICAL_ENTER st)))
    /\ (forall fuel fuel' st P s Q st',
           heap_inv st (P ++ (s, true) :: Q) -> (length P < fuel)%nat ->
           free MAX fuel (heap_start st + span P + 8) st = Ret tt st' ->
           free MAX fuel' (heap_start st + span P + 8) st'
           = Panic (CRITICAL_LEAVE (CRITICAL_ENTER st'))).
Proof.
  intros MAX. split; [reflexivity |]. split.
  - intros fuel ptr st Hp Hbad. rewrite free_eq.
    destruct (Z.eqb_spec ptr NULL); [contradiction |]. cbv zeta.
    change (validate_block MAX (CRITICAL_ENTER st))
      with (validate_block MAX st).
    change (mem (CRITICAL_ENTER st)) with (mem st).
    destruct Hbad as [Hv | Hu]; [rewrite Hv; reflexivity |].
    rewrite Hu. rewrite orb_true_r. reflexivity.
  - intros fuel fuel' st P s Q st' Hinv Hf Hfree.
    pose proof (free_spec MAX fuel st P s Q Hinv Hf) as H.
    cbv zeta in H. rewrite Hfree in H.
    destruct H as ((R & Hi & _) & _ & Hu & _).
    pose proof (wf_block _ _ _ _ _ _ (hi_wf _ _ Hinv)) as
      (Hpos & Hh & _ & Hs0 & _ & HQ0 & Hend & Htop & _).
    cbv zeta in *. set (h := heap_start st + span P) in *.
    cbn [fst] in Hs0, Hend.
    rewrite free_eq. rewrite (nz_eqb (h + 8)) by lia. cbv zeta.
    unfold sizeof_memblock. replace (h + 8 - 8) with h by lia.
    rewrite (wrap_small h) by lia.
    change (mem (CRITICAL_ENTER st')) with (mem st').
    rewrite Hu. rewrite orb_true_r. reflexivity.
Qed.

Lemma free_detects_misuse_witness :
  free MAX30 8 4100 heap3 = Panic (CRITICAL_LEAVE (CRITICAL_ENTER heap3))
  /\ exists st',
      free MAX30 8 4128 heap3 = Ret tt st'
      /\ free MAX30 8 4128 st' = Panic (CRITICAL_LEAVE (CRITICAL_ENTER st')).
Proof.
  destruct (free_detects_misuse MAX30) as (_ & Hbad & Hdbl).
  split.
  - apply Hbad; [discriminate |]. left. vm_compute; reflexivity.
  - assert (Er : is_ret (free MAX30 8 4128 heap3) = true)
      by (vm_compute; reflexivity).
    destruct (free MAX30 8 4128 heap3) as [[] st' | |] eqn:E;
      try discriminate Er.
    exists st'. split; [reflexivity |].
    assert (Ea : heap_start heap3 + span [(16, true)] + 8 = 4128)
      by (vm_compute; reflexivity).
    rewrite <- Ea.
    apply (Hdbl 8%nat 8%nat heap3 [(16, true)] 16 [(16, true); (168, false)]).
    + exact heap3_inv.
    + cbn [length]; lia.
    + rewrite Ea. exact E.
Defined.

(** X4: [malloc] is first-fit.  On a well-formed heap, for a request within
    the limits, a non-null result is the payload of the first free block, in
    address order, of at least the normalised size (after the sweep, when
    more than 8 blocks are free); the pointer is word-aligned and the block
    lies inside the region; the heap is well-formed again, blocks that were
    in use are untouched, a heap without adjacent free blocks stays so, and
    the critical section was entered and left once. *)
Theorem malloc_first_fit :
  forall MIN MAX fuel size st bs,
    heap_inv st bs ->
    0 <= MIN -> MIN mod 4 = 0 -> 0 < size <= MAX -> MAX + 3 < 2 ^ 32 ->
    (length bs + 2 <= fuel)%nat ->
    let n := norm_size MIN size in
    let bs1 := if free_blocks_count st >? COALESCE_THRESHOLD
               then sweep_all bs else bs in
    match malloc MIN MAX fuel size st with
    | Ret r st' =>
        r <> NULL ->
        exists Q1 sz Q2,
          bs1 = Q1 ++ (sz, false) :: Q2
          /\ Forall (fun b => snd b = true \/ fst b < n) Q1
          /\ size <= n <= sz
          /\ r = heap_start st + span Q1 + 8
          /\ r mod 4 = 0 /\ heap_start st < r /\ r + sz + 8 <= heap_end st
          /\ heap_inv st' (Q1 ++ split_list MIN sz true n ++ Q2)
          /\ (no_adj_free bs = true ->
              no_adj_free (Q1 ++ split_list MIN sz true n ++ Q2) = true)
          /\ used_kept (heap_start st) bs (mem st)
                       (Q1 ++ split_list MIN sz true n ++ Q2) (mem st') NULL
          /\ crit st' = Leave :: Enter :: crit st
    | Panic _ => True
    | Timeout => False
    end.
Proof.
  intros MIN MAX fuel size st bs Hinv HM HM4 Hsize HMAX Hf n bs1.
  pose proof (malloc_wf MIN MAX fuel size st bs Hinv HM HM4 Hsize HMAX Hf)
    as H.
  cbv zeta in H. fold n bs1 in H.
  destruct (norm_size_props MIN size HM HM4 ltac:(lia) ltac:(lia))
    as (Hn1 & _). fold n in Hn1.
  destruct (malloc MIN MAX fuel size st) as [r st' | st' |];
    [| exact I | exact H].
  intros Hr. destruct H as [Hcr [(Hr0 & _) | H]]; [contradiction |].
  destruct H as (Q1 & sz & Q2 & E & Hle & Hb & Hff & Haddr & Hev).
  destruct Hev as ((_ & R2 & R3) & Hi & Hk & _).
  exists Q1, sz, Q2.
  pose proof (hi_wf _ _ Hi) as Hwf.
  pose proof (wf_sizes _ _ _ _ Hwf) as Hsz.
  apply sizes_ok_app in Hsz. destruct Hsz as [HsQ1 Hsz].
  apply sizes_ok_app in Hsz. destruct Hsz as [_ HsQ2].
  pose proof (span_nonneg _ HsQ1). pose proof (span_nonneg _ HsQ2).
  pose proof (span_mod4 _ HsQ1) as H4.
  destruct Hwf as [Hpos Hal _ _ _ _ Hend Htop].
  rewrite !span_app, span_split_list in Hend.
  rewrite R2 in Hpos, Hal, Hend. rewrite R3 in Hend.
  unfold sizeof_memblock in *.
  split; [exact E |]. split; [exact Hff |]. split; [lia |].
  split; [exact Haddr |].
  split; [subst r; apply add_mod4; [apply add_mod4; assumption | reflexivity] |].
  split; [lia |]. split; [lia |]. split; [exact Hi |].
  split; [| split; [exact Hk | exact Hcr]].
  intros Hnaf. apply naf_alloc. rewrite <- E. subst bs1.
  destruct (free_blocks_count st >? COALESCE_THRESHOLD);
    [apply naf_sweep_all | exact Hnaf].
Qed.

Lemma malloc_first_fit_witness :
  exists st',
    malloc MIN8 MAX30 8 10 heap3_f2 = Ret 4128 st'
    /\ (exists bs', heap_inv st' bs')
    /\ crit st' = Leave :: Enter :: crit heap3_f2.
Proof.
  pose proof (malloc_first_fit MIN8 MAX30 8 10 heap3_f2 _ heap3_f2_inv
                ltac:(unfold MIN8; lia) ltac:(reflexivity)
                ltac:(unfold MAX30; lia) ltac:(unfold MAX30; lia)
                ltac:(cbn [length]; lia)) as H.
  cbv zeta in H.
  assert (Er : ret_value (malloc MIN8 MAX30 8 10 heap3_f2) = Some 4128)
    by (vm_compute; reflexivity).
  destruct (malloc MIN8 MAX30 8 10 heap3_f2) as [r st' | |];
    try discriminate Er.
  inversion Er; subst r.
  exists st'. split; [reflexivity |].
  destruct (H ltac:(discriminate))
    as (Q1 & sz & Q2 & _ & _ & _ & _ & _ & _ & _ & Hi & _ & _ & Hcr).
  split; [eexists; exact Hi | exact Hcr].
Defined.

(** X5: on a well-formed heap that ends in the zero-size sentinel, [malloc]
    with a size within the limits never returns null: when no free block
    can hold the normalised size the walk reaches the sentinel,
    [validate_block] rejects it and the call panics. *)
Theorem malloc_exhaustion_is_panic :
  forall MIN MAX fuel size st bs,
    heap_inv st bs -> sentinel st bs ->
    0 <= MIN -> MIN mod 4 = 0 -> 0 < size <= MAX -> MAX + 3 < 2 ^ 32 ->
    (length bs + 2 <= fuel)%nat ->
    let n := norm_size MIN size in
    let bs1 := if free_blocks_count st >? COALESCE_THRESHOLD
               then sweep_all bs else bs in
    match malloc MIN MAX fuel size st with
    | Ret r _ => r <> NULL /\ Exists (fits n) bs1
    | Panic _ => True
    | Timeout => False
    end
    /\ (Forall (fun b => snd b = true \/ fst b < n) bs1 ->
        is_panic (malloc MIN MAX fuel size st) = true).
Proof.
  intros MIN MAX fuel size st bs Hinv Hsen HM HM4 Hsize HMAX Hf n bs1.
  pose proof (malloc_wf MIN MAX fuel size st bs Hinv HM HM4 Hsize HMAX Hf)
    as H.
  cbv zeta in H. fold n bs1 in H.
  assert (Hret : forall r st', malloc MIN MAX fuel size st = Ret r st' ->
                               r <> NULL /\ Exists (fits n) bs1).
  { intros r st' E. rewrite E in H.
    destruct H as [_ [(_ & Hev & Hv) | H]].
    - exfalso.
      pose proof (sentinel_evolves _ _ _ _ _ Hev Hsen) as Hs'.
      pose proof (sentinel_invalid MAX _ _ Hs') as Hv'.
      destruct Hev as ((_ & R2 & _) & _ & _ & (Hsp & _)).
      rewrite R2, Hsp in Hv'. rewrite Hv in Hv'. discriminate.
    - destruct H as (Q1 & sz & Q2 & E1 & Hle & Hb & _ & Ha & Hev).
      destruct Hev as ((_ & R2 & _) & Hi & _).
      pose proof (wf_pos _ _ _ _ (hi_wf _ _ Hi)) as Hpos. rewrite R2 in Hpos.
      pose proof (wf_sizes _ _ _ _ (hi_wf _ _ Hi)) as Hsz.
      apply sizes_ok_app in Hsz. destruct Hsz as [HsQ1 _].
      pose proof (span_nonneg _ HsQ1).
      split; [unfold NULL; lia |].
      rewrite E1. apply Exists_app. right. apply Exists_cons_hd.
      split; [reflexivity | exact Hle]. }
  split.
  - destruct (malloc MIN MAX fuel size st) as [r st' | st' |];
      [| exact I | exact H].
    apply (Hret r st' eq_refl).
  - intros Hno.
    destruct (malloc MIN MAX fuel size st) as [r st' | st' |];
      [| reflexivity | contradiction].
    exfalso. destruct (Hret r st' eq_refl) as [_ Hex].
    exact (Forall_Exists_fits _ _ Hno Hex).
Qed.

Lemma heap256_sentinel : sentinel heap256 [(240, false)].
Proof. vm_compute; reflexivity. Qed.

Lemma malloc_exhaustion_is_panic_witness :
  is_panic (malloc MIN8 MAX30 8 1000 heap256) = true.
Proof.
  apply (malloc_exhaustion_is_panic MIN8 MAX30 8 1000 heap256 [(240, false)]
           heap256_inv heap256_sentinel
           ltac:(unfold MIN8; lia) ltac:(reflexivity)
           ltac:(unfold MAX30; lia) ltac:(unfold MAX30; lia)
           ltac:(cbn [length]; lia)).
  assert (F : (free_blocks_count heap256 >? COALESCE_THRESHOLD) = false)
    by (vm_compute; reflexivity).
  rewrite F. constructor; [| constructor].
  right. vm_compute; reflexivity.
Defined.

(** X6: [malloc] succeeds when it can.  On a well-formed heap ending in the
    sentinel, whose blocks have non-zero sizes and whose extent is within
    the maximum payload, a request within the limits that some free block
    can hold returns a non-null pointer. *)
Theorem malloc_succeeds_when_a_block_fits :
  forall MIN MAX fuel size st bs,
    heap_inv st bs -> sentinel st bs ->
    0 <= MIN -> MIN mod 4 = 0 -> 0 < size <= MAX -> MAX + 3 < 2 ^ 32 ->
    (length bs + 2 <= fuel)%nat ->
    Forall (fun b => 0 < fst b) bs -> span bs <= MAX + 8 ->
    Exists (fits (norm_size MIN size)) bs ->
    exists r st', malloc MIN MAX fuel size st = Ret r st' /\ r <> NULL.
Proof.
  intros MIN MAX fuel size st bs Hinv Hsen HM HM4 Hsize HMAX Hf
         Hpos Hspan Hfit.
  pose proof (malloc_wf MIN MAX fuel size st bs Hinv HM HM4 Hsize HMAX Hf)
    as H.
  cbv zeta in H.
  set (n := norm_size MIN size) in *.
  set (bs1 := if free_blocks_count st >? COALESCE_THRESHOLD
              then sweep_all bs else bs) in *.
  pose proof (wf_sizes _ _ _ _ (hi_wf _ _ Hinv)) as Hsz.
  assert (Hfit1 : Exists (fits n) bs1).
  { subst bs1. destruct (free_blocks_count st >? COALESCE_THRESHOLD);
      [apply sweep_all_fits; assumption | exact Hfit]. }
  assert (Hpos1 : Forall (fun b => 0 < fst b) bs1).
  { subst bs1. destruct (free_blocks_count st >? COALESCE_THRESHOLD);
      [apply sweep_all_pos; assumption | exact Hpos]. }
  destruct (malloc MIN MAX fuel size st) as [r st' | st' |] eqn:E.
  - exists r, st'. split; [reflexivity |].
    destruct H as [_ [(Hr0 & Hev & Hv) | H]].
    + exfalso.
      pose proof (sentinel_evolves _ _ _ _ _ Hev Hsen) as Hs'.
      pose proof (sentinel_invalid MAX _ _ Hs') as Hv'.
      destruct Hev as ((_ & R2 & _) & _ & _ & (Hsp & _)).
      rewrite R2, Hsp in Hv'. rewrite Hv in Hv'. discriminate.
    + destruct H as (Q1 & sz & Q2 & E1 & Hle & Hb & _ & Ha & Hev).
      destruct Hev as ((_ & R2 & _) & Hi & _).
      pose proof (wf_pos _ _ _ _ (hi_wf _ _ Hi)) as Hp. rewrite R2 in Hp.
      pose proof (wf_sizes _ _ _ _ (hi_wf _ _ Hi)) as Hsz'.
      apply sizes_ok_app in Hsz'. destruct Hsz' as [HsQ1 _].
      pose proof (span_nonneg _ HsQ1). unfold NULL; lia.
  - exfalso. destruct H as [[Hz | Hbig] | [Hbad | Hno]].
    + apply Exists_exists in Hz. destruct Hz as (b & Hin & Hb).
      rewrite Forall_forall in Hpos. specialize (Hpos b Hin). lia.
    + lia.
    + (* every block of the searched list has a valid size *)
      assert (Hsp1 : span bs1 = span bs /\ sizes_ok bs1).
      { subst bs1. destruct (free_blocks_count st >? COALESCE_THRESHOLD);
          [| auto].
        destruct bs as [| b Q]; [auto |]. cbn [sweep_all].
        split; [apply span_sweep |].
        pose proof (coalesce_spec MAX (S (S (length (b :: Q)))) st _ Hinv
                      ltac:(lia)) as Hc.
        destruct (selective_coalesce MAX _ st) as [[] s1 | s1 |].
        - destruct Hc as ((_ & Hi & _) & _).
          exact (wf_sizes _ _ _ _ (hi_wf _ _ Hi)).
        - exfalso. destruct Hc as [Hz | Hbig].
          + apply Exists_exists in Hz. destruct Hz as (c & Hin & Hc).
            rewrite Forall_forall in Hpos. specialize (Hpos c Hin). lia.
          + lia.
        - contradiction. }
      destruct Hsp1 as [Hsp1 Hs1].
      pose proof (size_le_span _ Hs1) as Hle.
      apply Exists_exists in Hbad. destruct Hbad as (b & Hin & Hb).
      rewrite Forall_forall in Hle, Hpos1.
      specialize (Hle b Hin). specialize (Hpos1 b Hin). lia.
    + exact (Forall_Exists_fits _ _ Hno Hfit1).
  - contradiction.
Qed.

Lemma malloc_succeeds_when_a_block_fits_witness :
  exists r st', malloc MIN8 MAX30 8 100 heap256 = Ret r st' /\ r <> NULL.
Proof.
  apply (malloc_succeeds_when_a_block_fits MIN8 MAX30 8 100 heap256
           [(240, false)] heap256_inv heap256_sentinel);
    try (unfold MIN8, MAX30; lia); try reflexivity.
  - cbn [length]; lia.
  - repeat constructor.
  - cbn [span fst]. unfold sizeof_memblock, MAX30. lia.
  - constructor. split; [reflexivity |]. vm_compute. discriminate.
Defined.

(** X7: allocation followed by release is a round trip.  On a well-formed
    heap without adjacent free blocks, freeing the pointer [malloc] has just
    returned succeeds and restores the block list and the counter; the
    blocks that were in use are untouched throughout. *)
Theorem malloc_then_free_restores :
  forall MIN MAX fuel size st bs r st1,
    heap_inv st bs -> no_adj_free bs = true ->
    0 <= MIN -> MIN mod 4 = 0 -> 0 < size <= MAX -> MAX + 3 < 2 ^ 32 ->
    (length bs + 2 <= fuel)%nat ->
    malloc MIN MAX fuel size st = Ret r st1 -> r <> NULL ->
    exists st2,
      free MAX fuel r st1 = Ret tt st2
      /\ heap_inv st2 bs
      /\ free_blocks_count st2 = free_blocks_count st
      /\ used_kept (heap_start st) bs (mem st) bs (mem st2) NULL.
Proof.
  intros MIN MAX fuel size st bs r st1 Hinv Hnaf HM HM4 Hsize HMAX Hf Hm Hr.
  pose proof (malloc_wf MIN MAX fuel size st bs Hinv HM HM4 Hsize HMAX Hf)
    as H.
  cbv zeta in H. rewrite Hm in H.
  destruct (norm_size_props MIN size HM HM4 ltac:(lia) ltac:(lia))
    as (Hn1 & _ & _ & Hn0 & _).
  set (n := norm_size MIN size) in *.
  assert (Ebs : (if free_blocks_count st >? COALESCE_THRESHOLD
                 then sweep_all bs else bs) = bs).
  { destruct (free_blocks_count st >? COALESCE_THRESHOLD);
      [apply sweep_all_id; exact Hnaf | reflexivity]. }
  rewrite Ebs in H.
  destruct H as [_ [(Hr0 & _) | H]]; [contradiction |].
  destruct H as (Q1 & sz & Q2 & E & Hle & Hb & _ & Ha & Hev).
  destruct (split_list_head MIN sz true n) as (s' & tl & Esl & _ & Hs').
  rewrite Esl in Hev. cbn [app] in Hev.
  pose proof Hev as ((_ & R2 & _) & Hi1 & Hk1 & _).
  assert (Hlen : (length Q1 < fuel)%nat).
  { subst bs. rewrite length_app in Hf. lia. }
  pose proof (free_spec MAX fuel st1 Q1 s' (tl ++ Q2) Hi1 Hlen) as HF.
  cbv zeta in HF. rewrite R2, <- Ha in HF.
  rewrite (free_list_alloc_id MIN Q1 sz n Q2 s' tl) in HF
    by (try rewrite <- E; assumption).
  rewrite <- E in HF.
  destruct (free MAX fuel r st1) as [[] st2 | st2 |].
  - exists st2. split; [reflexivity |].
    destruct HF as ((_ & Hi2 & Hk2 & _) & _).
    split; [exact Hi2 |].
    split; [rewrite (hi_count _ _ Hi2), (hi_count _ _ Hinv); reflexivity |].
    intros a s0 Hba Hne.
    destruct (Hk1 a s0 Hba Hne) as [Hb1 Hm1].
    assert (Hah : a <> heap_start st + span Q1).
    { intros ->. rewrite E in Hba.
      pose proof (wf_sizes _ _ _ _ (hi_wf _ _ Hinv)) as Hsz. rewrite E in Hsz.
      apply sizes_ok_app in Hsz. destruct Hsz as [HsQ1 _].
      rewrite (block_at_mid _ Q1 (sz, false) Q2 HsQ1) in Hba.
      discriminate. }
    rewrite R2 in Hk2.
    destruct (Hk2 a s0 Hb1 Hah) as [Hb2 Hm2].
    split; [exact Hb2 |].
    intros x Hx. rewrite Hm2, Hm1 by exact Hx. reflexivity.
  - exfalso. destruct HF as [Hz | [Hbig | (P' & bp & EP & Hbp & _)]].
    + destruct Hs'; lia.
    + destruct Hs'; lia.
    + rewrite E in Hnaf. rewrite naf_app in Hnaf.
      apply andb_true_iff in Hnaf. destruct Hnaf as [_ Hl].
      cbn [hd_used snd] in Hl. rewrite orb_false_r in Hl.
      rewrite EP, last_used_snoc, Hbp in Hl. discriminate.
  - contradiction.
Qed.

Lemma malloc_then_free_restores_witness :
  exists st1 st2,
    malloc MIN8 MAX30 8 64 heap256 = Ret 4104 st1
    /\ free MAX30 8 4104 st1 = Ret tt st2
    /\ heap_inv st2 [(240, false)].
Proof.
  assert (Er : ret_value (malloc MIN8 MAX30 8 64 heap256) = Some 4104)
    by (vm_compute; reflexivity).
  destruct (malloc MIN8 MAX30 8 64 heap256) as [r st1 | |] eqn:E;
    try discriminate Er.
  inversion Er; subst r.
  destruct (malloc_then_free_restores MIN8 MAX30 8 64 heap256 [(240, false)]
              4104 st1 heap256_inv eq_refl
              ltac:(unfold MIN8; lia) ltac:(reflexivity)
              ltac:(unfold MAX30; lia) ltac:(unfold MAX30; lia)
              ltac:(cbn [length]; lia) E ltac:(discriminate))
    as (st2 & Hfree & Hi & _).
  exists st1, st2. split; [reflexivity |]. split; [exact Hfree | exact Hi].
Defined.

(** X8: [mo_heap_init] establishes the invariants.  For a non-null
    word-aligned region of at least two headers plus the minimum payload
    that fits the address space (after rounding the length up), the result
    is a well-formed heap of one free block followed by the zero-size
    sentinel, with an exact counter and nothing logged. *)
Theorem mo_heap_init_establishes_invariants :
  forall MIN zone len st,
    0 <= MIN -> 0 < zone -> zone mod 4 = 0 ->
    2 * sizeof_memblock + MIN <= len -> zone + len + 3 < 2 ^ 32 ->
    let st' := mo_heap_init MIN zone len st in
    let bs := [(ALIGN4 len - 2 * sizeof_memblock, false)] in
    heap_inv st' bs /\ sentinel st' bs /\ no_adj_free bs = true
    /\ heap_start st' = zone /\ heap_end st' = zone + ALIGN4 len
    /\ measured_free 2 (mem st') (first_free st') = 1
    /\ crit st' = crit st.
Proof.
  intros MIN zone len st HM Hz Hz4 Hlen Htop st' bs.
  destruct (init_inv MIN zone len st HM Hz Hz4 Hlen Htop)
    as (Hi & Hs & Hst & Hen & Hcr).
  fold st' in Hi, Hs, Hst, Hen, Hcr.
  change (2 * sizeof_memblock) with 16 in bs. fold bs in Hi, Hs.
  split; [exact Hi |]. split; [exact Hs |]. split; [reflexivity |].
  split; [exact Hst |]. split; [exact Hen |]. split; [| exact Hcr].
  rewrite (measured_free_inv st' bs 2 Hi ltac:(unfold bs; cbn [length]; lia)).
  exact (hi_count _ _ Hi).
Qed.

Lemma mo_heap_init_establishes_invariants_witness :
  heap_inv (mo_heap_init MIN8 4096 250 blank) [(236, false)].
Proof.
  pose proof (mo_heap_init_establishes_invariants MIN8 4096 250 blank
                ltac:(unfold MIN8; lia) ltac:(lia) ltac:(reflexivity)
                ltac:(unfold MIN8, sizeof_memblock; lia) ltac:(lia)) as H.
  cbv zeta in H. destruct H as (Hi & _).
  change (ALIGN4 250 - 2 * sizeof_memblock) with 236 in Hi. exact Hi.
Defined.

(** X9: [malloc] and [free] never return with the critical section held.
    On any state whatsoever, a call that returns either rejected its
    argument before touching anything (size zero or above the maximum; null
    pointer), or logged exactly one [Enter] followed by one [Leave]; and
    every panic of [free] comes after the [Leave]. *)
Theorem malloc_free_critical_section_balanced :
  forall MIN MAX fuel st,
    (forall size r st',
        malloc MIN MAX fuel size st = Ret r st' ->
        (st' = st /\ r = NULL /\ (size = 0 \/ size > MAX))
        \/ crit st' = Leave :: Enter :: crit st)
    /\ (forall ptr st',
           free MAX fuel ptr st = Ret tt st' ->
           (ptr = NULL /\ st' = st)
           \/ crit st' = Leave :: Enter :: crit st)
    /\ (forall ptr st',
           free MAX fuel ptr st = Panic st' ->
           crit st' = Leave :: Enter :: crit st).
Proof.
  intros MIN MAX fuel st. split; [| split].
  - intros size r st' Hm. rewrite malloc_eq in Hm.
    destruct ((size =? 0) || (size >? MAX)) eqn:G.
    + left. inversion Hm; subst. split; [reflexivity |].
      split; [reflexivity |].
      apply orb_true_iff in G. destruct G as [G | G].
      * left. apply Z.eqb_eq. exact G.
      * right. destruct (Z.gtb_spec size MAX); [lia | discriminate].
    + right.
      assert (Hpre : match (if free_blocks_count (CRITICAL_ENTER st)
                                 >? COALESCE_THRESHOLD
                            then selective_coalesce MAX fuel (CRITICAL_ENTER st)
                            else Ret tt (CRITICAL_ENTER st)) with
                     | Ret _ s1 => crit s1 = Enter :: crit st
                     | _ => True
                     end).
      { destruct (free_blocks_count (CRITICAL_ENTER st) >? COALESCE_THRESHOLD);
          [| reflexivity].
        unfold selective_coalesce.
        pose proof (coalesce_loop_crit MAX fuel
                      (first_free (CRITICAL_ENTER st)) (CRITICAL_ENTER st)) as Hc.
        destruct (coalesce_loop MAX fuel _ (CRITICAL_ENTER st));
          [exact Hc | exact I | exact I]. }
      destruct (if free_blocks_count (CRITICAL_ENTER st) >? COALESCE_THRESHOLD
                then selective_coalesce MAX fuel (CRITICAL_ENTER st)
                else Ret tt (CRITICAL_ENTER st)) as [[] s1 | s1 |];
        cbn [bind] in Hm; try discriminate Hm.
      pose proof (malloc_loop_crit MIN MAX fuel (first_free s1)
                    (norm_size MIN size) s1) as Hl.
      rewrite Hm in Hl. rewrite Hl, Hpre. reflexivity.
  - intros ptr st' Hf. rewrite free_eq in Hf.
    destruct (Z.eqb_spec ptr NULL) as [-> | Hp].
    + left. inversion Hf; auto.
    + right. cbv zeta in Hf.
      destruct (negb (validate_block MAX (CRITICAL_ENTER st)
                        (wrap (ptr - sizeof_memblock)))
                || (IS_USED (mem (CRITICAL_ENTER st))
                      (wrap (ptr - sizeof_memblock)) =? 0));
        [discriminate Hf |].
      match type of Hf with
      | match find_prev _ _ _ _ _ with _ => _ end = _ =>
          destruct (find_prev fuel _ NULL _ (wrap (ptr - sizeof_memblock)))
            as [prev |]; [| discriminate Hf]
      end.
      match type of Hf with
      | free_backward MAX ?p ?q ?s = _ =>
          pose proof (free_backward_crit MAX p q s) as Hb; rewrite Hf in Hb
      end.
      rewrite Hb, free_forward_crit, crit_set_count.
      unfold MARK_FREE, write_size. proj. reflexivity.
  - intros ptr st' Hf. rewrite free_eq in Hf.
    destruct (Z.eqb_spec ptr NULL) as [-> | Hp]; [discriminate Hf |].
    cbv zeta in Hf.
    destruct (negb (validate_block MAX (CRITICAL_ENTER st)
                      (wrap (ptr - sizeof_memblock)))
              || (IS_USED (mem (CRITICAL_ENTER st))
                    (wrap (ptr - sizeof_memblock)) =? 0)).
    + inversion Hf. unfold CRITICAL_LEAVE, CRITICAL_ENTER. proj. reflexivity.
    + match type of Hf with
      | match find_prev _ _ _ _ _ with _ => _ end = _ =>
          destruct (find_prev fuel _ NULL _ (wrap (ptr - sizeof_memblock)))
            as [prev |]; [| discriminate Hf]
      end.
      match type of Hf with
      | free_backward MAX ?p ?q ?s = _ =>
          pose proof (free_backward_crit MAX p q s) as Hb; rewrite Hf in Hb
      end.
      rewrite Hb, free_forward_crit, crit_set_count.
      unfold MARK_FREE, write_size. proj. reflexivity.
Qed.

Lemma malloc_free_critical_section_balanced_witness :
  exists st',
    malloc MIN8 MAX30 8 64 heap256 = Ret 4104 st'
    /\ crit st' = [Leave; Enter].
Proof.
  assert (Er : ret_value (malloc MIN8 MAX30 8 64 heap256) = Some 4104)
    by (vm_compute; reflexivity).
  destruct (malloc MIN8 MAX30 8 64 heap256) as [r st' | |] eqn:E;
    try discriminate Er.
  inversion Er; subst r.
  exists st'. split; [reflexivity |].
  destruct (malloc_free_critical_section_balanced MIN8 MAX30 8 heap256)
    as (Hm & _).
  destruct (Hm 64 4104 st' E) as [(_ & Hr & _) | Hc]; [discriminate Hr |].
  exact Hc.
Defined.

Lemma memset_outside m dst c n x :
  x < dst \/ dst + n <= x -> memset m dst c n x = m x.
Proof.
  intros H. unfold memset.
  destruct (Z.leb_spec dst x); destruct (Z.ltb_spec x (dst + n));
    cbn [andb]; try reflexivity; lia.
Qed.

(** X10: [calloc] on a well-formed heap.  A non-null result is the payload
    of a used block of the new, well-formed heap; the block holds at least
    [nmemb * size] bytes and those bytes are zero; the blocks that were in
    use are untouched (the zero fill stays inside the new block), and a heap
    without adjacent free blocks stays so. *)
Theorem calloc_zeroed_block :
  forall MIN MAX fuel nmemb size st bs,
    heap_inv st bs ->
    0 <= MIN -> MIN mod 4 = 0 -> 0 <= nmemb -> 0 <= size ->
    MAX + 3 < 2 ^ 32 -> (length bs + 2 <= fuel)%nat ->
    match calloc MIN MAX fuel nmemb size st with
    | Ret buf st' =>
        buf <> NULL ->
        exists bs' sz,
          heap_inv st' bs'
          /\ block_at (heap_start st) bs' (buf - 8) = Some (sz, true)
          /\ nmemb * size <= sz
          /\ (forall i, 0 <= i < nmemb * size ->
                        load8 (mem st') (buf + i) = 0)
          /\ used_kept (heap_start st) bs (mem st) bs' (mem st') NULL
          /\ (no_adj_free bs = true -> no_adj_free bs' = true)
    | Panic _ => True
    | Timeout => False
    end.
Proof.
  intros MIN MAX fuel nmemb size st bs Hinv HM HM4 Hn Hs HMAX Hf.
  unfold calloc.
  destruct (negb (nmemb =? 0) && (size >? MAX / nmemb)) eqn:G;
    [intros Hb; contradiction |].
  assert (Hfit : 0 <= nmemb * size <= MAX \/ nmemb = 0).
  { destruct (Z.eqb_spec nmemb 0) as [-> | Hnz]; [right; reflexivity |].
    left. cbn [negb andb] in G.
    pose proof (div_guard_iff MAX nmemb size ltac:(lia)).
    destruct (Z.gtb_spec size (MAX / nmemb)); [discriminate |]. nia. }
  assert (Hw : wrap (nmemb * size) = nmemb * size).
  { destruct Hfit as [Hfit | ->]; [apply wrap_small; lia | reflexivity]. }
  rewrite Hw.
  assert (Hprod : 0 <= nmemb * size <= MAX \/ nmemb * size = 0)
    by (destruct Hfit as [Hfit | ->]; [left; exact Hfit | right; reflexivity]).
  assert (Hp0 : 0 <= nmemb * size /\ nmemb * size + 3 < 2 ^ 32)
    by (destruct Hprod as [Hp | ->]; lia).
  pose proof (ALIGN4_bounds (nmemb * size) ltac:(lia) ltac:(lia)) as HA.
  set (total := ALIGN4 (nmemb * size)) in *.
  destruct ((total =? 0) || (total >? MAX)) eqn:G2.
  { rewrite malloc_eq, G2. cbn [bind]. change (NULL =? NULL) with true.
    cbn [negb]. intros Hb; contradiction. }
  apply orb_false_iff in G2. destruct G2 as [G2a G2b].
  apply Z.eqb_neq in G2a.
  assert (Htot : 0 < total <= MAX)
    by (destruct (Z.gtb_spec total MAX); [discriminate | lia]).
  pose proof (malloc_wf MIN MAX fuel total st bs Hinv HM HM4 Htot HMAX Hf)
    as H.
  cbv zeta in H.
  destruct (norm_size_props MIN total HM HM4 ltac:(lia) ltac:(lia))
    as (Hn1 & _).
  set (n := norm_size MIN total) in *.
  set (bs1 := if free_blocks_count st >? COALESCE_THRESHOLD
              then sweep_all bs else bs) in *.
  destruct (malloc MIN MAX fuel total st) as [r st1 | st1 |]; cbn [bind];
    [| exact I | exact H].
  destruct (Z.eqb_spec r NULL) as [-> | Hr]; cbn [negb];
    [intros Hb; contradiction | intros _].
  destruct H as [_ [(Hr0 & _) | H]]; [contradiction |].
  destruct H as (Q1 & sz & Q2 & E & Hle & Hb & _ & Ha & Hev).
  destruct (split_list_head MIN sz true n) as (s' & tl & Esl & _ & Hs').
  assert (Hsn : n <= s') by (destruct Hs'; lia).
  pose proof Hev as ((_ & R2 & _) & Hi1 & Hk1 & _).
  set (bs' := Q1 ++ split_list MIN sz true n ++ Q2) in *.
  set (hr := heap_start st + span Q1) in *.
  pose proof (wf_sizes _ _ _ _ (hi_wf _ _ Hi1)) as Hsz1.
  assert (HsQ1 : sizes_ok Q1).
  { subst bs'. apply sizes_ok_app in Hsz1. exact (proj1 Hsz1). }
  assert (Hblk : block_at (heap_start st) bs' hr = Some (s', true)).
  { subst bs' hr. rewrite Esl. cbn [app]. apply block_at_mid. exact HsQ1. }
  assert (Hpw : evolves st1 bs' (set_mem (memset (mem st1) r 0 total) st1)
                        bs' hr).
  { apply (payload_write_inv st1 bs' hr s' true); [exact Hi1 | |].
    - rewrite R2. exact Hblk.
    - intros x Hx. apply memset_outside. lia. }
  destruct Hpw as (_ & Hi2 & Hk2 & _).
  exists bs', s'.
  split; [exact Hi2 |].
  split; [replace (r - 8) with hr by lia; exact Hblk |].
  split; [lia |].
  split; [intros i Hi; rewrite mem_set_mem; rewrite load8_memset by lia;
          reflexivity |].
  split.
  - intros a s0 Hba Hne.
    destruct (Hk1 a s0 Hba Hne) as [Hb1 Hm1].
    assert (Hah : a <> hr).
    { intros ->.
      assert (Hu : block_at (heap_start st) bs1 hr = Some (s0, true)).
      { subst bs1. destruct (free_blocks_count st >? COALESCE_THRESHOLD);
          [apply sweep_all_block_used |]; exact Hba. }
      rewrite E in Hu. subst hr.
      rewrite (block_at_mid _ Q1 (sz, false) Q2 HsQ1) in Hu. discriminate. }
    rewrite R2 in Hk2. destruct (Hk2 a s0 Hb1 Hah) as [Hb2 Hm2].
    split; [exact Hb2 |].
    intros x Hx. rewrite Hm2, Hm1 by exact Hx. reflexivity.
  - intros Hnaf. subst bs'. apply naf_alloc. rewrite <- E. subst bs1.
    destruct (free_blocks_count st >? COALESCE_THRESHOLD);
      [apply naf_sweep_all | exact Hnaf].
Qed.

Lemma calloc_zeroed_block_witness :
  exists st',
    calloc MIN8 MAX30 8 3 7 heap3_f2 = Ret 4176 st'
    /\ load8 (mem st') (4176 + 20) = 0
    /\ exists bs', heap_inv st' bs'.
Proof.
  pose proof (calloc_zeroed_block MIN8 MAX30 8 3 7 heap3_f2 _ heap3_f2_inv
                ltac:(unfold MIN8; lia) ltac:(reflexivity) ltac:(lia)
                ltac:(lia) ltac:(unfold MAX30; lia)
                ltac:(cbn [length]; lia)) as H.
  assert (Er : ret_value (calloc MIN8 MAX30 8 3 7 heap3_f2) = Some 4176)
    by (vm_compute; reflexivity).
  destruct (calloc MIN8 MAX30 8 3 7 heap3_f2) as [r st' | |];
    try discriminate Er.
  inversion Er; subst r.
  exists st'. split; [reflexivity |].
  destruct (H ltac:(discriminate)) as (bs' & sz & Hi & _ & _ & Hz & _).
  split; [apply Hz; lia | exists bs'; exact Hi].
Defined.

(** X11: [realloc] with a null pointer is [malloc]: the two calls give the
    same outcome for every size, including the sizes both reject. *)
Theorem realloc_null_is_malloc :
  forall MIN MAX fuel size st,
    realloc MIN MAX fuel NULL size st = malloc MIN MAX fuel size st.
Proof.
  intros MIN MAX fuel size st. unfold realloc.
  destruct (size >? MAX) eqn:G; [| reflexivity].
  rewrite malloc_eq, G, orb_true_r. reflexivity.
Qed.

(** X12: [realloc] checks the block it is given.  For a pointer to a block
    of a well-formed heap that is free, or whose size is zero or above the
    maximum, a call with a size in range panics and leaves the state as it
    was. *)
Theorem realloc_detects_misuse :
  forall MIN MAX fuel size st P s u Q,
    heap_inv st (P ++ (s, u) :: Q) -> 0 < size <= MAX ->
    u = false \/ s = 0 \/ s > MAX ->
    realloc MIN MAX fuel (heap_start st + span P + 8) size st = Panic st.
Proof.
  intros MIN MAX fuel size st P s u Q Hinv Hsize Hbad.
  pose proof (hi_wf _ _ Hinv) as Hwf.
  pose proof (wf_block _ _ _ _ _ _ Hwf) as
    (Hpos & Hh & Hh4 & Hb0 & Hb4 & HQ & Hend & Htop & Hn & Hsw & Hg & Hu).
  cbv zeta in *. set (h := heap_start st + span P) in *. cbn [fst snd] in *.
  unfold realloc.
  destruct (Z.gtb_spec size MAX); [lia |].
  rewrite (nz_eqb (h + 8)) by lia.
  destruct (Z.eqb_spec size 0); [lia |].
  cbv zeta. unfold sizeof_memblock.
  replace (h + 8 - 8) with h by lia.
  rewrite (wrap_small h) by lia.
  pose proof (validate_block_wf MAX st P (s, u) Q Hwf) as Hv.
  fold h in Hv. cbn [fst] in Hv. rewrite Hv, Hu.
  destruct (Z.eqb_spec s 0); [reflexivity |].
  destruct (Z.gtb_spec s MAX); [reflexivity |].
  destruct Hbad as [-> | [? | ?]]; [reflexivity | lia | lia].
Qed.

Lemma realloc_detects_misuse_witness :
  realloc MIN8 MAX30 8 4128 24 heap3_f2 = Panic heap3_f2.
Proof.
  pose proof (realloc_detects_misuse MIN8 MAX30 8 24 heap3_f2
                [(16, true)] 16 false [(16, true); (168, false)]
                heap3_f2_inv ltac:(unfold MAX30; lia)
                ltac:(left; reflexivity)) as H.
  match type of H with
  | realloc _ _ _ ?a _ _ = _ =>
      assert (Ea : a = 4128) by (vm_compute; reflexivity); rewrite Ea in H
  end.
  exact H.
Defined.

(** X13: [realloc] to a size the block already holds, with a remainder too
    small to split off, returns the same pointer and changes nothing: not
    the memory, not the counter, not the critical-section log. *)
Theorem realloc_close_size_in_place :
  forall MIN MAX fuel size st P s Q,
    heap_inv st (P ++ (s, true) :: Q) ->
    0 < size <= MAX -> 0 < s <= MAX ->
    ALIGN4 size <= s -> s - ALIGN4 size < 8 + MIN ->
    realloc MIN MAX fuel (heap_start st + span P + 8) size st
    = Ret (heap_start st + span P + 8) st.
Proof.
  intros MIN MAX fuel size st P s Q Hinv Hsize Hs Hle Hrem.
  rewrite (realloc_eq MIN MAX fuel size st P s Q Hinv Hsize Hs).
  cbv zeta.
  destruct (Z.leb_spec (ALIGN4 size) s); [| lia].
  destruct (Z.ltb_spec (s - ALIGN4 size) (8 + MIN)); [| lia].
  reflexivity.
Qed.

Lemma realloc_close_size_in_place_witness :
  realloc MIN8 MAX30 8 4152 5 heap3 = Ret 4152 heap3.
Proof.
  pose proof (realloc_close_size_in_place MIN8 MAX30 8 5 heap3
                [(16, true); (16, true)] 16 [(168, false)]
                heap3_inv ltac:(unfold MAX30; lia) ltac:(unfold MAX30; lia)
                ltac:(vm_compute; discriminate)
                ltac:(vm_compute; reflexivity)) as H.
  match type of H with
  | realloc _ _ _ ?a _ _ = _ =>
      assert (Ea : a = 4152) by (vm_compute; reflexivity); rewrite Ea in H
  end.
  exact H.
Defined.

(** X14: [realloc] to size zero is [free]: on a well-formed heap it returns
    null, the block is released and merged with its free neighbours exactly
    as [free] does, and the critical section is entered and left once. *)
Theorem realloc_zero_size_frees :
  forall MIN MAX fuel st P s Q,
    heap_inv st (P ++ (s, true) :: Q) -> 0 <= MAX -> (length P < fuel)%nat ->
    let h := heap_start st + span P in
    match realloc MIN MAX fuel (h + 8) 0 st with
    | Ret r st' =>
        r = NULL
        /\ evolves st (P ++ (s, true) :: Q) st' (free_list P s Q) h
        /\ IS_USED (mem st') h = 0
        /\ crit st' = Leave :: Enter :: crit st
    | Panic _ =>
        s = 0 \/ s > MAX
        \/ exists P' bp, P = P' ++ [bp] /\ snd bp = false
                         /\ (fst bp = 0 \/ fst bp > MAX)
    | Timeout => False
    end.
Proof.
  intros MIN MAX fuel st P s Q Hinv HMAX Hf h.
  pose proof (wf_block _ _ _ _ _ _ (hi_wf _ _ Hinv)) as (Hpos & Hh & _).
  fold h in Hh.
  pose proof (free_spec MAX fuel st P s Q Hinv Hf) as H.
  cbv zeta in H. fold h in H.
  unfold realloc.
  destruct (Z.gtb_spec 0 MAX); [lia |].
  rewrite (nz_eqb (h + 8)) by lia.
  change (0 =? 0) with true. cbv iota.
  destruct (free MAX fuel (h + 8) st) as [[] st' | st' |]; cbn [bind].
  - destruct H as (Hev & Hc & Hu & _).
    split; [reflexivity |]. split; [exact Hev |].
    split; [exact Hu | exact Hc].
  - exact H.
  - exact H.
Qed.

Lemma realloc_zero_size_frees_witness :
  exists st',
    realloc MIN8 MAX30 8 4104 0 heap3_f2 = Ret NULL st'
    /\ heap_inv st' [(40, false); (16, true); (168, false)].
Proof.
  pose proof (realloc_zero_size_frees MIN8 MAX30 8 heap3_f2
                [] 16 [(16, false); (16, true); (168, false)]
                heap3_f2_inv ltac:(unfold MAX30; lia)
                ltac:(cbn [length]; lia)) as H.
  cbv zeta in H.
  match type of H with
  | match realloc _ _ _ ?a _ _ with _ => _ end =>
      assert (Ea : a = 4104) by (vm_compute; reflexivity); rewrite Ea in H
  end.
  assert (Er : is_ret (realloc MIN8 MAX30 8 4104 0 heap3_f2) = true)
    by (vm_compute; reflexivity).
  destruct (realloc MIN8 MAX30 8 4104 0 heap3_f2) as [r st' | |];
    try discriminate Er.
  destruct H as (-> & (_ & Hi & _) & _).
  exists st'. split; [reflexivity | exact Hi].
Defined.

(** X15: the shrinking path of [realloc].  When the remainder is large
    enough to split off, the block keeps its address and its first bytes,
    its size becomes the rounded request, and the remainder becomes a free
    block; the heap stays well-formed with an exact counter (after a sweep
    when the counter passed the threshold), and every other used block is
    untouched.  The path leaves the critical section without having entered
    it. *)
Theorem realloc_shrink_splits :
  forall MIN MAX fuel size st P s Q,
    heap_inv st (P ++ (s, true) :: Q) ->
    0 <= MIN -> 0 < size <= MAX -> 0 < s <= MAX -> MAX + 3 < 2 ^ 32 ->
    8 + MIN <= s - ALIGN4 size ->
    (length P + length Q + 4 <= fuel)%nat ->
    let h := heap_start st + span P in
    let n := ALIGN4 size in
    let bs1 := P ++ (n, true) :: (s - n - 8, false) :: Q in
    let bs2 := if count_free bs1 >? COALESCE_THRESHOLD
               then sweep_all bs1 else bs1 in
    match realloc MIN MAX fuel (h + 8) size st with
    | Ret r st' =>
        r = h + 8
        /\ evolves st (P ++ (s, true) :: Q) st' bs2 h
        /\ block_at (heap_start st) bs2 h = Some (n, true)
        /\ (forall x, h + 8 <= x < h + 8 + n -> mem st' x = mem st x)
        /\ crit st' = Leave :: crit st
    | Panic _ => Exists (fun c => fst c = 0) bs1 \/ MAX + 8 < span bs1
    | Timeout => False
    end.
Proof.
  intros MIN MAX fuel size st P s Q Hinv HM Hsize Hs HMAX Hrem Hf h n bs1 bs2.
  pose proof (ALIGN4_bounds size ltac:(lia) ltac:(lia)) as HA.
  pose proof (ALIGN4_mod4 size) as HA4. fold n in HA, HA4, Hrem.
  pose proof (realloc_eq MIN MAX fuel size st P s Q Hinv Hsize Hs) as Hre.
  cbv zeta in Hre. fold h n in Hre. rewrite Hre. clear Hre.
  destruct (Z.leb_spec n s); [| lia].
  destruct (Z.ltb_spec (s - n) (8 + MIN)); [lia |]. cbn [andb].
  destruct (split_step MIN st P s true Q n Hinv HM ltac:(lia) HA4)
    as (st1 & Hsp & Hev1 & Hc1 & Hpay1).
  fold h in Hsp, Hev1, Hpay1. rewrite Hsp. cbn [bind].
  assert (Esl : split_list MIN s true n = [(n, true); (s - n - 8, false)]).
  { unfold split_list, sizeof_memblock.
    destruct (Z.ltb_spec (s - n) (8 + MIN)); [lia | reflexivity]. }
  rewrite Esl in Hev1. cbn [app] in Hev1.
  change (evolves st (P ++ (s, true) :: Q) st1 bs1 h) in Hev1.
  pose proof Hev1 as ((_ & R2 & _) & Hi1 & _).
  pose proof (wf_block _ _ _ _ _ _ (hi_wf _ _ Hinv)) as (Hpos & Hh & _).
  fold h in Hh.
  pose proof (wf_sizes _ _ _ _ (hi_wf _ _ Hinv)) as Hsz.
  apply sizes_ok_app in Hsz. destruct Hsz as [HsP _].
  assert (Hblk : block_at (heap_start st) bs1 h = Some (n, true))
    by (subst bs1 h; apply block_at_mid; exact HsP).
  subst bs2. rewrite (hi_count _ _ Hi1).
  destruct (count_free bs1 >? COALESCE_THRESHOLD).
  - pose proof (coalesce_spec MAX fuel st1 bs1 Hi1) as HC.
    assert (Hlen : (length bs1 + 2 <= fuel)%nat).
    { subst bs1. rewrite length_app. cbn [length]. lia. }
    specialize (HC Hlen).
    destruct (selective_coalesce MAX fuel st1) as [[] st2 | st2 |];
      cbn [bind]; [| exact HC | exact HC].
    destruct HC as [Hev2 Hc2].
    pose proof Hev2 as (_ & Hi2 & Hk2 & _).
    rewrite R2 in Hk2.
    destruct (Hk2 h n Hblk ltac:(lia)) as [Hb2 Hm2].
    split; [reflexivity |].
    split.
    { eapply evolves_trans; [exact Hev1 |].
      eapply evolves_trans;
        [apply (evolves_any_ex _ _ _ _ h Hi1 Hev2) |].
      apply evolves_log. exact Hi2. }
    split; [exact Hb2 |].
    split.
    { intros x Hx. unfold CRITICAL_LEAVE. rewrite mem_log_event.
      rewrite Hm2 by (unfold sizeof_memblock; lia). apply Hpay1. exact Hx. }
    unfold CRITICAL_LEAVE. rewrite crit_log_event, Hc2, Hc1. reflexivity.
  - cbn [bind].
    split; [reflexivity |].
    split.
    { eapply evolves_trans; [exact Hev1 |]. apply evolves_log. exact Hi1. }
    split; [exact Hblk |].
    split.
    { intros x Hx. unfold CRITICAL_LEAVE. rewrite mem_log_event.
      apply Hpay1. exact Hx. }
    unfold CRITICAL_LEAVE. rewrite crit_log_event, Hc1. reflexivity.
Qed.

Lemma realloc_shrink_splits_witness :
  exists st',
    realloc MIN8 MAX30 8 4104 16 heap256_a64 = Ret 4104 st'
    /\ heap_inv st' [(16, true); (40, false); (168, false)]
    /\ crit st' = Leave :: crit heap256_a64.
Proof.
  pose proof (realloc_shrink_splits MIN8 MAX30 8 16 heap256_a64
                [] 64 [(168, false)] heap256_a64_inv
                ltac:(unfold MIN8; lia) ltac:(unfold MAX30; lia)
                ltac:(unfold MAX30; lia) ltac:(unfold MAX30; lia)
                ltac:(vm_compute; discriminate)
                ltac:(cbn [length]; lia)) as H.
  cbv zeta in H.
  match type of H with
  | match realloc _ _ _ ?a _ _ with _ => _ end =>
      assert (Ea : a = 4104) by (vm_compute; reflexivity); rewrite Ea in H
  end.
  assert (Er : is_ret (realloc MIN8 MAX30 8 4104 16 heap256_a64) = true)
    by (vm_compute; reflexivity).
  destruct (realloc MIN8 MAX30 8 4104 16 heap256_a64) as [r st' | |];
    try discriminate Er.
  destruct H as (Hr & (_ & Hi & _) & _ & _ & Hc).
  assert (E16 : ALIGN4 16 = 16) by (vm_compute; reflexivity).
  rewrite E16 in Hi. cbn [app] in Hi.
  change (count_free [(16, true); (64 - 16 - 8, false); (168, false)]
          >? COALESCE_THRESHOLD) with false in Hi.
  cbv iota in Hi.
  change (64 - 16 - 8) with 40 in Hi.
  replace r with 4104 by (rewrite Hr; vm_compute; reflexivity).
  exists st'. split; [reflexivity |]. split; [exact Hi | exact Hc].
Defined.

(** X16: the growing path of [realloc] into a free successor.  When the
    block is followed by a free block and the two together hold the
    request, the call returns the same pointer with the old payload bytes
    in place and the block list stays linked; but the merged block's header
    is written without the used flag, and the counter ends one below the
    number of free blocks.  (Stated for a counter at or below the sweep
    threshold, so that no sweep follows.) *)
Theorem realloc_grow_clears_used_flag :
  forall MIN MAX fuel size st P s s2 Q,
    heap_inv st (P ++ (s, true) :: (s2, false) :: Q) ->
    0 <= MIN -> 0 < size <= MAX -> 0 < s <= MAX -> MAX + 3 < 2 ^ 32 ->
    s < ALIGN4 size <= s + 8 + s2 ->
    free_blocks_count st <= COALESCE_THRESHOLD ->
    let h := heap_start st + span P in
    let n := ALIGN4 size in
    let bs' := P ++ split_list MIN (s + 8 + s2) false n ++ Q in
    exists st',
      realloc MIN MAX fuel (h + 8) size st = Ret (h + 8) st'
      /\ wf_mem (mem st') (heap_start st') bs' (heap_end st')
      /\ IS_USED (mem st') h = 0
      /\ free_blocks_count st' = count_free bs' - 1
      /\ (forall x, h + 8 <= x < h + 8 + s -> mem st' x = mem st x)
      /\ crit st' = Leave :: crit st.
Proof.
  intros MIN MAX fuel size st P s s2 Q Hinv HM Hsize Hs HMAX Hn Hthr h n bs'.
  pose proof (ALIGN4_mod4 size) as HA4. fold n in HA4, Hn.
  pose proof (hi_wf _ _ Hinv) as Hwf.
  pose proof (hi_count _ _ Hinv) as Hc.
  pose proof (wf_sizes _ _ _ _ Hwf) as Hsz.
  apply sizes_ok_app in Hsz. destruct Hsz as [HsP HsQ].
  apply sizes_ok_cons in HsQ. destruct HsQ as [_ HsQ].
  apply sizes_ok_cons in HsQ. destruct HsQ as [[Hs20 _] HsQ].
  cbn [fst] in Hs20.
  pose proof (count_free_bound P HsP) as HcP.
  pose proof (count_free_bound Q HsQ) as HcQ.
  pose proof (wf_block _ _ _ _ _ _ Hwf) as
    (Hpos & Hh & Hh4 & Hb0 & Hb4 & HQ & Hend & Htop & Hnx & Hsw & Hg & Hu).
  fold h in Hh, Hh4, Hend, Hnx, Hsw, Hg, Hu. cbn [fst snd span] in *.
  unfold sizeof_memblock in *.
  pose proof (wf_succ _ _ _ _ _ _ Hwf) as (_ & _ & Hu2 & _ & Hg2).
  cbv zeta in Hu2, Hg2. fold h in Hu2, Hg2. cbn [fst snd Z.b2z] in Hu2, Hg2.
  pose proof (realloc_eq MIN MAX fuel size st P s ((s2, false) :: Q)
                Hinv Hsize Hs) as Hre.
  cbv zeta in Hre. fold h n in Hre. rewrite Hre. clear Hre.
  destruct (Z.leb_spec n s); [lia |]. cbn [andb].
  unfold next_of at 1 2 3. rewrite Hnx, Hu2, Hg2.
  rewrite (nz_eqb (h + 8 + s)) by lia.
  change (0 =? 0) with true. cbn [negb andb].
  rewrite (wrap_small (s + 8 + s2)) by lia.
  destruct (Z.geb_spec (s + 8 + s2) n); [| lia].
  (* the merge with the successor *)
  destruct (absorb_next_wf st P (s, true) (s2, false) Q Hwf)
    as (Hwfa & Hfra & (Ra1 & Ra2 & Ra3) & Hca & Hcra).
  fold h in Hwfa, Hfra, Ra1, Ra2, Ra3, Hca, Hcra. cbn [fst] in Hwfa.
  rewrite count_free_app in Hc. cbn [count_free snd] in Hc.
  set (stb := set_count (wrap (free_blocks_count st - 1))
                        (absorb_next h st)).
  assert (Hwfb : wf_mem (mem stb) (heap_start stb)
                   (P ++ (s + 8 + s2, false) :: Q) (heap_end stb)).
  { subst stb. rewrite mem_set_count, heap_start_set_count,
      heap_end_set_count, Ra2, Ra3. exact Hwfa. }
  assert (Hsb : heap_start stb = heap_start st)
    by (subst stb; rewrite heap_start_set_count; exact Ra2).
  assert (Heb : heap_end stb = heap_end st)
    by (subst stb; rewrite heap_end_set_count; exact Ra3).
  assert (Hcb : free_blocks_count stb = free_blocks_count st - 1).
  { subst stb. rewrite count_set_count. apply wrap_small. lia. }
  destruct (split_block_wf MIN stb P (s + 8 + s2) false Q n Hwfb HM
              ltac:(lia) HA4)
    as (st1 & Hsp & (R1 & R2 & R3) & Hcrit1 & Hwf1 & Hfr1 & Hc1 & Hpay1).
  rewrite Hsb in Hsp, Hwf1, Hfr1, Hpay1. rewrite Heb in Hwf1.
  fold h in Hsp, Hfr1, Hpay1.
  rewrite Hsp. cbn [bind].
  assert (Hc1' : free_blocks_count st1 = count_free bs' - 1).
  { rewrite Hc1, Hcb. subst bs'.
    rewrite !count_free_app, count_split_list. unfold sizeof_memblock.
    destruct (s + 8 + s2 - n <? 8 + MIN); [lia |].
    rewrite wrap_small by lia. lia. }
  assert (Hno : (free_blocks_count st1 >? COALESCE_THRESHOLD) = false).
  { destruct (Z.gtb_spec (free_blocks_count st1) COALESCE_THRESHOLD);
      [| reflexivity].
    exfalso. rewrite Hc1 in *. rewrite Hcb in *.
    destruct (s + 8 + s2 - n <? 8 + MIN); [lia |].
    rewrite wrap_small in * by lia. lia. }
  rewrite Hno. cbn [bind].
  eexists. split; [reflexivity |].
  unfold CRITICAL_LEAVE.
  rewrite mem_log_event, heap_start_log_event, heap_end_log_event,
    count_log_event, crit_log_event.
  rewrite R2, R3, Hsb, Heb.
  split; [exact Hwf1 |].
  split.
  { destruct (split_list_head MIN (s + 8 + s2) false n)
      as (b' & tl & Esl & _).
    rewrite Esl in Hwf1. cbn [app] in Hwf1.
    pose proof (wf_block _ _ _ _ _ _ Hwf1) as
      (_ & _ & _ & _ & _ & _ & _ & _ & _ & _ & _ & Hu1).
    exact Hu1. }
  split; [exact Hc1' |].
  split.
  { intros x Hx. rewrite Hpay1 by lia. subst stb. rewrite mem_set_count.
    apply Hfra. lia. }
  rewrite Hcrit1. subst stb. rewrite crit_set_count, Hcra. reflexivity.
Qed.

Lemma realloc_grow_clears_used_flag_witness :
  exists st',
    realloc MIN8 MAX30 8 4104 100 heap256_a64 = Ret 4104 st'
    /\ IS_USED (mem st') 4096 = 0
    /\ free_blocks_count st' = 1.
Proof.
  destruct (realloc_grow_clears_used_flag MIN8 MAX30 8 100 heap256_a64
              [] 64 168 [] heap256_a64_inv
              ltac:(unfold MIN8; lia) ltac:(unfold MAX30; lia)
              ltac:(unfold MAX30; lia) ltac:(unfold MAX30; lia)
              ltac:(vm_compute; split; [reflexivity | discriminate])
              ltac:(vm_compute; discriminate))
    as (st' & Hr & _ & Hu & Hc & _).
  exists st'.
  match type of Hu with
  | IS_USED _ ?a = _ =>
      assert (Ea : a = 4096) by (vm_compute; reflexivity);
      rewrite Ea in Hr, Hu
  end.
  split; [exact Hr |]. split; [exact Hu |].
  rewrite Hc. vm_compute. reflexivity.
Defined.

(** X17: the relocating path of [realloc].  When the request is larger than
    the block and the successor cannot absorb it, the call allocates, copies
    and frees: a non-null result is the payload of a used block of at least
    the rounded size in a well-formed heap, its first bytes are the old
    payload, the old block's header is flagged free, every other used block
    is untouched, and two balanced critical sections are logged.  A null
    result leaves the old block in place with its contents. *)
Theorem realloc_relocates_and_copies :
  forall MIN MAX fuel size st P s Q,
    heap_inv st (P ++ (s, true) :: Q) ->
    0 <= MIN -> MIN mod 4 = 0 ->
    0 < size <= MAX -> ALIGN4 size <= MAX -> 0 < s <= MAX ->
    MAX + 3 < 2 ^ 32 ->
    s < ALIGN4 size ->
    match Q with
    | (s2, false) :: _ => s + 8 + s2 < ALIGN4 size
    | _ => True
    end ->
    (length P + length Q + 3 <= fuel)%nat ->
    let h := heap_start st + span P in
    match realloc MIN MAX fuel (h + 8) size st with
    | Ret r st' =>
        (r = NULL
         /\ exists bs',
             heap_inv st' bs'
             /\ block_at (heap_start st) bs' h = Some (s, true)
             /\ forall x, h <= x < h + 8 + s -> mem st' x = mem st x)
        \/ (r <> NULL
            /\ exists bs' sz,
                heap_inv st' bs'
                /\ block_at (heap_start st) bs' (r - 8) = Some (sz, true)
                /\ ALIGN4 size <= sz
                /\ (forall i, 0 <= i < s ->
                      load8 (mem st') (r + i) = load8 (mem st) (h + 8 + i))
                /\ IS_USED (mem st') h = 0
                /\ used_kept (heap_start st) (P ++ (s, true) :: Q) (mem st)
                             bs' (mem st') h
                /\ crit st' = Leave :: Enter :: Leave :: Enter :: crit st)
    | Panic _ => True
    | Timeout => False
    end.
Proof.
  intros MIN MAX fuel size st P s Q Hinv HM HM4 Hsize HnMAX Hs HMAX Hgrow
    Hnext Hf h.
  set (n := ALIGN4 size) in *.
  set (bs := P ++ (s, true) :: Q) in *.
  pose proof (hi_wf _ _ Hinv) as Hwf.
  pose proof (wf_sizes _ _ _ _ Hwf) as Hsz.
  assert (HsP : sizes_ok P)
    by (subst bs; apply sizes_ok_app in Hsz; exact (proj1 Hsz)).
  pose proof (wf_block _ _ _ _ _ _ Hwf) as
    (Hpos & Hh & Hh4 & Hb0 & Hb4 & HQ & Hend & Htop & Hnx & Hsw & Hg & Hu).
  fold h in Hh, Hh4, Hend, Hnx, Hsw, Hg, Hu. cbn [fst snd] in *.
  pose proof (wf_succ _ _ _ _ _ _ Hwf) as (_ & _ & Hu2 & _ & Hg2).
  cbv zeta in Hu2, Hg2. fold h in Hu2, Hg2. cbn [fst] in Hu2, Hg2.
  assert (Hold : block_at (heap_start st) bs h = Some (s, true))
    by (subst bs h; apply block_at_mid; exact HsP).
  pose proof (realloc_eq MIN MAX fuel size st P s Q Hinv Hsize Hs) as Hre.
  cbv zeta in Hre. fold h n in Hre. rewrite Hre. clear Hre.
  destruct (Z.leb_spec n s) as [? | Hns]; [lia |]. cbn [andb].
  assert (Hcond : negb (next_of (mem st) h =? NULL)
                  && (IS_USED (mem st) (next_of (mem st) h) =? 0)
                  && (wrap (s + 8 + GET_SIZE (mem st) (next_of (mem st) h))
                      >=? n) = false).
  { unfold next_of at 1 2 3. rewrite Hnx, Hu2.
    destruct Q as [| [s2 u2] Q'].
    - change (1 =? 0) with false. rewrite andb_false_r. reflexivity.
    - cbn [fst snd] in Hu2, Hg2 |- *. destruct u2.
      + change (Z.b2z true =? 0) with false. rewrite andb_false_r.
        reflexivity.
      + rewrite Hg2. cbn [span fst] in HQ, Hend.
        apply sizes_ok_app in Hsz. destruct Hsz as [_ Hsz].
        apply sizes_ok_cons in Hsz. destruct Hsz as [_ Hsz].
        apply sizes_ok_cons in Hsz. destruct Hsz as [[Hs20 _] HsQ'].
        cbn [fst] in Hs20. pose proof (span_nonneg Q' HsQ').
        unfold sizeof_memblock in *.
        rewrite (wrap_small (s + 8 + s2)) by lia.
        destruct (Z.geb_spec (s + 8 + s2) n); [lia |].
        rewrite andb_false_r. reflexivity. }
  rewrite Hcond. clear Hcond.
  rewrite Z.min_l by lia.
  assert (Hfm : (length bs + 2 <= fuel)%nat).
  { subst bs. rewrite length_app. cbn [length]. lia. }
  pose proof (malloc_wf MIN MAX fuel n st bs Hinv HM HM4 ltac:(lia) HMAX Hfm)
    as HMW.
  cbv zeta in HMW.
  destruct (norm_size_props MIN n HM HM4 ltac:(lia) ltac:(lia))
    as (Hn1 & _).
  set (nn := norm_size MIN n) in *.
  set (bs1 := if free_blocks_count st >? COALESCE_THRESHOLD
              then sweep_all bs else bs) in *.
  assert (Hlen1 : (length bs1 <= length bs)%nat).
  { subst bs1. destruct (free_blocks_count st >? COALESCE_THRESHOLD);
      [apply length_sweep_all | apply le_n]. }
  destruct (malloc MIN MAX fuel n st) as [r st1 | st1 |]; cbn [bind];
    [| exact I | exact HMW].
  destruct HMW as [Hcr1 HMW].
  destruct (Z.eqb_spec r NULL) as [-> | Hr]; cbn [negb].
  { (* the allocation failed: nothing moved *)
    left. split; [reflexivity |].
    assert (Hex : exists bsx, evolves st bs st1 bsx 0).
    { destruct HMW as [(_ & Hev & _) | (Q1 & sz & Q2 & _ & _ & _ & _ & _ & Hev)];
        eexists; exact Hev. }
    destruct Hex as (bsx & (_ & Hi & Hk & _)).
    destruct (Hk h s Hold ltac:(lia)) as [Hb Hm].
    exists bsx. split; [exact Hi |]. split; [exact Hb |].
    intros x Hx. apply Hm. unfold sizeof_memblock. lia. }
  destruct HMW as [(Hr0 & _) | HMW]; [contradiction |].
  destruct HMW as (Q1 & sz & Q2 & E & Hle & Hb & _ & Ha & Hev).
  destruct (split_list_head MIN sz true nn) as (s' & tl & Esl & _ & Hs').
  assert (Hsn : n <= s') by (destruct Hs'; lia).
  pose proof Hev as ((_ & R2 & _) & Hi1 & Hk1 & _).
  set (bs' := Q1 ++ split_list MIN sz true nn ++ Q2) in *.
  set (hr := heap_start st + span Q1) in *.
  pose proof (wf_sizes _ _ _ _ (hi_wf _ _ Hi1)) as Hsz1.
  assert (HsQ1 : sizes_ok Q1).
  { subst bs'. apply sizes_ok_app in Hsz1. exact (proj1 Hsz1). }
  assert (Hblk : block_at (heap_start st) bs' hr = Some (s', true)).
  { subst bs' hr. rewrite Esl. cbn [app]. apply block_at_mid. exact HsQ1. }
  assert (Hfresh : forall a s0,
             block_at (heap_start st) bs a = Some (s0, true) -> a <> hr).
  { intros a s0 Hba ->.
    assert (Hu1 : block_at (heap_start st) bs1 hr = Some (s0, true)).
    { subst bs1. destruct (free_blocks_count st >? COALESCE_THRESHOLD);
        [apply sweep_all_block_used |]; exact Hba. }
    rewrite E in Hu1. subst hr.
    rewrite (block_at_mid _ Q1 (sz, false) Q2 HsQ1) in Hu1. discriminate. }
  destruct (Hk1 h s Hold ltac:(lia)) as [Hold1 Hm1].
  pose proof (Hfresh h s Hold) as Hhr.
  (* the copy stays inside the new block *)
  set (m2 := memcpy (mem st1) r (h + 8) s).
  assert (Hpw : evolves st1 bs' (set_mem m2 st1) bs' hr).
  { apply (payload_write_inv st1 bs' hr s' true); [exact Hi1 | |].
    - rewrite R2. exact Hblk.
    - intros x Hx. subst m2. apply memcpy_outside. lia. }
  destruct Hpw as ((_ & R2' & _) & Hi2 & Hk2 & _).
  rewrite R2 in Hk2. rewrite mem_set_mem in Hk2.
  rewrite heap_start_set_mem in R2'.
  destruct (Hk2 h s Hold1 Hhr) as [_ Hm2].
  (* the release of the old block *)
  destruct (block_at_split _ _ _ _ Hold1) as (P' & Q' & Ebs' & Eh).
  assert (Hlen' : (length P' < fuel)%nat).
  { assert (Hl2 : (length bs' <= length bs1 + 1)%nat).
    { subst bs'. rewrite E, !length_app.
      pose proof (length_split_list MIN sz true nn) as Hl3. cbn [length].
      unfold blk in *. lia. }
    rewrite Ebs', length_app in Hl2. cbn [length] in Hl2.
    subst bs. rewrite length_app in Hlen1. cbn [length] in Hlen1.
    unfold blk in *. lia. }
  rewrite Ebs' in Hi2.
  pose proof (free_spec MAX fuel (set_mem m2 st1) P' s Q' Hi2 Hlen') as HF.
  cbv zeta in HF. rewrite heap_start_set_mem, R2, <- Eh in HF.
  destruct (free MAX fuel (h + 8) (set_mem m2 st1)) as [[] st3 | st3 |];
    cbn [bind]; [| exact I | exact HF].
  destruct HF as ((_ & Hi3 & Hk3 & _) & Hcr3 & Hu3 & _).
  rewrite heap_start_set_mem, R2, mem_set_mem in Hk3.
  rewrite Ebs' in Hblk.
  destruct (Hk3 hr s' Hblk ltac:(lia)) as [Hb3 Hm3].
  right. split; [exact Hr |].
  exists (free_list P' s Q'), s'.
  split; [exact Hi3 |].
  split; [replace (r - 8) with hr by lia; exact Hb3 |].
  split; [exact Hsn |].
  split.
  { intros i Hi.
    assert (E3 : load8 (mem st3) (r + i) = load8 m2 (r + i)).
    { unfold load8. rewrite Hm3 by (unfold sizeof_memblock; lia).
      reflexivity. }
    rewrite E3. subst m2. rewrite load8_memcpy by lia.
    unfold load8. rewrite Hm1 by (unfold sizeof_memblock; lia).
    reflexivity. }
  split; [exact Hu3 |].
  split.
  { intros a s0 Hba Hne.
    destruct (Hk1 a s0 Hba) as [Hb1 Hma].
    { pose proof (block_at_range _ _ _ _ Hsz Hba). unfold NULL. lia. }
    destruct (Hk2 a s0 Hb1 (Hfresh a s0 Hba)) as [Hb2 Hmb].
    rewrite Ebs' in Hb2.
    destruct (Hk3 a s0 Hb2 Hne) as [Hb4' Hmc].
    split; [exact Hb4' |].
    intros x Hx. rewrite Hmc, Hmb, Hma by exact Hx. reflexivity. }
  rewrite Hcr3, crit_set_mem, Hcr1. reflexivity.
Qed.

Lemma realloc_relocates_and_copies_witness :
  exists st',
    realloc MIN8 MAX30 8 4104 32 heap3 = Ret 4176 st'
    /\ IS_USED (mem st') 4096 = 0
    /\ load8 (mem st') (4176 + 5) = load8 (mem heap3) (4104 + 5)
    /\ exists bs', heap_inv st' bs'.
Proof.
  pose proof (realloc_relocates_and_copies MIN8 MAX30 8 32 heap3
                [] 16 [(16, true); (16, true); (168, false)] heap3_inv
                ltac:(unfold MIN8; lia) ltac:(reflexivity)
                ltac:(unfold MAX30; lia)
                ltac:(vm_compute; discriminate)
                ltac:(unfold MAX30; lia) ltac:(unfold MAX30; lia)
                ltac:(vm_compute; reflexivity) I
                ltac:(cbn [length]; lia)) as H.
  cbv zeta in H.
  match type of H with
  | match realloc _ _ _ (?a + 8) _ _ with _ => _ end =>
      assert (Ea : a = 4096) by (vm_compute; reflexivity); rewrite Ea in H
  end.
  change (4096 + 8) with 4104 in H.
  assert (Er : ret_value (realloc MIN8 MAX30 8 4104 32 heap3) = Some 4176)
    by (vm_compute; reflexivity).
  destruct (realloc MIN8 MAX30 8 4104 32 heap3) as [r st' | |];
    try discriminate Er.
  inversion Er; subst r.
  exists st'. split; [reflexivity |].
  destruct H as [(Hn & _) | (_ & bs' & sz & Hi & _ & _ & Hcp & Hu & _)];
    [discriminate Hn |].
  split; [exact Hu |].
  split; [apply Hcp; lia | exists bs'; exact Hi].
Defined.

(** X18: what [validate_block] accepts.  On a well-formed heap the header
    of a block passes the check exactly when its size is positive and at
    most the maximum, whatever its used flag; an address below the heap, at
    or past its end, or not word-aligned never passes. *)
Theorem validate_block_on_heap :
  forall MAX st bs,
    heap_inv st bs ->
    (forall h sz u,
        block_at (heap_start st) bs h = Some (sz, u) ->
        validate_block MAX st h = true <-> 0 < sz <= MAX)
    /\ (forall b,
           b < heap_start st \/ heap_end st <= b \/ b mod 4 <> 0 ->
           validate_block MAX st b = false).
Proof.
  intros MAX st bs Hinv. split.
  - intros h sz u Hb.
    destruct (block_at_split _ _ _ _ Hb) as (P & Q & -> & ->).
    pose proof (hi_wf _ _ Hinv) as Hwf.
    pose proof (wf_block _ _ _ _ _ _ Hwf) as (_ & _ & _ & Hb0 & _).
    cbn [fst] in Hb0.
    rewrite (validate_block_wf MAX st P (sz, u) Q Hwf). cbn [fst].
    destruct (Z.eqb_spec sz 0); destruct (Z.gtb_spec sz MAX);
      cbn [orb negb]; split; intros; try discriminate; try reflexivity; lia.
  - intros b Hbad. unfold validate_block, IS_VALID_BLOCK, sizeof_size_t.
    destruct (Z.leb_spec (heap_start st) b);
      destruct (Z.ltb_spec b (heap_end st));
      destruct (Z.eqb_spec (b mod 4) 0);
      cbn [andb negb]; try reflexivity.
    lia.
Qed.

Lemma validate_block_on_heap_witness :
  validate_block MAX30 heap3_f2 4120 = true
  /\ validate_block MAX30 heap3_f2 4122 = false.
Proof.
  destruct (validate_block_on_heap MAX30 heap3_f2 _ heap3_f2_inv)
    as [Hok Hbad].
  split.
  - apply (Hok 4120 16 false); [vm_compute; reflexivity |].
    unfold MAX30; lia.
  - apply Hbad. right; right. vm_compute. discriminate.
Defined.

(** X19: the size limits are checked before anything else.  [malloc] of
    zero bytes or of more than the maximum, and [realloc] to more than the
    maximum (whatever the pointer), return null and leave the state as it
    was: no block is touched or released and the critical section is not
    entered. *)
Theorem size_limits_reject_untouched :
  forall MIN MAX fuel st,
    (forall size, size = 0 \/ size > MAX ->
                  malloc MIN MAX fuel size st = Ret NULL st)
    /\ (forall ptr size, size > MAX ->
                         realloc MIN MAX fuel ptr size st = Ret NULL st).
Proof.
  intros MIN MAX fuel st. split.
  - intros size Hbad. rewrite malloc_eq.
    destruct (Z.eqb_spec size 0); [reflexivity |].
    destruct (Z.gtb_spec size MAX); [reflexivity | lia].
  - intros ptr size Hbig. unfold realloc.
    destruct (Z.gtb_spec size MAX); [reflexivity | lia].
Qed.

Lemma size_limits_reject_untouched_witness :
  malloc MIN8 MAX30 8 0 heap3 = Ret NULL heap3
  /\ realloc MIN8 MAX30 8 4104 (MAX30 + 1) heap3 = Ret NULL heap3.
Proof.
  destruct (size_limits_reject_untouched MIN8 MAX30 8 heap3) as [Hm Hr].
  split; [apply Hm; left; reflexivity | apply Hr; lia].
Defined.
